(** * DarkNote: note store, lifecycle routes and NaCl box codec

    A shallow embedding of
      - [src/lib/db.ts]                               (module [Db])
      - [src/app/api/notes/route.ts]                  (modules [NotesRoute], [NoteRoute])
      - [src/app/api/notes/[id]/increment/route.ts]   (module [IncrementRoute])
      - [src/lib/crypto.ts]                           (module [Crypto])

    The SQLite table [notes] (primary key [id]) is a finite map from ids to
    rows.  A read count or a timestamp is an integer ([Z]): the code makes
    it from [0], [+ 1] and [Date.now()].  A read limit is whatever number
    the request carried, an integer or not ([Q]).  A string is the UTF-8
    text of a JavaScript string.  A function that can throw returns
    [js_error + A]. *)

From Stdlib Require Import ZArith QArith String Ascii List Bool Lia.
From Stdlib.Strings Require Import Byte.
From stdpp Require Import base option list gmap strings.

Local Open Scope string_scope.
Local Open Scope list_scope.
Local Open Scope Z_scope.

(** ** JavaScript errors *)

(** A thrown [Error] object: its [name] ("Error", "URIError", ...) and its
    [message]. *)
Record js_error := JsError { name : string; message : string }.

(** [new Error(msg)] *)
Definition Error (msg : string) : js_error := JsError "Error" msg.

(** [`${error}`] on an error object, that is [Error.prototype.toString]. *)
Definition error_to_string (e : js_error) : string :=
  if String.eqb (name e) "" then message e
  else if String.eqb (message e) "" then name e
  else name e +:+ ": " +:+ message e.

(** [try { body } catch (error) { throw handler(error) }] *)
Definition try_rethrow {A} (body : js_error + A) (handler : js_error -> js_error)
  : js_error + A :=
  match body with
  | inl error => inl (handler error)
  | inr v => inr v
  end.

(** ** src/lib/db.ts *)

Module Db.

(** [interface Note] *)
Record Note := {
  id : string;
  ciphertext : string;
  nonce : string;
  ephemeralPublicKey : string;
  recipientAddress : string;
  createdAt : Z;
  selfDestruct : bool;
  maxReads : option Q;
  currentReads : Z
}.

(** [Omit<Note, 'createdAt' | 'currentReads'>], the argument of [createNote]. *)
Record NewNote := {
  new_id : string;
  new_ciphertext : string;
  new_nonce : string;
  new_ephemeralPublicKey : string;
  new_recipientAddress : string;
  new_selfDestruct : bool;
  new_maxReads : option Q
}.

(** A row of the table [notes]; the primary key [id] is the key of the map.
    [selfDestruct] is stored as an INTEGER.  The column [maxReads] is
    declared INTEGER, which in SQLite is an affinity, not a constraint: a
    number that is not whole is stored, and read back, as it is. *)
Record Row := {
  col_ciphertext : string;
  col_nonce : string;
  col_ephemeralPublicKey : string;
  col_recipientAddress : string;
  col_createdAt : Z;
  col_selfDestruct : Z;
  col_maxReads : option Q;
  col_currentReads : Z
}.

Abbreviation Table := (gmap string Row).

(** What better-sqlite3 throws when the INSERT hits an existing primary key. *)
Definition constraint_error : js_error :=
  JsError "SqliteError" "UNIQUE constraint failed: notes.id".

(** [createNote(note)]; [now] is the value of [Date.now()]. *)
Definition createNote (now : Z) (note : NewNote) (db : Table)
  : (js_error + Note) * Table :=
  let createdAt := now in
  match db !! new_id note with
  | Some _ => (inl constraint_error, db)
  | None =>
      (inr {| id := new_id note;
              ciphertext := new_ciphertext note;
              nonce := new_nonce note;
              ephemeralPublicKey := new_ephemeralPublicKey note;
              recipientAddress := new_recipientAddress note;
              createdAt := createdAt;
              selfDestruct := new_selfDestruct note;
              maxReads := new_maxReads note;
              currentReads := 0 |},
       <[new_id note :=
           {| col_ciphertext := new_ciphertext note;
              col_nonce := new_nonce note;
              col_ephemeralPublicKey := new_ephemeralPublicKey note;
              col_recipientAddress := new_recipientAddress note;
              col_createdAt := createdAt;
              col_selfDestruct := if new_selfDestruct note then 1 else 0;
              col_maxReads := new_maxReads note;
              col_currentReads := 0 |}]> db)
  end.

(** The object [getNote] builds from a row: [{...note, selfDestruct: note.selfDestruct === 1}]. *)
Definition note_of_row (i : string) (r : Row) : Note :=
  {| id := i;
     ciphertext := col_ciphertext r;
     nonce := col_nonce r;
     ephemeralPublicKey := col_ephemeralPublicKey r;
     recipientAddress := col_recipientAddress r;
     createdAt := col_createdAt r;
     selfDestruct := col_selfDestruct r =? 1;
     maxReads := col_maxReads r;
     currentReads := col_currentReads r |}.

(** [getNote(id)]: a SELECT, the table is not written. *)
Definition getNote (i : string) (db : Table) : option Note :=
  note_of_row i <$> db !! i.

(** [SET currentReads = currentReads + 1] on one row. *)
Definition bump (r : Row) : Row :=
  {| col_ciphertext := col_ciphertext r;
     col_nonce := col_nonce r;
     col_ephemeralPublicKey := col_ephemeralPublicKey r;
     col_recipientAddress := col_recipientAddress r;
     col_createdAt := col_createdAt r;
     col_selfDestruct := col_selfDestruct r;
     col_maxReads := col_maxReads r;
     col_currentReads := col_currentReads r + 1 |}.

(** [incrementReadCount(id)]: one UPDATE statement; returns [changes > 0]. *)
Definition incrementReadCount (i : string) (db : Table) : bool * Table :=
  (bool_decide (is_Some (db !! i)), alter bump i db).

(** [deleteNote(id)]: one DELETE statement; returns [changes > 0]. *)
Definition deleteNote (i : string) (db : Table) : bool * Table :=
  (bool_decide (is_Some (db !! i)), delete i db).

(** Default argument of [deleteOldNotes]: 30 days in milliseconds. *)
Definition default_maxAgeMs : Z := 30 * 24 * 60 * 60 * 1000.

(** [deleteOldNotes(maxAgeMs)]: [DELETE FROM notes WHERE createdAt < cutoff];
    returns the number of rows removed. *)
Definition deleteOldNotes (now : Z) (maxAgeMs : Z) (db : Table) : Z * Table :=
  let cutoffTime := now - maxAgeMs in
  let kept := filter (fun kv => cutoffTime <= col_createdAt (snd kv)) db in
  (Z.of_nat (size db) - Z.of_nat (size kept), kept).

(** [interface RegisteredKey] *)
Record RegisteredKey := {
  walletAddress : string;
  encryptionPublicKey : string;
  registeredAt : Z
}.

(** [Omit<RegisteredKey, 'registeredAt'>], the argument of [registerKey]. *)
Record NewKey := {
  new_walletAddress : string;
  new_encryptionPublicKey : string
}.

(** A row of the table [registered_keys]; the primary key [walletAddress] is
    the key of the map. *)
Record KeyRow := {
  col_encryptionPublicKey : string;
  col_registeredAt : Z
}.

Abbreviation KeyTable := (gmap string KeyRow).

(** [registerKey(key)]: [INSERT OR REPLACE]; [now] is the value of
    [Date.now()]. *)
Definition registerKey (now : Z) (key : NewKey) (keys : KeyTable)
  : RegisteredKey * KeyTable :=
  let registeredAt := now in
  ({| walletAddress := new_walletAddress key;
      encryptionPublicKey := new_encryptionPublicKey key;
      registeredAt := registeredAt |},
   <[new_walletAddress key :=
       {| col_encryptionPublicKey := new_encryptionPublicKey key;
          col_registeredAt := registeredAt |}]> keys).

(** [getRegisteredKey(walletAddress)]: a SELECT; [key || null]. *)
Definition getRegisteredKey (walletAddress : string) (keys : KeyTable)
  : option RegisteredKey :=
  (fun row => {| walletAddress := walletAddress;
                 encryptionPublicKey := col_encryptionPublicKey row;
                 registeredAt := col_registeredAt row |}) <$> keys !! walletAddress.

End Db.

(** ** JSON values of a request body *)

(** A value of the parsed request body.  [JUndefined] is a field that is
    not there.  [JNumber] carries the number the parser gives, whole or
    not; a double is a rational, and JSON has no NaN.  [JObject] is an array or an object, given by its JSON
    text. *)
Inductive json :=
| JUndefined
| JNull
| JBool (b : bool)
| JNumber (q : Q)
| JString (s : string)
| JObject (source : string).

(** JavaScript truthiness, as used by [!x] and [x ? a : b]. *)
Definition truthy (v : json) : bool :=
  match v with
  | JUndefined | JNull => false
  | JBool b => b
  | JNumber q => negb (Qeq_bool q 0)
  | JString s => negb (String.eqb s "")
  | JObject _ => true
  end.

(** Destructuring with a default: [{ x = d } = body]. *)
Definition with_default (d v : json) : json :=
  match v with JUndefined => d | _ => v end.

(** [currentReads >= maxReads] on a count and a limit. *)
Definition reaches (currentReads : Z) (maxReads : Q) : bool :=
  Qle_bool maxReads (inject_Z currentReads).

(** [maxReads !== null && note.currentReads >= note.maxReads], the test both
    the GET and the increment handler make on a note. *)
Definition reached_maxReads (note : Db.Note) : bool :=
  match Db.maxReads note with
  | Some m => reaches (Db.currentReads note) m
  | None => false
  end.

(** [s.length]: the number of UTF-16 code units of the string.  In UTF-8 a
    character below U+10000 starts with a byte that is not a continuation
    byte and is one unit; a character from U+10000 on starts with a byte
    from 0xF0 on and is two units (a surrogate pair). *)
Definition utf16_units (a : ascii) : Z :=
  let n := Z.of_nat (nat_of_ascii a) in
  if n <? 128 then 1          (* one byte *)
  else if n <? 192 then 0     (* continuation byte *)
  else if n <? 240 then 1     (* first of two or three bytes *)
  else 2.                     (* first of four bytes *)

Fixpoint js_length (s : string) : Z :=
  match s with
  | EmptyString => 0
  | String a s => utf16_units a + js_length s
  end.

(** ** What the handlers call outside the repository

    The handlers hand the fields of a request body, whatever their JSON
    type, to @solana/web3.js, to Node's [Buffer] and to better-sqlite3.
    What these do with a string is fixed below, in the handlers; what they
    do with a value of another type is theirs to say, and is a field
    here. *)
Record Platform := {
  (** [new PublicKey(v)] does not throw. *)
  validPublicKey : json -> bool;
  (** [v.length > n] for an array or object [v], given by its JSON text. *)
  lengthExceeds : string -> Z -> bool;
  (** [Buffer.from(s, 'base64')] on a string: the bytes it decodes to (on a
      string it does not throw). *)
  bufferFromBase64 : string -> list byte;
  (** [Buffer.from(v, 'base64')] on a value that is not a string; [None]
      when it throws. *)
  bufferFrom : json -> option (list byte);
  (** The texts better-sqlite3 and SQLite store in TEXT columns for values
      bound to them when one of the values is not a string (a number is
      converted, an array is spread over the columns); [None] when [run]
      throws (a boolean, a plain object, a NULL in a NOT NULL column). *)
  bindText : list json -> option (list string)
}.

(** [!field] *)
Definition json_missing (f : json) : bool := negb (truthy f).

(** The string a field holds, when it holds one. *)
Definition json_text (f : json) : string :=
  match f with JString s => s | _ => "" end.

Definition is_text (f : json) : bool :=
  match f with JString _ => true | _ => false end.

(** The texts stored for the values bound to the TEXT columns of an INSERT:
    strings are stored as they are. *)
Definition bound (host : Platform) (values : list json) : option (list string) :=
  if forallb is_text values then Some (map json_text values)
  else bindText host values.

(** ** src/app/api/notes/route.ts, POST: create a note *)

Module NotesRoute.

(** The fields the handler takes from the parsed body, by destructuring.
    A body that is a number, a string, a boolean or an array has none of
    them: all are [JUndefined]. *)
Record Body := {
  id : json;
  ciphertext : json;
  nonce : json;
  ephemeralPublicKey : json;
  recipientAddress : json;
  selfDestruct : json;
  maxReads : json
}.

(** What [await request.json()] gives: it throws on a body that is not
    JSON, and destructuring throws on [null]. *)
Inductive Request :=
| Malformed
| Null
| Fields (body : Body).

Inductive Response :=
| Success (noteId : json)               (* 200 { success: true, noteId } *)
| BadRequest (error : string)           (* 400 { error } *)
| ServerError (error : string).         (* 500 { error } *)

Abbreviation missing := json_missing.
Abbreviation text := json_text.

(** [maxReads !== null && (typeof maxReads !== 'number' || maxReads < 1 || maxReads > 1000)] *)
Definition invalid_maxReads (maxReads : json) : bool :=
  match maxReads with
  | JNull => false
  | JNumber q => negb (Qle_bool 1 q) || negb (Qle_bool q 1000)
  | _ => true
  end.

(** The value bound to the [maxReads] column once validation has passed. *)
Definition maxReads_value (maxReads : json) : option Q :=
  match maxReads with
  | JNumber q => Some q
  | _ => None
  end.

(** The five fields that are strings in a body the pages send. *)
Definition text_fields (body : Body) : list json :=
  [id body; ciphertext body; nonce body; ephemeralPublicKey body;
   recipientAddress body].

(** All five are strings. *)
Definition typed (body : Body) : bool := forallb is_text (text_fields body).

Section Handler.

Variable host : Platform.

(** [ciphertext.length > 100000]; a number or a boolean has no [length],
    and [undefined > 100000] is false. *)
Definition too_long (ciphertext : json) : bool :=
  match ciphertext with
  | JString s => 100000 <? js_length s
  | JObject source => lengthExceeds host source 100000
  | _ => false
  end.

Definition POST (now : Z) (request : Request) (db : Db.Table) : Response * Db.Table :=
  match request with
  | Malformed | Null => (ServerError "Failed to create note", db)
  | Fields body =>
      let selfDestruct := with_default (JBool true) (selfDestruct body) in
      let maxReads := with_default JNull (maxReads body) in
      if missing (id body) || missing (ciphertext body) || missing (nonce body)
         || missing (ephemeralPublicKey body) || missing (recipientAddress body)
      then (BadRequest "Missing required fields", db)
      else if negb (validPublicKey host (recipientAddress body))
      then (BadRequest "Invalid Solana address", db)
      else if too_long (ciphertext body)
      then (BadRequest "Message too large", db)
      else if invalid_maxReads maxReads
      then (BadRequest "Invalid maxReads value", db)
      else
        match bound host (text_fields body) with
        | Some [id'; ciphertext'; nonce'; ephemeralPublicKey'; recipientAddress'] =>
            match Db.createNote now
                    {| Db.new_id := id';
                       Db.new_ciphertext := ciphertext';
                       Db.new_nonce := nonce';
                       Db.new_ephemeralPublicKey := ephemeralPublicKey';
                       Db.new_recipientAddress := recipientAddress';
                       Db.new_selfDestruct := truthy selfDestruct;
                       Db.new_maxReads := maxReads_value maxReads |} db with
            | (inr note, db') => (Success (id body), db')
            | (inl _, db') => (ServerError "Failed to create note", db')
            end
        | _ => (ServerError "Failed to create note", db)
        end
  end.

(** A body that passes the four checks of [POST]. *)
Definition acceptable (body : Body) : bool :=
  negb (missing (id body) || missing (ciphertext body) || missing (nonce body)
        || missing (ephemeralPublicKey body) || missing (recipientAddress body))
  && validPublicKey host (recipientAddress body)
  && negb (too_long (ciphertext body))
  && negb (invalid_maxReads (with_default JNull (maxReads body))).

End Handler.

(** The row [POST] inserts for an accepted body whose five fields are
    strings. *)
Definition stored_row (now : Z) (body : Body) : Db.Row :=
  {| Db.col_ciphertext := text (ciphertext body);
     Db.col_nonce := text (nonce body);
     Db.col_ephemeralPublicKey := text (ephemeralPublicKey body);
     Db.col_recipientAddress := text (recipientAddress body);
     Db.col_createdAt := now;
     Db.col_selfDestruct :=
       if truthy (with_default (JBool true) (selfDestruct body)) then 1 else 0;
     Db.col_maxReads := maxReads_value (with_default JNull (maxReads body));
     Db.col_currentReads := 0 |}.

End NotesRoute.

(** ** src/app/api/notes/route.ts, GET and DELETE: fetch and delete one note *)

Module NoteRoute.

(** The JSON object the GET handler answers with: the note without
    [createdAt]. *)
Record View := {
  id : string;
  ciphertext : string;
  nonce : string;
  ephemeralPublicKey : string;
  recipientAddress : string;
  selfDestruct : bool;
  maxReads : option Q;
  currentReads : Z
}.

Definition view_of (note : Db.Note) : View :=
  {| id := Db.id note;
     ciphertext := Db.ciphertext note;
     nonce := Db.nonce note;
     ephemeralPublicKey := Db.ephemeralPublicKey note;
     recipientAddress := Db.recipientAddress note;
     selfDestruct := Db.selfDestruct note;
     maxReads := Db.maxReads note;
     currentReads := Db.currentReads note |}.

Inductive GetResponse :=
| Found (v : View)                       (* 200 *)
| NotFound.                              (* 404 { error: 'Note not found' } *)

Definition GET (id : string) (db : Db.Table) : GetResponse * Db.Table :=
  match Db.getNote id db with
  | None => (NotFound, db)
  | Some note =>
      if reached_maxReads note
      then let '(_, db') := Db.deleteNote id db in (NotFound, db')
      else (Found (view_of note), db)
  end.

Inductive DeleteResponse :=
| NoteDeleted                            (* 200 { success: true, message: 'Note deleted' } *)
| DeleteNotFound.                        (* 404 { error: 'Note not found' } *)

Definition DELETE (id : string) (db : Db.Table) : DeleteResponse * Db.Table :=
  let '(deleted, db') := Db.deleteNote id db in
  if negb deleted then (DeleteNotFound, db') else (NoteDeleted, db').

End NoteRoute.

(** ** src/app/api/notes/[id]/increment/route.ts, POST: record a decrypt *)

Module IncrementRoute.

Inductive Response :=
| Ok (deleted : bool) (currentReads : Z)  (* 200 { success: true, deleted, currentReads } *)
| NotFound.                               (* 404 { error: 'Note not found' } *)

(** [updatedNote?.currentReads || note.currentReads + 1] *)
Definition reported_reads (updatedNote : option Db.Note) (note : Db.Note) : Z :=
  match updatedNote with
  | Some u => if Db.currentReads u =? 0 then Db.currentReads note + 1
              else Db.currentReads u
  | None => Db.currentReads note + 1
  end.

Definition POST (id : string) (db : Db.Table) : Response * Db.Table :=
  match Db.getNote id db with
  | None => (NotFound, db)
  | Some note =>
      let '(_, db1) := Db.incrementReadCount id db in
      let updatedNote := Db.getNote id db1 in
      match updatedNote with
      | Some u =>
          if reached_maxReads u
          then let '(_, db2) := Db.deleteNote id db1 in
               (Ok true (Db.currentReads u), db2)
          else (Ok false (reported_reads updatedNote note), db1)
      | None => (Ok false (reported_reads updatedNote note), db1)
      end
  end.

End IncrementRoute.

(** ** The routes, one request after another *)

(** A request to one of the four handlers, or a run of the age-based purge
    [deleteOldNotes]. *)
Inductive request :=
| Create (now : Z) (request : NotesRoute.Request)
| Fetch (id : string)
| RecordDecrypt (id : string)
| Delete (id : string)
| Purge (now maxAgeMs : Z).

Inductive reply :=
| Created (r : NotesRoute.Response)
| Fetched (r : NoteRoute.GetResponse)
| Recorded (r : IncrementRoute.Response)
| Removed (r : NoteRoute.DeleteResponse)
| Purged (n : Z).

Section Serve.

Variable host : Platform.

Definition serve (req : request) (db : Db.Table) : reply * Db.Table :=
  match req with
  | Create now request =>
      let '(r, db') := NotesRoute.POST host now request db in (Created r, db')
  | Fetch id => let '(r, db') := NoteRoute.GET id db in (Fetched r, db')
  | RecordDecrypt id => let '(r, db') := IncrementRoute.POST id db in (Recorded r, db')
  | Delete id => let '(r, db') := NoteRoute.DELETE id db in (Removed r, db')
  | Purge now maxAgeMs =>
      let '(n, db') := Db.deleteOldNotes now maxAgeMs db in (Purged n, db')
  end.

(** The table after a list of requests, served in order. *)
Definition serve_all (reqs : list request) (db : Db.Table) : Db.Table :=
  fold_left (fun db req => snd (serve req db)) reqs db.

End Serve.

(** The test of the handlers, read on the row. *)
Definition row_reached (reads : Z) (row : Db.Row) : bool :=
  match Db.col_maxReads row with
  | Some m => reaches reads m
  | None => false
  end.


(** The row with [n] more reads. *)
Definition with_reads (n : Z) (row : Db.Row) : Db.Row :=
  {| Db.col_ciphertext := Db.col_ciphertext row;
     Db.col_nonce := Db.col_nonce row;
     Db.col_ephemeralPublicKey := Db.col_ephemeralPublicKey row;
     Db.col_recipientAddress := Db.col_recipientAddress row;
     Db.col_createdAt := Db.col_createdAt row;
     Db.col_selfDestruct := Db.col_selfDestruct row;
     Db.col_maxReads := Db.col_maxReads row;
     Db.col_currentReads := Db.col_currentReads row + n |}.

(** Every stored note with a limit is below it:
    [0 <= currentReads < maxReads]. *)
Definition below_limit (db : Db.Table) : Prop :=
  forall id row m,
    db !! id = Some row -> Db.col_maxReads row = Some m ->
    0 <= Db.col_currentReads row /\ (inject_Z (Db.col_currentReads row) < m)%Q.

(** The read count a reply carries does not exceed the limit of the note it
    is about ([db] is the table the request was served on). *)
Definition reply_within_limit (db : Db.Table) (req : request) (rep : reply) : Prop :=
  match req, rep with
  | Fetch _, Fetched (NoteRoute.Found v) =>
      forall m, NoteRoute.maxReads v = Some m ->
                (inject_Z (NoteRoute.currentReads v) <= m)%Q
  | RecordDecrypt id, Recorded (IncrementRoute.Ok _ reads) =>
      forall row m,
        db !! id = Some row -> Db.col_maxReads row = Some m ->
        (inject_Z reads <= m)%Q
  | _, _ => True
  end.

(** The read count a reply carries is less than one above the limit. *)
Definition reply_below_next (db : Db.Table) (req : request) (rep : reply) : Prop :=
  match req, rep with
  | Fetch _, Fetched (NoteRoute.Found v) =>
      forall m, NoteRoute.maxReads v = Some m ->
                (inject_Z (NoteRoute.currentReads v) < m)%Q
  | RecordDecrypt id, Recorded (IncrementRoute.Ok _ reads) =>
      forall row m,
        db !! id = Some row -> Db.col_maxReads row = Some m ->
        (inject_Z reads < m + 1)%Q
  | _, _ => True
  end.

(** A request that can remove the note [id] without any read being counted:
    the DELETE route on [id], or the age purge. *)
Definition removes (id : string) (req : request) : bool :=
  match req with
  | Delete id' => bool_decide (id' = id)
  | Purge _ _ => true
  | _ => false
  end.

(** ** Concurrent calls of the increment handler

    The handler makes up to four calls of the store, one after the other:
    [getNote] (line 11), [incrementReadCount] (line 21), [getNote] (line 24)
    and [deleteNote] (line 26).  Each is one SQL statement and there is no
    transaction around them, so between any two of them another call of the
    handler, in another process on the same database file, can run its own.
    A call is at one of these points; a schedule, the list of the calls that
    move next, decides in which order the calls pass them.

    Inside one Node process the handler is suspended only at
    [await params]: the four calls of the store are synchronous and run in
    one turn of the event loop ([turn]). *)

Module Concurrent.

Inductive call :=
| Arrived                                  (* the handler has not been entered *)
| Awaiting                                 (* suspended at [await params] *)
| Found (note : Db.Note)                   (* line 11 has read the note *)
| Counted (note : Db.Note)                 (* line 21 has run the UPDATE *)
| Exhausted (updatedNote : Db.Note)        (* line 24 has read the note again
                                              and the test of line 25 holds *)
| Settled (r : IncrementRoute.Response).   (* the response has been produced *)

Definition settled (c : call) : bool :=
  match c with Settled _ => true | _ => false end.

(** The table, the calls in flight, and the responses in the order they
    were produced. *)
Record world := {
  table : Db.Table;
  calls : list call;
  responses : list IncrementRoute.Response
}.

(** Call [i] goes on to the point [c], leaving the table [db]. *)
Definition move (i : nat) (c : call) (db : Db.Table) (w : world) : world :=
  {| table := db; calls := <[i := c]> (calls w); responses := responses w |}.

(** Call [i] answers [r], leaving the table [db]. *)
Definition settle (i : nat) (r : IncrementRoute.Response) (db : Db.Table) (w : world)
  : world :=
  {| table := db; calls := <[i := Settled r]> (calls w);
     responses := responses w ++ [r] |}.

(** Call number [i] of [POST] on [id] runs its next statement. *)
Definition step (id : string) (i : nat) (w : world) : world :=
  match calls w !! i with
  | Some Arrived => move i Awaiting (table w) w
  | Some Awaiting =>
      match Db.getNote id (table w) with
      | None => settle i IncrementRoute.NotFound (table w) w
      | Some note => move i (Found note) (table w) w
      end
  | Some (Found note) =>
      let '(_, db1) := Db.incrementReadCount id (table w) in
      move i (Counted note) db1 w
  | Some (Counted note) =>
      let updatedNote := Db.getNote id (table w) in
      match updatedNote with
      | Some u =>
          if reached_maxReads u
          then move i (Exhausted u) (table w) w
          else settle i (IncrementRoute.Ok false
                           (IncrementRoute.reported_reads updatedNote note))
                 (table w) w
      | None =>
          settle i (IncrementRoute.Ok false
                      (IncrementRoute.reported_reads updatedNote note))
            (table w) w
      end
  | Some (Exhausted u) =>
      let '(_, db2) := Db.deleteNote id (table w) in
      settle i (IncrementRoute.Ok true (Db.currentReads u)) db2 w
  | Some (Settled _) | None => w
  end.

Definition run (id : string) (schedule : list nat) (w : world) : world :=
  fold_left (fun w i => step id i w) schedule w.

(** One turn of the event loop of a single process given to call [i]: a
    call that has not been entered runs up to [await params]; a suspended
    call runs its statements to the response. *)
Definition turn (id : string) (i : nat) (w : world) : world :=
  match calls w !! i with
  | Some Arrived => step id i w
  | _ => Nat.iter 4 (step id i) w
  end.

Definition run_turns (id : string) (schedule : list nat) (w : world) : world :=
  fold_left (fun w i => turn id i w) schedule w.

(** [n] calls launched at once on the table [db]. *)
Definition launch (n : nat) (db : Db.Table) : world :=
  {| table := db; calls := replicate n Arrived; responses := [] |}.

Definition all_settled (w : world) : bool := forallb settled (calls w).

(** A call is between two turns of a single process. *)
Definition between_turns (c : call) : bool :=
  match c with Arrived | Awaiting | Settled _ => true | _ => false end.

(** The responses [deleted: false] with the counts [start + 1], ..., [reads]. *)
Definition counted (start reads : nat) : list IncrementRoute.Response :=
  map (fun k => IncrementRoute.Ok false (Z.of_nat k)) (seq (S start) (reads - start)).

(** How often call [i] gets a turn in a schedule, and how many of its two
    turns a call has taken. *)
Definition turns (i : nat) (schedule : list nat) : nat :=
  length (List.filter (Nat.eqb i) schedule).

Definition turns_taken (c : option call) : nat :=
  match c with
  | Some Arrived | None => 0
  | Some (Settled _) => 2
  | Some _ => 1
  end.

(** Number of settled calls. *)
Definition settled_count (cs : list call) : nat :=
  length (List.filter settled cs).

(** The UPDATE of line 21 has run in this call. *)
Definition updated (c : call) : bool :=
  match c with
  | Counted _ | Exhausted _ | Settled (IncrementRoute.Ok _ _) => true
  | _ => false
  end.

(** Number of calls whose UPDATE has run. *)
Definition updates (cs : list call) : nat := length (List.filter updated cs).

(** An answer says that the note was destroyed. *)
Definition destroyed (r : IncrementRoute.Response) : bool :=
  match r with IncrementRoute.Ok true _ => true | _ => false end.

(** The highest count an answer carries (0 when none carries one). *)
Definition highest_count (rs : list IncrementRoute.Response) : Z :=
  fold_right
    (fun r top => match r with IncrementRoute.Ok _ reads => Z.max reads top | _ => top end)
    0 rs.

(** What the spec says of any run of the calls that has answered them all:
    the count has settled at the limit, neither more nor less, and the note
    was destroyed once. *)
Definition settles_at (limit : Z) (id : string) (w : world) : Prop :=
  table w !! id = None /\
  highest_count (responses w) = limit /\
  length (List.filter destroyed (responses w)) = 1%nat.

(** What holds of every world the calls can reach, turn by turn in one
    process, from a note with [maxReads = limit] and [start] reads: the
    calls that have answered are the reads that were counted, in order,
    until the limit is reached and the note deleted; the calls after that
    find nothing. *)
Definition progress (id : string) (start limit : nat) (w : world) : Prop :=
  forallb between_turns (calls w) = true /\
  settled_count (calls w) = length (responses w) /\
  ((exists row reads,
       table w !! id = Some row /\
       Db.col_maxReads row = Some (inject_Z (Z.of_nat limit)) /\
       Db.col_currentReads row = Z.of_nat reads /\
       (start <= reads < limit)%nat /\
       responses w = counted start reads) \/
   (table w !! id = None /\
    exists late,
      responses w =
        counted start (limit - 1) ++ [IncrementRoute.Ok true (Z.of_nat limit)]
        ++ replicate late IncrementRoute.NotFound)).

(** What holds of every world the calls can reach statement by statement,
    from a note [row] with [maxReads = limit]: every UPDATE that has run is
    in the stored count, and the note is gone only after the count reached
    the limit; a call about to delete has read a count that was stored. *)
Definition no_lost_update (id : string) (row : Db.Row) (limit : Q) (w : world) : Prop :=
  (table w !! id = Some (with_reads (Z.of_nat (updates (calls w))) row) \/
   (table w !! id = None /\
    reaches (Db.col_currentReads row + Z.of_nat (updates (calls w))) limit = true)) /\
  (forall i u,
      calls w !! i = Some (Exhausted u) ->
      reaches (Db.currentReads u) limit = true /\
      Db.currentReads u <= Db.col_currentReads row + Z.of_nat (updates (calls w))).

End Concurrent.

(** ** src/lib/crypto.ts *)

Module Crypto.

(** A [Uint8Array]. *)
Abbreviation bytes := (list byte).

(** [nacl.BoxKeyPair] *)
Record KeyPair := { publicKey : bytes; secretKey : bytes }.

(** tweetnacl and tweetnacl-util, as far as crypto.ts calls them.  The
    libraries are not part of the repository: their functions are the
    fields of this interface.  A function that may throw returns a sum; the
    random generator is a state threaded through the calls that draw from
    it; [box] returns [None] when its result is falsy and [box_open] when
    it is [null]. *)
Record NaCl := {
  rng : Type;
  decodeBase64 : string -> js_error + bytes;
  encodeBase64 : bytes -> string;
  decodeUTF8 : string -> js_error + bytes;
  encodeUTF8 : bytes -> js_error + string;
  randomBytes : nat -> rng -> bytes * rng;
  box_nonceLength : nat;
  box_keyPair : rng -> KeyPair * rng;
  box_keyPair_fromSecretKey : bytes -> js_error + KeyPair;
  box : bytes -> bytes -> bytes -> bytes -> js_error + option bytes;
  box_open : bytes -> bytes -> bytes -> bytes -> js_error + option bytes;
  hash : bytes -> bytes
}.

(** A key pair the library accepts: [fromSecretKey] of its secret half
    gives it back. *)
Definition valid_keypair (L : NaCl) (k : KeyPair) : Prop :=
  box_keyPair_fromSecretKey L (secretKey k) = inr k.

(** The documented contract of the two libraries that the round trip and
    the derivation rest on. *)
Record NaClLaws (L : NaCl) : Prop := {
  base64_roundtrip : forall b, decodeBase64 L (encodeBase64 L b) = inr b;
  utf8_roundtrip : forall s b, decodeUTF8 L s = inr b -> encodeUTF8 L b = inr s;
  randomBytes_length : forall n r, length (fst (randomBytes L n r)) = n;
  keyPair_valid : forall r, valid_keypair L (fst (box_keyPair L r));
  keypair_sizes : forall k,
    valid_keypair L k -> length (publicKey k) = 32%nat /\ length (secretKey k) = 32%nat;
  fromSecretKey_32 : forall sk,
    length sk = 32%nat -> exists k, box_keyPair_fromSecretKey L sk = inr k;
  box_open_box : forall m n a b,
    valid_keypair L a -> valid_keypair L b -> length n = box_nonceLength L ->
    exists c,
      box L m n (publicKey b) (secretKey a) = inr (Some c) /\
      box_open L c n (publicKey a) (secretKey b) = inr (Some m);
  hash_length : forall b, length (hash L b) = 64%nat
}.

(** [s.replace(/c/g, by)] for a pattern that is one literal character. *)
Fixpoint replace_all (c : ascii) (by_ : string) (s : string) : string :=
  match s with
  | EmptyString => EmptyString
  | String a rest =>
      if Ascii.eqb a c then by_ +:+ replace_all c by_ rest
      else String a (replace_all c by_ rest)
  end.

(** Sequencing of calls that may throw. *)
Definition and_then {A B} (e : js_error + A) (k : A -> js_error + B) : js_error + B :=
  match e with
  | inl err => inl err
  | inr v => k v
  end.

Notation "'let!' x ':=' e 'in' k" := (and_then e (fun x => k))
  (at level 10, x name, e at level 100, k at level 200).

(** The object [encryptMessage] returns. *)
Record Payload := {
  ciphertext : string;
  nonce : string;
  ephemeralPublicKey : string
}.

(** The object [deriveEncryptionKeyFromSignature] resolves to. *)
Record EncodedKeyPair := {
  encodedPublicKey : string;      (* publicKey *)
  encodedSecretKey : string       (* secretKey *)
}.

Section WithLibrary.

Variable L : NaCl.

Definition encryptMessage (message recipientPublicKey : string) (r : rng L)
  : (js_error + Payload) * rng L :=
  match decodeBase64 L recipientPublicKey with
  | inl err => (inl err, r)
  | inr recipientPubKeyBytes =>
      if negb (length recipientPubKeyBytes =? 32)%nat
      then (inl (Error "Invalid recipient public key (must be 32 bytes)"), r)
      else
        let '(ephemeralKeypair, r) := box_keyPair L r in
        let '(nonce, r) := randomBytes L (box_nonceLength L) r in
        (let! messageBytes := decodeUTF8 L message in
         let! encrypted :=
           box L messageBytes nonce recipientPubKeyBytes (secretKey ephemeralKeypair) in
         match encrypted with
         | None => inl (Error "Encryption failed")
         | Some encrypted =>
             inr {| ciphertext := encodeBase64 L encrypted;
                    nonce := encodeBase64 L nonce;
                    ephemeralPublicKey := encodeBase64 L (publicKey ephemeralKeypair) |}
         end, r)
  end.

(** The body of the [try] block of [decryptMessage]. *)
Definition decrypt_body (ciphertext nonce ephemeralPublicKey recipientSecretKey : string)
  : js_error + string :=
  let! ciphertextBytes := decodeBase64 L ciphertext in
  let! nonceBytes := decodeBase64 L nonce in
  let! ephemeralPubKeyBytes := decodeBase64 L ephemeralPublicKey in
  let! recipientSecretKeyBytes := decodeBase64 L recipientSecretKey in
  let! decrypted :=
    box_open L ciphertextBytes nonceBytes ephemeralPubKeyBytes recipientSecretKeyBytes in
  match decrypted with
  | None => inl (Error "Decryption failed - invalid key or corrupted data")
  | Some decrypted => encodeUTF8 L decrypted
  end.

Definition decryptMessage (ciphertext nonce ephemeralPublicKey recipientSecretKey : string)
  : js_error + string :=
  try_rethrow
    (decrypt_body ciphertext nonce ephemeralPublicKey recipientSecretKey)
    (fun error => Error ("Decryption failed: " +:+ error_to_string error)).

(** [signMessage] is the wallet's capability: it may reject, and it may
    change the wallet's state [W] (prompts, counters, the device). *)
Definition deriveEncryptionKeyFromSignature {W : Type}
    (signMessage : bytes -> W -> (js_error + bytes) * W)
    (walletAddress : string) (w : W)
  : (js_error + EncodedKeyPair) * W :=
  match decodeUTF8 L ("DarkNote encryption key for " +:+ walletAddress) with
  | inl err => (inl err, w)
  | inr message =>
      let '(signature, w) := signMessage message w in
      (let! signature := signature in
       let seed := take 32 (hash L signature) in
       let! keypair := box_keyPair_fromSecretKey L seed in
       inr {| encodedPublicKey := encodeBase64 L (publicKey keypair);
              encodedSecretKey := encodeBase64 L (secretKey keypair) |}, w)
  end.

(** The key pair as a function of the signature bytes alone: hash, first
    32 bytes, [fromSecretKey], base64. *)
Definition keypair_of_signature (signature : bytes) : js_error + EncodedKeyPair :=
  let! keypair := box_keyPair_fromSecretKey L (take 32 (hash L signature)) in
  inr {| encodedPublicKey := encodeBase64 L (publicKey keypair);
         encodedSecretKey := encodeBase64 L (secretKey keypair) |}.

(** [generateNoteId()]: 16 random bytes in base64, with [+] turned into
    [-], [/] into [_], and [=] dropped. *)
Definition generateNoteId (r : rng L) : string * rng L :=
  let '(bytes, r) := randomBytes L 16 r in
  (replace_all "=" "" (replace_all "/" "_" (replace_all "+" "-" (encodeBase64 L bytes))),
   r).

(** The error [decryptMessage] throws when [cause] was thrown inside its
    [try] block. *)
Definition decryption_failed (cause : js_error) : js_error :=
  Error ("Decryption failed: " +:+ error_to_string cause).

End WithLibrary.

End Crypto.

(** ** A small instance of the library interface

    Not tweetnacl: a stand-in that satisfies the same contract, so that the
    statements made under [NaClLaws] can be run.  Binary strings stand for
    base64, the ASCII range for UTF-8, the secret key is its own public key,
    the shared key is the bytewise sum of the two secrets, and a box is the
    shared key, the nonce and the message in a row. *)

Module Standin.

Import Crypto.

Definition uri_malformed : js_error := JsError "URIError" "URI malformed".

Definition ascii_only (b : bytes) : bool :=
  forallb (fun x => (Byte.to_nat x <? 128)%nat) b.

Definition decodeUTF8 (s : string) : js_error + bytes :=
  if ascii_only (list_byte_of_string s) then inr (list_byte_of_string s)
  else inl uri_malformed.

Definition encodeUTF8 (b : bytes) : js_error + string :=
  if ascii_only b then inr (string_of_list_byte b) else inl uri_malformed.

Definition byte_add (a b : byte) : byte :=
  default x00 (Byte.of_nat ((Byte.to_nat a + Byte.to_nat b) mod 256)).

Definition shared (pk sk : bytes) : bytes := zip_with byte_add pk sk.

Fixpoint bytes_eqb (a b : bytes) : bool :=
  match a, b with
  | [], [] => true
  | x :: a, y :: b => Byte.eqb x y && bytes_eqb a b
  | _, _ => false
  end.

Definition sizes_ok (n pk sk : bytes) : bool :=
  (length n =? 24)%nat && (length pk =? 32)%nat && (length sk =? 32)%nat.

Definition box (m n pk sk : bytes) : js_error + option bytes :=
  if sizes_ok n pk sk then inr (Some (shared pk sk ++ n ++ m))
  else inl (Error "bad size").

Definition box_open (c n pk sk : bytes) : js_error + option bytes :=
  if sizes_ok n pk sk then
    let head := shared pk sk ++ n in
    if bytes_eqb (take (length head) c) head
    then inr (Some (drop (length head) c))
    else inr None
  else inl (Error "bad size").

Definition fromSecretKey (sk : bytes) : js_error + KeyPair :=
  if (length sk =? 32)%nat then inr {| publicKey := sk; secretKey := sk |}
  else inl (Error "bad secret key size").

Definition randomBytes (n : nat) (r : nat) : bytes * nat :=
  (replicate n (default x00 (Byte.of_nat (r mod 256))), S r).

Definition keyPair (r : nat) : KeyPair * nat :=
  let '(sk, r) := randomBytes 32 r in ({| publicKey := sk; secretKey := sk |}, r).

Definition hash (b : bytes) : bytes := take 64 (b ++ replicate 64 x00).

Definition nacl : NaCl :=
  {| rng := nat;
     decodeBase64 := fun s => inr (list_byte_of_string s);
     encodeBase64 := string_of_list_byte;
     Crypto.decodeUTF8 := decodeUTF8;
     Crypto.encodeUTF8 := encodeUTF8;
     Crypto.randomBytes := randomBytes;
     box_nonceLength := 24;
     box_keyPair := keyPair;
     box_keyPair_fromSecretKey := fromSecretKey;
     Crypto.box := box;
     Crypto.box_open := box_open;
     Crypto.hash := hash |}.

(** A wallet that signs by repeating the message and counts its prompts. *)
Definition signer (message : bytes) (prompts : nat) : (js_error + bytes) * nat :=
  (inr (message ++ message), S prompts).

End Standin.

(** ** The stand-in with the key handling of X25519

    tweetnacl derives the key of a box by X25519 (RFC 7748): the scalar
    multiplication clears the top bit of the public key it is given, and
    clamps the secret key (clears its three lowest bits and its top bit, and
    sets the bit below the top).  This is [Standin] with that key handling;
    the public key of a secret key is its clamped form. *)

Module X25519.

Import Crypto.

(** A byte as a function of its number. *)
Definition on_bits (f : N -> N) (x : byte) : byte :=
  default x00 (Byte.of_N (f (Byte.to_N x) mod 256)).

(** The public key as the scalar multiplication reads it: bit 255 cleared. *)
Definition mask (pk : bytes) : bytes :=
  alter (on_bits (fun n => N.land n 127)) 31%nat pk.

(** The secret key as the scalar multiplication reads it. *)
Definition clamp (sk : bytes) : bytes :=
  alter (on_bits (fun n => N.lor (N.land n 127) 64)) 31%nat
    (alter (on_bits (fun n => N.land n 248)) 0%nat sk).

Definition box (m n pk sk : bytes) : js_error + option bytes :=
  Standin.box m n (mask pk) (clamp sk).

Definition box_open (c n pk sk : bytes) : js_error + option bytes :=
  Standin.box_open c n (mask pk) (clamp sk).

(** tweetnacl keeps the secret key as it is given. *)
Definition fromSecretKey (sk : bytes) : js_error + KeyPair :=
  if (length sk =? 32)%nat then inr {| publicKey := clamp sk; secretKey := sk |}
  else inl (Error "bad secret key size").

Definition keyPair (r : nat) : KeyPair * nat :=
  let '(sk, r) := Standin.randomBytes 32 r in
  ({| publicKey := clamp sk; secretKey := sk |}, r).

Definition nacl : NaCl :=
  {| rng := nat;
     decodeBase64 := fun s => inr (list_byte_of_string s);
     encodeBase64 := string_of_list_byte;
     Crypto.decodeUTF8 := Standin.decodeUTF8;
     Crypto.encodeUTF8 := Standin.encodeUTF8;
     Crypto.randomBytes := Standin.randomBytes;
     box_nonceLength := 24;
     box_keyPair := keyPair;
     box_keyPair_fromSecretKey := fromSecretKey;
     Crypto.box := box;
     Crypto.box_open := box_open;
     Crypto.hash := Standin.hash |}.

End X25519.

(** ** Conditions a caller can tell apart *)

(** The error class and message head of the failure [decryptMessage] throws
    when authentication fails: an [Error] whose message starts with
    "Decryption failed". *)
Definition is_decryption_failed (e : js_error) : bool :=
  String.eqb (name e) "Error" && String.prefix "Decryption failed" (message e).

(** Why the [try] block of [decryptMessage] threw [cause]. *)
Inductive failure (L : Crypto.NaCl) (ciphertext nonce ephemeralPublicKey secretKey : string)
  : js_error -> Prop :=
| bad_ciphertext cause :
    Crypto.decodeBase64 L ciphertext = inl cause ->
    failure L ciphertext nonce ephemeralPublicKey secretKey cause
| bad_nonce cause :
    Crypto.decodeBase64 L nonce = inl cause ->
    failure L ciphertext nonce ephemeralPublicKey secretKey cause
| bad_ephemeralPublicKey cause :
    Crypto.decodeBase64 L ephemeralPublicKey = inl cause ->
    failure L ciphertext nonce ephemeralPublicKey secretKey cause
| bad_secretKey cause :
    Crypto.decodeBase64 L secretKey = inl cause ->
    failure L ciphertext nonce ephemeralPublicKey secretKey cause
| bad_length cause c n e s :
    Crypto.decodeBase64 L ciphertext = inr c -> Crypto.decodeBase64 L nonce = inr n ->
    Crypto.decodeBase64 L ephemeralPublicKey = inr e ->
    Crypto.decodeBase64 L secretKey = inr s ->
    Crypto.box_open L c n e s = inl cause ->
    failure L ciphertext nonce ephemeralPublicKey secretKey cause
| not_authentic c n e s :
    Crypto.decodeBase64 L ciphertext = inr c -> Crypto.decodeBase64 L nonce = inr n ->
    Crypto.decodeBase64 L ephemeralPublicKey = inr e ->
    Crypto.decodeBase64 L secretKey = inr s ->
    Crypto.box_open L c n e s = inr None ->
    failure L ciphertext nonce ephemeralPublicKey secretKey
      (Error "Decryption failed - invalid key or corrupted data")
| not_utf8 cause c n e s opened :
    Crypto.decodeBase64 L ciphertext = inr c -> Crypto.decodeBase64 L nonce = inr n ->
    Crypto.decodeBase64 L ephemeralPublicKey = inr e ->
    Crypto.decodeBase64 L secretKey = inr s ->
    Crypto.box_open L c n e s = inr (Some opened) ->
    Crypto.encodeUTF8 L opened = inl cause ->
    failure L ciphertext nonce ephemeralPublicKey secretKey cause.

(** The plaintext [text] is the UTF-8 reading of the bytes the box opened to. *)
Definition opened_to (L : Crypto.NaCl) (ciphertext nonce ephemeralPublicKey secretKey text : string)
  : Prop :=
  exists c n e s opened,
    Crypto.decodeBase64 L ciphertext = inr c /\ Crypto.decodeBase64 L nonce = inr n /\
    Crypto.decodeBase64 L ephemeralPublicKey = inr e /\
    Crypto.decodeBase64 L secretKey = inr s /\
    Crypto.box_open L c n e s = inr (Some opened) /\
    Crypto.encodeUTF8 L opened = inr text.

(** What the spec's error taxonomy asks of [decrypt]: when the box opens to
    bytes that are not UTF-8, the error thrown is not the one a failed
    authentication gives. *)
Definition invalid_encoding_is_distinct (L : Crypto.NaCl) : Prop :=
  forall ciphertext nonce ephemeralPublicKey secretKey c n e s opened cause err,
    Crypto.decodeBase64 L ciphertext = inr c -> Crypto.decodeBase64 L nonce = inr n ->
    Crypto.decodeBase64 L ephemeralPublicKey = inr e ->
    Crypto.decodeBase64 L secretKey = inr s ->
    Crypto.box_open L c n e s = inr (Some opened) ->
    Crypto.encodeUTF8 L opened = inl cause ->
    Crypto.decryptMessage L ciphertext nonce ephemeralPublicKey secretKey = inl err ->
    is_decryption_failed err = false.

(** ** Another key, a flipped bit *)

(** Bit [i] of a byte string flipped: bit [i mod 8], counted from the
    lowest, of byte [i / 8]. *)
Definition flip_bit (i : nat) (b : Crypto.bytes) : Crypto.bytes :=
  alter (X25519.on_bits (fun n => N.lxor n (2 ^ N.of_nat (i mod 8)))) (i / 8)%nat b.









(** ** Concrete inputs *)

Module Sample.

(** A platform on which every address is valid and only strings are
    handled. *)
Definition host : Platform :=
  {| validPublicKey := fun _ => true;
     lengthExceeds := fun _ _ => false;
     bufferFromBase64 := list_byte_of_string;
     bufferFrom := fun _ => None;
     bindText := fun _ => None |}.

Definition now : Z := 1700000000000.

Definition body (maxReads : json) : NotesRoute.Body :=
  {| NotesRoute.id := JString "q0aZ3vT1mXo";
     NotesRoute.ciphertext := JString "3q2+7w==";
     NotesRoute.nonce := JString "AAECAwQF";
     NotesRoute.ephemeralPublicKey := JString "BgcICQoL";
     NotesRoute.recipientAddress :=
       JString "7xKXtg2CW87d97TXJSDpbD5jBkheTqA83TZRuJosgAsU";
     NotesRoute.selfDestruct := JUndefined;
     NotesRoute.maxReads := maxReads |}.

Definition noteId : string := "q0aZ3vT1mXo".

(** The table after the note has been created with the given limit. *)
Definition created (maxReads : json) : Db.Table :=
  snd (NotesRoute.POST host now (NotesRoute.Fields (body maxReads)) ∅).

(** The calls move in lockstep: all enter, then all run line 11, then all
    line 21, then all line 24, then all line 26. *)
Definition lockstep (n : nat) : list nat :=
  seq 0 n ++ seq 0 n ++ seq 0 n ++ seq 0 n ++ seq 0 n.

(** All the calls enter the handler, then resume last-in first-out. *)
Definition schedule (n : nat) : list nat := seq 0 n ++ rev (seq 0 n).

Definition secret : Crypto.bytes := replicate 32 x01.
Definition keys : Crypto.KeyPair :=
  {| Crypto.publicKey := secret; Crypto.secretKey := secret |}.
Definition ephemeral : Crypto.bytes := replicate 32 x02.
Definition nonce : Crypto.bytes := replicate 24 x03.

(** A box, sealed to [secret], of one byte that is not UTF-8. *)
Definition sealed : Crypto.bytes := Standin.shared ephemeral secret ++ nonce ++ [xff].

Definition wire (b : Crypto.bytes) : string := Crypto.encodeBase64 Standin.nacl b.


(** Another secret key that X25519 clamps to the same one. *)
Definition other : Crypto.KeyPair :=
  {| Crypto.publicKey := X25519.clamp secret; Crypto.secretKey := flip_bit 0 secret |}.

End Sample.

(** ** src/app/api/keys/register/route.ts, POST: register an encryption key *)

Module RegisterRoute.

(** The two fields the handler takes from the parsed body. *)
Record Body := {
  walletAddress : json;
  encryptionPublicKey : json
}.

(** What [await request.json()] gives, as for the create handler. *)
Inductive Request :=
| Malformed
| Null
| Fields (body : Body).

Inductive Response :=
| Success (walletAddress : json) (registeredAt : Z)
                                        (* 200 { success: true, walletAddress, registeredAt } *)
| BadRequest (error : string)           (* 400 { error } *)
| ServerError (error : string).         (* 500 { error } *)

(** Both fields are strings. *)
Definition typed (body : Body) : bool :=
  is_text (walletAddress body) && is_text (encryptionPublicKey body).

Section Handler.

Variable host : Platform.

(** [Buffer.from(encryptionPublicKey, 'base64')]; [None] when it throws. *)
Definition decoded (encryptionPublicKey : json) : option (list byte) :=
  match encryptionPublicKey with
  | JString s => Some (bufferFromBase64 host s)
  | v => bufferFrom host v
  end.

Definition POST (now : Z) (request : Request) (keys : Db.KeyTable)
  : Response * Db.KeyTable :=
  match request with
  | Malformed | Null => (ServerError "Failed to register key", keys)
  | Fields body =>
      if NotesRoute.missing (walletAddress body)
         || NotesRoute.missing (encryptionPublicKey body)
      then (BadRequest "Missing required fields", keys)
      else if negb (validPublicKey host (walletAddress body))
      then (BadRequest "Invalid Solana address", keys)
      else
        match decoded (encryptionPublicKey body) with
        | None => (BadRequest "Invalid encryption public key", keys)
        | Some decoded =>
            if negb (length decoded =? 32)%nat
            then (BadRequest "Invalid encryption public key", keys)
            else
              match bound host [walletAddress body; encryptionPublicKey body] with
              | Some [walletAddress'; encryptionPublicKey'] =>
                  let '(registered, keys') :=
                    Db.registerKey now
                      {| Db.new_walletAddress := walletAddress';
                         Db.new_encryptionPublicKey := encryptionPublicKey' |}
                      keys in
                  (Success (walletAddress body) (Db.registeredAt registered), keys')
              | _ => (ServerError "Failed to register key", keys)
              end
        end
  end.

End Handler.

End RegisterRoute.

(** ** src/app/api/keys/[address]/route.ts, GET: look an encryption key up *)

Module KeyRoute.

Inductive Response :=
| Found (walletAddress encryptionPublicKey : string) (registeredAt : Z)   (* 200 *)
| BadRequest (error : string)                                            (* 400 *)
| NotFound (error : string).                                             (* 404 *)

Section Handler.

Variable host : Platform.

(** [address] is the address in the path, a string. *)
Definition GET (address : string) (keys : Db.KeyTable) : Response :=
  if negb (validPublicKey host (JString address))
  then BadRequest "Invalid Solana address"
  else
    match Db.getRegisteredKey address keys with
    | None => NotFound "No encryption key registered for this address"
    | Some key =>
        Found (Db.walletAddress key) (Db.encryptionPublicKey key) (Db.registeredAt key)
    end.

End Handler.

End KeyRoute.

(** ** Predicates used to state what the store does *)

(** A row is older than the cutoff of [deleteOldNotes], for the clock and
    age given. *)
Definition expired (now maxAgeMs : Z) (row : Db.Row) : Prop :=
  Db.col_createdAt row < now - maxAgeMs.

#[global] Instance expired_dec now maxAgeMs row : Decision (expired now maxAgeMs row) :=
  decide (Db.col_createdAt row < now - maxAgeMs).

(** The row [createNote] inserts for [note] at the time [now]. *)
Definition row_of_new (now : Z) (note : Db.NewNote) : Db.Row :=
  {| Db.col_ciphertext := Db.new_ciphertext note;
     Db.col_nonce := Db.new_nonce note;
     Db.col_ephemeralPublicKey := Db.new_ephemeralPublicKey note;
     Db.col_recipientAddress := Db.new_recipientAddress note;
     Db.col_createdAt := now;
     Db.col_selfDestruct := if Db.new_selfDestruct note then 1 else 0;
     Db.col_maxReads := Db.new_maxReads note;
     Db.col_currentReads := 0 |}.

(** [n] calls of [incrementReadCount(id)] in a row. *)
Definition increment_times (n : nat) (id : string) (db : Db.Table) : Db.Table :=
  Nat.iter n (fun db => snd (Db.incrementReadCount id db)) db.

(** The key and the row of the INSERT of the create handler: the five
    texts the driver stores, the time, and the three columns the handler
    sets itself; [None] when the driver throws. *)
Definition insertion (host : Platform) (now : Z) (body : NotesRoute.Body)
  : option (string * Db.Row) :=
  match bound host (NotesRoute.text_fields body) with
  | Some [id; ciphertext; nonce; ephemeralPublicKey; recipientAddress] =>
      Some (id,
            {| Db.col_ciphertext := ciphertext;
               Db.col_nonce := nonce;
               Db.col_ephemeralPublicKey := ephemeralPublicKey;
               Db.col_recipientAddress := recipientAddress;
               Db.col_createdAt := now;
               Db.col_selfDestruct :=
                 if truthy (with_default (JBool true) (NotesRoute.selfDestruct body))
                 then 1 else 0;
               Db.col_maxReads :=
                 NotesRoute.maxReads_value
                   (with_default JNull (NotesRoute.maxReads body));
               Db.col_currentReads := 0 |})
  | _ => None
  end.

(** The wallet and the key the driver stores for a register request;
    [None] when it throws. *)
Definition registration (host : Platform) (body : RegisterRoute.Body)
  : option (string * string) :=
  match bound host [RegisterRoute.walletAddress body;
                    RegisterRoute.encryptionPublicKey body] with
  | Some [walletAddress; encryptionPublicKey] => Some (walletAddress, encryptionPublicKey)
  | _ => None
  end.

(** The body with another [maxReads] field. *)
Definition with_maxReads (v : json) (body : NotesRoute.Body) : NotesRoute.Body :=
  {| NotesRoute.id := NotesRoute.id body;
     NotesRoute.ciphertext := NotesRoute.ciphertext body;
     NotesRoute.nonce := NotesRoute.nonce body;
     NotesRoute.ephemeralPublicKey := NotesRoute.ephemeralPublicKey body;
     NotesRoute.recipientAddress := NotesRoute.recipientAddress body;
     NotesRoute.selfDestruct := NotesRoute.selfDestruct body;
     NotesRoute.maxReads := v |}.

(** The [maxReads] fields the create handler lets through: none, [null], or
    a number from 1 to 1000, whole or not. *)
Definition allowed_maxReads (v : json) : Prop :=
  match v with
  | JUndefined | JNull => True
  | JNumber q => (1 <= q <= 1000)%Q
  | _ => False
  end.

(** The key table after a list of register requests, each with its clock. *)
Definition register_all (host : Platform)
    (reqs : list (Z * RegisterRoute.Request)) (keys : Db.KeyTable) : Db.KeyTable :=
  fold_left
    (fun keys req => snd (RegisterRoute.POST host (fst req) (snd req) keys))
    reqs keys.

(** The fields of a register request, when it has any, are strings. *)
Definition typed_request (request : RegisterRoute.Request) : bool :=
  match request with
  | RegisterRoute.Fields body => RegisterRoute.typed body
  | _ => true
  end.

(** Every registered wallet is an address the routes accept and its key
    decodes to 32 bytes. *)
Definition well_keyed (host : Platform) (keys : Db.KeyTable) : Prop :=
  forall wallet row,
    keys !! wallet = Some row ->
    validPublicKey host (JString wallet) = true /\
    length (bufferFromBase64 host (Db.col_encryptionPublicKey row)) = 32%nat.

(** ** The pages: the browser side of the routes

    The server is the two tables.  A [fetch] of a page reaches its handler
    and is answered, or is lost before the handler runs, or is handled with
    the answer lost; in the last two cases [fetch] throws. *)

Record server := { notes : Db.Table; keys : Db.KeyTable }.

Inductive delivery := Answered | Lost | Unanswered.

Definition fetch {R : Type} (d : delivery) (handler : server -> R * server) (srv : server)
  : option R * server :=
  match d with
  | Answered => let '(r, srv') := handler srv in (Some r, srv')
  | Lost => (None, srv)
  | Unanswered => (None, snd (handler srv))
  end.

(** The handlers as functions of the server. *)
Definition on_notes {R : Type} (h : Db.Table -> R * Db.Table) (srv : server) : R * server :=
  let '(r, db) := h (notes srv) in (r, {| notes := db; keys := keys srv |}).

Definition on_keys {R : Type} (h : Db.KeyTable -> R * Db.KeyTable) (srv : server)
  : R * server :=
  let '(r, ks) := h (keys srv) in (r, {| notes := notes srv; keys := ks |}).

(** [err.message] *)
Definition error_message (err : js_error) : string := message err.

(** [data.error || fallback] *)
Definition error_or (fallback error : string) : string :=
  if String.eqb error "" then fallback else error.

(** *** src/app/keys/page.tsx: derive the key and register it *)

Module KeysPage.

Record State := {
  encryptionPublicKey : string;
  loading : bool;
  registering : bool;
  error : string;
  registered : bool
}.

Definition initial : State :=
  {| encryptionPublicKey := ""; loading := false; registering := false;
     error := ""; registered := false |}.

Section Page.

Variable L : Crypto.NaCl.
Variable host : Platform.
Variable W : Type.

(** [publicKey] is [publicKey.toBase58()] of the connected wallet, [None]
    without a wallet; [now] is the server's clock when the request is
    handled. *)
Definition deriveKey (d : delivery) (now : Z)
    (publicKey : option string)
    (signMessage : option (Crypto.bytes -> W -> (js_error + Crypto.bytes) * W))
    (st : State) (w : W) (srv : server) : State * W * server :=
  match publicKey, signMessage with
  | Some publicKey, Some signMessage =>
      let '(derived, w) :=
        Crypto.deriveEncryptionKeyFromSignature L signMessage publicKey w in
      match derived with
      | inl _ =>
          ({| encryptionPublicKey := encryptionPublicKey st;
              loading := false; registering := false;
              error := "Failed to derive encryption key. Please try again.";
              registered := registered st |}, w, srv)
      | inr derived =>
          let encPubKey := Crypto.encodedPublicKey derived in
          let '(response, srv) :=
            fetch d
              (on_keys (RegisterRoute.POST host now
                          (RegisterRoute.Fields
                             {| RegisterRoute.walletAddress := JString publicKey;
                                RegisterRoute.encryptionPublicKey :=
                                  JString encPubKey |})))
              srv in
          match response with
          | Some (RegisterRoute.Success _ _) =>
              ({| encryptionPublicKey := encPubKey; loading := false;
                  registering := false; error := ""; registered := true |}, w, srv)
          | Some (RegisterRoute.BadRequest _)
          | Some (RegisterRoute.ServerError _) =>
              ({| encryptionPublicKey := encPubKey; loading := false;
                  registering := false; error := ""; registered := registered st |},
               w, srv)
          | None =>
              ({| encryptionPublicKey := encPubKey; loading := false;
                  registering := false;
                  error := "Failed to derive encryption key. Please try again.";
                  registered := registered st |}, w, srv)
          end
      end
  | _, _ => (st, w, srv)
  end.

End Page.

End KeysPage.

(** *** src/app/page.tsx: write a note and send it *)

Module SendPage.

Record State := {
  message : string;
  recipientAddress : string;
  loading : bool;
  noteUrl : string;
  error : string;
  selfDestruct : bool;
  maxReads : option Q
}.

(** The state with the error shown and the spinner off, after a request
    went wrong; the fields the handler does not set stay. *)
Definition failed (e : string) (st : State) : State :=
  {| message := message st; recipientAddress := recipientAddress st;
     loading := false; noteUrl := ""; error := e;
     selfDestruct := selfDestruct st; maxReads := maxReads st |}.

(** The state when a check fails before anything is sent. *)
Definition refused (e : string) (st : State) : State :=
  {| message := message st; recipientAddress := recipientAddress st;
     loading := loading st; noteUrl := ""; error := e;
     selfDestruct := selfDestruct st; maxReads := maxReads st |}.

(** The state with the link shown and the form emptied. *)
Definition sent (url : string) (st : State) : State :=
  {| message := ""; recipientAddress := "";
     loading := false; noteUrl := url; error := "";
     selfDestruct := selfDestruct st; maxReads := maxReads st |}.

Section Page.

Variable L : Crypto.NaCl.
Variable host : Platform.

(** [!s.trim()] *)
Variable blank : string -> bool.

(** [window.location.origin], and the message of the error [fetch] throws. *)
Variable origin : string.
Variable networkError : string.

(** The body [JSON.stringify] sends to the create handler. *)
Definition request_body (noteId : string) (encrypted : Crypto.Payload) (st : State)
  : NotesRoute.Body :=
  {| NotesRoute.id := JString noteId;
     NotesRoute.ciphertext := JString (Crypto.ciphertext encrypted);
     NotesRoute.nonce := JString (Crypto.nonce encrypted);
     NotesRoute.ephemeralPublicKey := JString (Crypto.ephemeralPublicKey encrypted);
     NotesRoute.recipientAddress := JString (recipientAddress st);
     NotesRoute.selfDestruct := JBool (selfDestruct st);
     NotesRoute.maxReads :=
       match maxReads st with Some z => JNumber z | None => JNull end |}.

Definition handleCreateNote (d_key d_create : delivery) (now : Z)
    (st : State) (r : Crypto.rng L) (srv : server)
  : State * Crypto.rng L * server :=
  if blank (message st) then (refused "Please enter a message" st, r, srv)
  else if blank (recipientAddress st)
  then (refused "Please enter a recipient address" st, r, srv)
  else if negb (validPublicKey host (JString (recipientAddress st)))
  then (refused "Invalid Solana address" st, r, srv)
  else
    let '(keyResponse, srv) :=
      fetch d_key
        (fun srv => (KeyRoute.GET host (recipientAddress st) (keys srv), srv))
        srv in
    match keyResponse with
    | None => (failed "Failed to look up recipient encryption key" st, r, srv)
    | Some (KeyRoute.Found _ x25519PublicKey _) =>
        let '(encrypted, r) := Crypto.encryptMessage L (message st) x25519PublicKey r in
        match encrypted with
        | inl err => (failed (error_message err) st, r, srv)
        | inr encrypted =>
            let '(noteId, r) := Crypto.generateNoteId L r in
            let '(response, srv) :=
              fetch d_create
                (on_notes (NotesRoute.POST host now
                             (NotesRoute.Fields (request_body noteId encrypted st))))
                srv in
            match response with
            | None => (failed networkError st, r, srv)
            | Some (NotesRoute.Success _) =>
                (sent (origin +:+ "/note/" +:+ noteId) st, r, srv)
            | Some (NotesRoute.BadRequest error)
            | Some (NotesRoute.ServerError error) =>
                (failed (error_or "Failed to create note" error) st, r, srv)
            end
        end
    | Some _ =>
        (failed ("Recipient hasn't registered their encryption key yet. "
                 +:+ "Ask them to visit " +:+ origin +:+ "/keys to register.") st,
         r, srv)
    end.

End Page.

End SendPage.

(** *** The note page (in src, the second part of
    src/app/api/keys/register/route.ts): fetch the note, decrypt it, report
    the read *)

Module NotePage.

Record State := {
  note : option NoteRoute.View;
  decryptedMessage : string;
  loading : bool;
  decrypting : bool;
  error : string
}.

Definition initial : State :=
  {| note := None; decryptedMessage := ""; loading := true; decrypting := false;
     error := "" |}.

(** [{ ...note, currentReads }] *)
Definition with_currentReads (currentReads : Z) (v : NoteRoute.View) : NoteRoute.View :=
  {| NoteRoute.id := NoteRoute.id v;
     NoteRoute.ciphertext := NoteRoute.ciphertext v;
     NoteRoute.nonce := NoteRoute.nonce v;
     NoteRoute.ephemeralPublicKey := NoteRoute.ephemeralPublicKey v;
     NoteRoute.recipientAddress := NoteRoute.recipientAddress v;
     NoteRoute.selfDestruct := NoteRoute.selfDestruct v;
     NoteRoute.maxReads := NoteRoute.maxReads v;
     NoteRoute.currentReads := currentReads |}.

(** [id] is [resolvedParams.id], the id in the address of the page. *)
Definition fetchNote (d : delivery) (id : string) (st : State) (srv : server)
  : State * server :=
  let '(response, srv) := fetch d (on_notes (NoteRoute.GET id)) srv in
  match response with
  | Some (NoteRoute.Found data) =>
      ({| note := Some data; decryptedMessage := decryptedMessage st;
          loading := false; decrypting := decrypting st; error := error st |}, srv)
  | Some NoteRoute.NotFound =>
      ({| note := note st; decryptedMessage := decryptedMessage st;
          loading := false; decrypting := decrypting st;
          error := "Note not found. It may have already been destroyed." |}, srv)
  | None =>
      ({| note := note st; decryptedMessage := decryptedMessage st;
          loading := false; decrypting := decrypting st;
          error := "Failed to load note" |}, srv)
  end.

Section Page.

Variable L : Crypto.NaCl.
Variable W : Type.

(** [note.selfDestruct && note.maxReads === null] *)
Definition burns_on_read (v : NoteRoute.View) : bool :=
  NoteRoute.selfDestruct v && bool_decide (NoteRoute.maxReads v = None).

Definition handleDecrypt (d_increment d_delete : delivery) (id : string)
    (publicKey : option string)
    (signMessage : option (Crypto.bytes -> W -> (js_error + Crypto.bytes) * W))
    (st : State) (w : W) (srv : server) : State * W * server :=
  match note st, publicKey, signMessage with
  | Some note, Some publicKey, Some signMessage =>
      if negb (String.eqb publicKey (NoteRoute.recipientAddress note))
      then
        ({| NotePage.note := Some note; decryptedMessage := decryptedMessage st;
            loading := loading st; decrypting := decrypting st;
            error := "This note is not for your wallet. "
                     +:+ "Please connect the correct wallet." |}, w, srv)
      else
        let '(derived, w) :=
          Crypto.deriveEncryptionKeyFromSignature L signMessage publicKey w in
        match
          Crypto.and_then derived (fun derived =>
            Crypto.decryptMessage L (NoteRoute.ciphertext note) (NoteRoute.nonce note)
              (NoteRoute.ephemeralPublicKey note) (Crypto.encodedSecretKey derived))
        with
        | inl _ =>
            ({| NotePage.note := Some note; decryptedMessage := decryptedMessage st;
                loading := loading st; decrypting := false;
                error := "Failed to decrypt message. You may not be the intended "
                         +:+ "recipient or the message may be corrupted." |}, w, srv)
        | inr decrypted =>
            let '(incrementResponse, srv) :=
              fetch d_increment (on_notes (IncrementRoute.POST id)) srv in
            let note' :=
              match incrementResponse with
              | Some (IncrementRoute.Ok _ currentReads) =>
                  with_currentReads currentReads note
              | _ => note
              end in
            let srv :=
              if burns_on_read note
              then snd (fetch d_delete (on_notes (NoteRoute.DELETE id)) srv)
              else srv in
            ({| NotePage.note := Some note'; decryptedMessage := decrypted;
                loading := loading st; decrypting := false; error := "" |}, w, srv)
        end
  | _, _, _ => (st, w, srv)
  end.

End Page.

End NotePage.

(** The characters of a string. *)
Definition chars (s : string) : list ascii := list_ascii_of_string s.

(** [fromSecretKey] keeps the secret key it is given (tweetnacl copies it
    into the pair). *)
Definition keeps_secret (L : Crypto.NaCl) : Prop :=
  forall sk k, Crypto.box_keyPair_fromSecretKey L sk = inr k -> Crypto.secretKey k = sk.

(** How [encryptMessage] came to return [payload], leaving the generator in
    the state [r']: the key decoded to 32 bytes, the message to bytes, and
    the payload holds the box of the message under the key pair and the
    nonce drawn from [r], in that order. *)
Definition sealed_from (L : Crypto.NaCl) (message recipientPublicKey : string)
    (r r' : Crypto.rng L) (payload : Crypto.Payload) : Prop :=
  exists keyBytes messageBytes ephemeral r1 nonceBytes encrypted,
    Crypto.decodeBase64 L recipientPublicKey = inr keyBytes /\
    length keyBytes = 32%nat /\
    Crypto.decodeUTF8 L message = inr messageBytes /\
    Crypto.box_keyPair L r = (ephemeral, r1) /\
    Crypto.randomBytes L (Crypto.box_nonceLength L) r1 = (nonceBytes, r') /\
    Crypto.box L messageBytes nonceBytes keyBytes (Crypto.secretKey ephemeral)
      = inr (Some encrypted) /\
    payload = {| Crypto.ciphertext := Crypto.encodeBase64 L encrypted;
                 Crypto.nonce := Crypto.encodeBase64 L nonceBytes;
                 Crypto.ephemeralPublicKey :=
                   Crypto.encodeBase64 L (Crypto.publicKey ephemeral) |}.

(** The key was refused before any randomness was drawn: it is not base64,
    or not 32 bytes long. *)
Definition key_refused (L : Crypto.NaCl) (recipientPublicKey : string) (err : js_error)
  : Prop :=
  Crypto.decodeBase64 L recipientPublicKey = inl err \/
  exists keyBytes,
    Crypto.decodeBase64 L recipientPublicKey = inr keyBytes /\
    length keyBytes <> 32%nat /\
    err = Error "Invalid recipient public key (must be 32 bytes)".

(** ** A concrete exchange: register, send, read *)

Module Exchange.

Definition address : string := "7xKX".

Definition challenge : Crypto.bytes :=
  list_byte_of_string "DarkNote encryption key for 7xKX".

Definition signature : Crypto.bytes := challenge ++ challenge.

Definition blank (s : string) : bool := String.eqb s "".

Definition origin : string := "https://darknote.example".

Definition networkError : string := "Failed to fetch".

Definition empty : server := {| notes := ∅; keys := ∅ |}.

Definition registration : KeysPage.State * nat * server :=
  KeysPage.deriveKey Standin.nacl Sample.host nat
    Answered Sample.now (Some address) (Some Standin.signer) KeysPage.initial 0%nat empty.

Definition form (selfDestruct : bool) (maxReads : option Q) : SendPage.State :=
  {| SendPage.message := "burn after reading";
     SendPage.recipientAddress := address;
     SendPage.loading := false;
     SendPage.noteUrl := "";
     SendPage.error := "";
     SendPage.selfDestruct := selfDestruct;
     SendPage.maxReads := maxReads |}.

Definition sending (selfDestruct : bool) (maxReads : option Q)
  : SendPage.State * nat * server :=
  SendPage.handleCreateNote Standin.nacl Sample.host blank origin networkError
    Answered Answered (Sample.now + 1000) (form selfDestruct maxReads) 3%nat
    (snd registration).

(** The id of the note: 16 equal bytes, drawn after the key pair and the
    nonce. *)
Definition noteId : string := fst (Crypto.generateNoteId Standin.nacl 5%nat).

Definition loading (selfDestruct : bool) (maxReads : option Q) : NotePage.State * server :=
  NotePage.fetchNote Answered noteId NotePage.initial (snd (sending selfDestruct maxReads)).

Definition derived : Crypto.EncodedKeyPair :=
  {| Crypto.encodedPublicKey := string_of_list_byte challenge;
     Crypto.encodedSecretKey := string_of_list_byte challenge |}.

Definition view (selfDestruct : bool) (maxReads : option Q) : NoteRoute.View :=
  NoteRoute.view_of
    (Db.note_of_row noteId
       (NotesRoute.stored_row (Sample.now + 1000)
          {| NotesRoute.id := JString noteId;
             NotesRoute.ciphertext :=
               JString (string_of_list_byte
                       (Standin.shared challenge (replicate 32 x03)
                        ++ replicate 24 x04
                        ++ list_byte_of_string "burn after reading"));
             NotesRoute.nonce := JString (string_of_list_byte (replicate 24 x04));
             NotesRoute.ephemeralPublicKey :=
               JString (string_of_list_byte (replicate 32 x03));
             NotesRoute.recipientAddress := JString address;
             NotesRoute.selfDestruct := JBool selfDestruct;
             NotesRoute.maxReads :=
               match maxReads with Some z => JNumber z | None => JNull end |})).

End Exchange.

(** A platform that follows [new PublicKey] and the driver on the number 5:
    the constructor accepts the number, the driver stores it as the text
    "5", and the text "5" is not an address. *)
Definition numeric_host : Platform :=
  {| validPublicKey := fun v =>
       match v with
       | JNumber q => Qeq_bool q 5
       | JString s => negb (String.eqb s "5")
       | _ => false
       end;
     lengthExceeds := fun _ _ => false;
     bufferFromBase64 := list_byte_of_string;
     bufferFrom := fun _ => None;
     bindText := fun values =>
       match values with
       | [JNumber q; JString key] => if Qeq_bool q 5 then Some ["5"; key] else None
       | _ => None
       end |}.

(** ** Counts and limits *)

Lemma reaches_spec reads m : reaches reads m = true <-> (m <= inject_Z reads)%Q.
Proof. apply Qle_bool_iff. Qed.

Lemma reaches_false reads m : reaches reads m = false -> (inject_Z reads < m)%Q.
Proof.
  intros H. apply Qnot_le_lt. intros Hle. apply reaches_spec in Hle. congruence.
Qed.

(** On a whole limit the test is the test on integers. *)
Lemma reaches_whole reads k : reaches reads (inject_Z k) = (k <=? reads).
Proof. unfold reaches, Qle_bool. cbn. by rewrite !Z.mul_1_r. Qed.

Lemma inject_Z_succ reads : inject_Z (reads + 1) = (inject_Z reads + 1)%Q.
Proof. apply inject_Z_plus. Qed.

(** ** Facts about the store *)

Lemma getNote_None id (db : Db.Table) :
  db !! id = None -> Db.getNote id db = None.
Proof. intros H. unfold Db.getNote. by rewrite H. Qed.

Lemma getNote_Some id (db : Db.Table) row :
  db !! id = Some row -> Db.getNote id db = Some (Db.note_of_row id row).
Proof. intros H. unfold Db.getNote. by rewrite H. Qed.

Lemma increment_lookup id (db : Db.Table) row :
  db !! id = Some row ->
  snd (Db.incrementReadCount id db) !! id = Some (Db.bump row).
Proof. intros H. cbn. rewrite lookup_alter_eq. by rewrite H. Qed.

Lemma increment_insert id (db : Db.Table) row :
  db !! id = Some row ->
  snd (Db.incrementReadCount id db) = <[id := Db.bump row]> db.
Proof.
  intros H. cbn. apply map_eq. intros j.
  destruct (decide (id = j)) as [->|Hne].
  - rewrite lookup_alter_eq, lookup_insert_eq. by rewrite H.
  - by rewrite lookup_alter_ne, lookup_insert_ne.
Qed.

Lemma delete_after_increment id (db : Db.Table) :
  snd (Db.deleteNote id (snd (Db.incrementReadCount id db))) = delete id db.
Proof.
  cbn. apply map_eq. intros j.
  destruct (decide (id = j)) as [->|Hne].
  - by rewrite !lookup_delete_eq.
  - by rewrite !lookup_delete_ne, lookup_alter_ne.
Qed.

Lemma reached_note_of_row id row :
  reached_maxReads (Db.note_of_row id row) = row_reached (Db.col_currentReads row) row.
Proof. reflexivity. Qed.

(** What the increment handler does on a stored row, in one equation. *)
Lemma increment_POST_present id (db : Db.Table) row :
  db !! id = Some row ->
  IncrementRoute.POST id db =
    if row_reached (Db.col_currentReads row + 1) row
    then (IncrementRoute.Ok true (Db.col_currentReads row + 1), delete id db)
    else (IncrementRoute.Ok false (Db.col_currentReads row + 1),
          <[id := Db.bump row]> db).
Proof.
  intros H. unfold IncrementRoute.POST.
  rewrite (getNote_Some _ _ _ H).
  pose proof (increment_lookup _ _ _ H) as Hup.
  pose proof (increment_insert _ _ _ H) as Hins.
  pose proof (delete_after_increment id db) as Hdel.
  destruct (Db.incrementReadCount id db) as [changed db1]. cbn [snd] in *.
  rewrite (getNote_Some _ _ _ Hup), reached_note_of_row.
  change (Db.col_currentReads (Db.bump row)) with (Db.col_currentReads row + 1).
  change (row_reached (Db.col_currentReads row + 1) (Db.bump row))
    with (row_reached (Db.col_currentReads row + 1) row).
  destruct (row_reached _ row).
  - destruct (Db.deleteNote id db1) as [gone db2]. cbn [snd] in Hdel.
    by rewrite Hdel.
  - rewrite Hins. f_equal. f_equal. unfold IncrementRoute.reported_reads. cbn.
    destruct (Z.eqb_spec (Db.col_currentReads row + 1) 0); lia.
Qed.

Lemma increment_POST_absent id (db : Db.Table) :
  db !! id = None -> IncrementRoute.POST id db = (IncrementRoute.NotFound, db).
Proof. intros H. unfold IncrementRoute.POST. by rewrite (getNote_None _ _ H). Qed.

Lemma GET_absent id (db : Db.Table) :
  db !! id = None -> NoteRoute.GET id db = (NoteRoute.NotFound, db).
Proof. intros H. unfold NoteRoute.GET. by rewrite (getNote_None _ _ H). Qed.

Lemma GET_present id (db : Db.Table) row :
  db !! id = Some row ->
  NoteRoute.GET id db =
    if row_reached (Db.col_currentReads row) row
    then (NoteRoute.NotFound, delete id db)
    else (NoteRoute.Found (NoteRoute.view_of (Db.note_of_row id row)), db).
Proof.
  intros H. unfold NoteRoute.GET.
  rewrite (getNote_Some _ _ _ H), reached_note_of_row.
  by destruct (row_reached _ row).
Qed.

Lemma DELETE_present id (db : Db.Table) row :
  db !! id = Some row -> NoteRoute.DELETE id db = (NoteRoute.NoteDeleted, delete id db).
Proof.
  intros H. unfold NoteRoute.DELETE, Db.deleteNote.
  rewrite bool_decide_eq_true_2; [done | by rewrite H].
Qed.

Lemma DELETE_absent id (db : Db.Table) :
  db !! id = None -> NoteRoute.DELETE id db = (NoteRoute.DeleteNotFound, delete id db).
Proof.
  intros H. unfold NoteRoute.DELETE, Db.deleteNote.
  rewrite bool_decide_eq_false_2; [done | rewrite H; by intros [? ?]].
Qed.

(** In a body whose five fields are strings, the driver stores them as
    they are. *)
Lemma bound_typed host body :
  NotesRoute.typed body = true ->
  bound host (NotesRoute.text_fields body)
  = Some [NotesRoute.text (NotesRoute.id body);
          NotesRoute.text (NotesRoute.ciphertext body);
          NotesRoute.text (NotesRoute.nonce body);
          NotesRoute.text (NotesRoute.ephemeralPublicKey body);
          NotesRoute.text (NotesRoute.recipientAddress body)].
Proof. unfold NotesRoute.typed, bound. by intros ->. Qed.

Lemma typed_id body :
  NotesRoute.typed body = true ->
  NotesRoute.id body = JString (NotesRoute.text (NotesRoute.id body)).
Proof.
  unfold NotesRoute.typed, NotesRoute.text_fields. cbn [forallb].
  by destruct (NotesRoute.id body).
Qed.

Lemma acceptable_checks host body :
  NotesRoute.acceptable host body = true ->
  (json_missing (NotesRoute.id body) || json_missing (NotesRoute.ciphertext body)
   || json_missing (NotesRoute.nonce body)
   || json_missing (NotesRoute.ephemeralPublicKey body)
   || json_missing (NotesRoute.recipientAddress body)) = false /\
  validPublicKey host (NotesRoute.recipientAddress body) = true /\
  NotesRoute.too_long host (NotesRoute.ciphertext body) = false /\
  NotesRoute.invalid_maxReads (with_default JNull (NotesRoute.maxReads body)) = false.
Proof.
  unfold NotesRoute.acceptable. intros Hacc.
  apply andb_prop in Hacc as [Hacc Hmax].
  apply andb_prop in Hacc as [Hacc Hlen].
  apply andb_prop in Hacc as [Hmiss Hpk].
  by apply negb_true_iff in Hmiss, Hlen, Hmax.
Qed.

Lemma create_POST_accepted host now body (db : Db.Table) :
  NotesRoute.acceptable host body = true ->
  NotesRoute.typed body = true ->
  db !! NotesRoute.text (NotesRoute.id body) = None ->
  NotesRoute.POST host now (NotesRoute.Fields body) db =
    (NotesRoute.Success (JString (NotesRoute.text (NotesRoute.id body))),
     <[NotesRoute.text (NotesRoute.id body) := NotesRoute.stored_row now body]> db).
Proof.
  intros Hacc Htyped Hfresh.
  destruct (acceptable_checks _ _ Hacc) as (Hmiss & Hpk & Hlen & Hmax).
  unfold NotesRoute.POST.
  rewrite Hmiss, Hpk, Hlen, Hmax, (bound_typed _ _ Htyped). cbn [negb].
  unfold Db.createNote. cbn [Db.new_id]. rewrite Hfresh.
  by rewrite <- (typed_id _ Htyped).
Qed.

Lemma valid_maxReads_range v m :
  NotesRoute.invalid_maxReads v = false ->
  NotesRoute.maxReads_value v = Some m -> (1 <= m <= 1000)%Q.
Proof.
  destruct v; try discriminate. cbn. intros Hvalid [= ->].
  apply orb_false_elim in Hvalid as [H1 H2].
  apply negb_false_iff in H1, H2. by split; apply Qle_bool_iff.
Qed.

(** Whatever the request, [POST] leaves the table alone or inserts one
    fresh row with no reads and a limit between 1 and 1000. *)
Lemma create_POST_table host now request (db : Db.Table) :
  snd (NotesRoute.POST host now request db) = db \/
  exists id row,
    db !! id = None /\
    snd (NotesRoute.POST host now request db) = <[id := row]> db /\
    Db.col_currentReads row = 0 /\
    forall m, Db.col_maxReads row = Some m -> (1 <= m <= 1000)%Q.
Proof.
  destruct request as [| |body]; [by left..|]. unfold NotesRoute.POST.
  destruct (_ || json_missing (NotesRoute.recipientAddress body)); [by left|].
  destruct (negb _); [by left|].
  destruct (NotesRoute.too_long _ _); [by left|].
  destruct (NotesRoute.invalid_maxReads _) eqn:Hvalid; [by left|].
  destruct (bound _ _) as [[|i [|c [|n [|e [|r [|]]]]]]|]; try by left.
  unfold Db.createNote. cbn [Db.new_id].
  destruct (db !! i) eqn:Hfresh; [by left|]. right.
  eexists _, _. split; [exact Hfresh|]. split; [reflexivity|]. split; [reflexivity|].
  cbn. intros m Hm. by apply (valid_maxReads_range _ _ Hvalid).
Qed.

Lemma serve_all_cons host req reqs (db : Db.Table) :
  serve_all host (req :: reqs) db = serve_all host reqs (snd (serve host req db)).
Proof. reflexivity. Qed.

(** Without a limit the handler only counts. *)
Lemma increment_unlimited id (db : Db.Table) row :
  db !! id = Some row -> Db.col_maxReads row = None ->
  IncrementRoute.POST id db =
    (IncrementRoute.Ok false (Db.col_currentReads row + 1), <[id := Db.bump row]> db).
Proof.
  intros Hrow Hmax. rewrite (increment_POST_present _ _ _ Hrow).
  unfold row_reached. by rewrite Hmax.
Qed.

(** The table after the handler is the table before it, the table after the
    one UPDATE, or the table after the UPDATE and the DELETE; the handler
    writes no count it has read. *)
Lemma increment_POST_writes id (db : Db.Table) :
  let db1 := snd (Db.incrementReadCount id db) in
  snd (IncrementRoute.POST id db) = db \/
  snd (IncrementRoute.POST id db) = db1 \/
  snd (IncrementRoute.POST id db) = snd (Db.deleteNote id db1).
Proof.
  intros db1. destruct (db !! id) as [row|] eqn:Hrow.
  - rewrite (increment_POST_present _ _ _ Hrow).
    destruct (row_reached _ row); cbn [snd]; right.
    + right. subst db1. by rewrite delete_after_increment.
    + left. subst db1. by rewrite (increment_insert _ _ _ Hrow).
  - left. by rewrite (increment_POST_absent _ _ Hrow).
Qed.

(** ** fetch and recordSuccessfulDecrypt, request by request *)

(** C9. [fetch] is the GET handler: on a missing id it answers not-found; on
    a stored note whose [maxReads] is set and reached it deletes the row and
    answers not-found; otherwise it answers the eight public fields of the
    row and leaves the whole table as it was. *)
Theorem fetch_returns_fields_or_heals id (db : Db.Table) :
  match db !! id with
  | None => NoteRoute.GET id db = (NoteRoute.NotFound, db)
  | Some row =>
      let exhausted :=
        match Db.col_maxReads row with
        | Some m => Qle_bool m (inject_Z (Db.col_currentReads row))
        | None => false
        end in
      if exhausted
      then NoteRoute.GET id db = (NoteRoute.NotFound, delete id db)
      else NoteRoute.GET id db =
             (NoteRoute.Found
                {| NoteRoute.id := id;
                   NoteRoute.ciphertext := Db.col_ciphertext row;
                   NoteRoute.nonce := Db.col_nonce row;
                   NoteRoute.ephemeralPublicKey := Db.col_ephemeralPublicKey row;
                   NoteRoute.recipientAddress := Db.col_recipientAddress row;
                   NoteRoute.selfDestruct := Db.col_selfDestruct row =? 1;
                   NoteRoute.maxReads := Db.col_maxReads row;
                   NoteRoute.currentReads := Db.col_currentReads row |},
              db)
  end.
Proof.
  destruct (db !! id) as [row|] eqn:Hrow.
  - rewrite (GET_present _ _ _ Hrow). unfold row_reached, NoteRoute.view_of.
    destruct (Db.col_maxReads row) as [m|] eqn:Hm; cbn zeta;
      [unfold reaches; destruct (Qle_bool m _)|]; cbn; by rewrite ?Hm.
  - by apply GET_absent.
Qed.

(** C3. [recordSuccessfulDecrypt] is the increment handler.  On a missing id
    it answers not-found and writes nothing.  On a stored note it counts one
    read; when [maxReads] is set and the new count has reached it, the row is
    deleted and the answer is [deleted: true] with the new count; otherwise
    the row stays, with the new count, and the answer is [deleted: false]
    with the new count.  A note just created with [maxReads = 2] answers
    [(false, 1)] and is still fetched, then [(true, 2)], and is then
    not found. *)
Theorem recordSuccessfulDecrypt_counts_then_destroys host now body id (db : Db.Table) :
  (match db !! id with
   | None => IncrementRoute.POST id db = (IncrementRoute.NotFound, db)
   | Some row =>
       let reads := Db.col_currentReads row + 1 in
       match Db.col_maxReads row with
       | Some m =>
           if Qle_bool m (inject_Z reads)
           then IncrementRoute.POST id db = (IncrementRoute.Ok true reads, delete id db)
           else IncrementRoute.POST id db =
                  (IncrementRoute.Ok false reads, <[id := Db.bump row]> db)
       | None =>
           IncrementRoute.POST id db =
             (IncrementRoute.Ok false reads, <[id := Db.bump row]> db)
       end
   end) /\
  (NotesRoute.acceptable host body = true ->
   NotesRoute.typed body = true ->
   NotesRoute.maxReads body = JNumber 2 ->
   NotesRoute.text (NotesRoute.id body) = id ->
   db !! id = None ->
   let '(r0, db0) := NotesRoute.POST host now (NotesRoute.Fields body) db in
   let '(r1, db1) := IncrementRoute.POST id db0 in
   let '(f1, db1') := NoteRoute.GET id db1 in
   let '(r2, db2) := IncrementRoute.POST id db1' in
   let '(f2, db2') := NoteRoute.GET id db2 in
   r0 = NotesRoute.Success (JString id) /\
   r1 = IncrementRoute.Ok false 1 /\
   (exists v, f1 = NoteRoute.Found v /\ NoteRoute.id v = id /\
              NoteRoute.maxReads v = Some 2%Q /\ NoteRoute.currentReads v = 1) /\
   r2 = IncrementRoute.Ok true 2 /\
   f2 = NoteRoute.NotFound /\
   db2' !! id = None).
Proof.
  split.
  - destruct (db !! id) as [row|] eqn:Hrow.
    + rewrite (increment_POST_present _ _ _ Hrow). unfold row_reached.
      destruct (Db.col_maxReads row) as [m|]; cbn zeta;
        [unfold reaches; destruct (Qle_bool m _)|]; reflexivity.
    + by apply increment_POST_absent.
  - intros Hacc Htyped Hmax <- Hfresh.
    set (id := NotesRoute.text (NotesRoute.id body)) in *.
    pose (row := NotesRoute.stored_row now body).
    assert (Hlim : forall r, Db.col_maxReads r = Db.col_maxReads row ->
                   Db.col_maxReads r = Some 2%Q).
    { intros r ->. unfold row, NotesRoute.stored_row. cbn. by rewrite Hmax. }
    assert (H1 : IncrementRoute.POST id (<[id := row]> db) =
                 (IncrementRoute.Ok false 1, <[id := Db.bump row]> db)).
    { rewrite (increment_POST_present id _ row) by apply lookup_insert_eq.
      unfold row_reached. rewrite (Hlim row eq_refl). cbn. by rewrite insert_insert_eq. }
    assert (H2 : NoteRoute.GET id (<[id := Db.bump row]> db) =
                 (NoteRoute.Found (NoteRoute.view_of (Db.note_of_row id (Db.bump row))),
                  <[id := Db.bump row]> db)).
    { rewrite (GET_present id _ (Db.bump row)) by apply lookup_insert_eq.
      unfold row_reached. by rewrite (Hlim (Db.bump row) eq_refl). }
    assert (H3 : IncrementRoute.POST id (<[id := Db.bump row]> db) =
                 (IncrementRoute.Ok true 2, delete id (<[id := Db.bump row]> db))).
    { rewrite (increment_POST_present id _ (Db.bump row)) by apply lookup_insert_eq.
      unfold row_reached. by rewrite (Hlim (Db.bump row) eq_refl). }
    rewrite (create_POST_accepted _ _ _ _ Hacc Htyped Hfresh). fold id row.
    rewrite H1, H2, H3, GET_absent by apply lookup_delete_eq.
    repeat split.
    + eexists. split; [reflexivity|]. repeat split.
      apply (Hlim (Db.bump row) eq_refl).
    + apply lookup_delete_eq.
Qed.

Lemma recordSuccessfulDecrypt_witness :
  let '(r0, db0) := NotesRoute.POST Sample.host Sample.now
                      (NotesRoute.Fields (Sample.body (JNumber 2))) ∅ in
  let '(r1, db1) := IncrementRoute.POST Sample.noteId db0 in
  let '(f1, db1') := NoteRoute.GET Sample.noteId db1 in
  let '(r2, db2) := IncrementRoute.POST Sample.noteId db1' in
  let '(f2, db2') := NoteRoute.GET Sample.noteId db2 in
  r0 = NotesRoute.Success (JString Sample.noteId) /\
  r1 = IncrementRoute.Ok false 1 /\
  (exists v, f1 = NoteRoute.Found v /\ NoteRoute.id v = Sample.noteId /\
             NoteRoute.maxReads v = Some 2%Q /\ NoteRoute.currentReads v = 1) /\
  r2 = IncrementRoute.Ok true 2 /\
  f2 = NoteRoute.NotFound /\
  db2' !! Sample.noteId = None.
Proof.
  apply (proj2 (recordSuccessfulDecrypt_counts_then_destroys Sample.host
                  Sample.now (Sample.body (JNumber 2)) Sample.noteId ∅));
    vm_compute; reflexivity.
Defined.

(** ** Requests on one id leave the other rows alone *)

Lemma GET_other id j (db : Db.Table) :
  j <> id -> snd (NoteRoute.GET j db) !! id = db !! id.
Proof.
  intros Hne. destruct (db !! j) as [row|] eqn:Hrow.
  - rewrite (GET_present _ _ _ Hrow).
    destruct (row_reached _ row); cbn [snd]; [by rewrite lookup_delete_ne | done].
  - by rewrite (GET_absent _ _ Hrow).
Qed.

Lemma increment_POST_other id j (db : Db.Table) :
  j <> id -> snd (IncrementRoute.POST j db) !! id = db !! id.
Proof.
  intros Hne. destruct (db !! j) as [row|] eqn:Hrow.
  - rewrite (increment_POST_present _ _ _ Hrow).
    destruct (row_reached _ row); cbn [snd];
      [by rewrite lookup_delete_ne | by rewrite lookup_insert_ne].
  - by rewrite (increment_POST_absent _ _ Hrow).
Qed.

Lemma DELETE_other id j (db : Db.Table) :
  j <> id -> snd (NoteRoute.DELETE j db) !! id = db !! id.
Proof.
  intros Hne. unfold NoteRoute.DELETE, Db.deleteNote.
  destruct (negb _); cbn [snd]; by rewrite lookup_delete_ne.
Qed.

Lemma create_POST_keeps host now request id (db : Db.Table) row :
  db !! id = Some row ->
  snd (NotesRoute.POST host now request db) !! id = Some row.
Proof.
  intros Hrow.
  destruct (create_POST_table host now request db) as [->|(j & r & Hj & -> & _)]; [done|].
  rewrite lookup_insert_ne; [done | congruence].
Qed.

(** A note without a limit outlives every request that is neither a DELETE
    of its id nor a purge; only its read count moves. *)
Lemma unlimited_survives host req id (db : Db.Table) row :
  db !! id = Some row -> Db.col_maxReads row = None ->
  removes id req = false ->
  exists row',
    snd (serve host req db) !! id = Some row' /\
    Db.col_maxReads row' = None /\
    Db.col_selfDestruct row' = Db.col_selfDestruct row.
Proof.
  intros Hrow Hmax Hreq.
  destruct req as [now body|j|j|j|now age]; cbn [serve removes] in *.
  - pose proof (create_POST_keeps host now body _ _ _ Hrow).
    destruct (NotesRoute.POST host now body db). eauto.
  - destruct (decide (j = id)) as [->|Hne].
    + rewrite (GET_present _ _ _ Hrow). unfold row_reached. rewrite Hmax. eauto.
    + pose proof (GET_other id j db Hne) as H. destruct (NoteRoute.GET j db).
      cbn [snd] in *. rewrite H. eauto.
  - destruct (decide (j = id)) as [->|Hne].
    + rewrite (increment_unlimited _ _ _ Hrow Hmax). cbn [snd].
      rewrite lookup_insert_eq. eauto.
    + pose proof (increment_POST_other id j db Hne) as H.
      destruct (IncrementRoute.POST j db). cbn [snd] in *. rewrite H. eauto.
  - apply bool_decide_eq_false in Hreq.
    pose proof (DELETE_other id j db Hreq) as H.
    destruct (NoteRoute.DELETE j db). cbn [snd] in *. rewrite H. eauto.
  - discriminate.
Qed.

Lemma unlimited_survives_all host reqs id (db : Db.Table) row :
  db !! id = Some row -> Db.col_maxReads row = None ->
  forallb (fun req => negb (removes id req)) reqs = true ->
  exists row',
    serve_all host reqs db !! id = Some row' /\
    Db.col_maxReads row' = None /\
    Db.col_selfDestruct row' = Db.col_selfDestruct row.
Proof.
  revert db row. induction reqs as [|req reqs IH]; intros db row Hrow Hmax Hreqs.
  - eauto.
  - cbn [forallb] in Hreqs. apply andb_prop in Hreqs as [Hreq Hreqs].
    apply negb_true_iff in Hreq.
    destruct (unlimited_survives host req id db row Hrow Hmax Hreq)
      as (row1 & Hrow1 & Hmax1 & Hsd1).
    rewrite serve_all_cons.
    destruct (IH _ _ Hrow1 Hmax1 Hreqs) as (row' & ? & ? & Hsd).
    exists row'. repeat split; [done | done | congruence].
Qed.

(** C8. A stored note with [maxReads = null] (whatever its [selfDestruct]
    flag, so in particular when it is true): the increment handler counts the
    read, answers [deleted: false] with the new count, 1 on a note with no
    reads yet, and keeps the row.  After any requests that are neither a
    DELETE of this id nor a purge, the note is still fetched, with its flag.
    The DELETE route then answers success, and the next fetch is not-found. *)
Theorem unlimited_note_is_only_deleted_by_caller host id (db : Db.Table) row :
  db !! id = Some row ->
  Db.col_maxReads row = None ->
  IncrementRoute.POST id db =
    (IncrementRoute.Ok false (Db.col_currentReads row + 1), <[id := Db.bump row]> db) /\
  (Db.col_currentReads row = 0 ->
   fst (IncrementRoute.POST id db) = IncrementRoute.Ok false 1) /\
  (forall reqs,
     forallb (fun req => negb (removes id req)) reqs = true ->
     let db' := serve_all host reqs db in
     (exists v, fst (NoteRoute.GET id db') = NoteRoute.Found v /\
                NoteRoute.maxReads v = None /\
                NoteRoute.selfDestruct v = (Db.col_selfDestruct row =? 1)) /\
     fst (NoteRoute.DELETE id db') = NoteRoute.NoteDeleted /\
     fst (NoteRoute.GET id (snd (NoteRoute.DELETE id db'))) = NoteRoute.NotFound).
Proof.
  intros Hrow Hmax. split; [by apply increment_unlimited|]. split.
  - intros H0. rewrite (increment_unlimited _ _ _ Hrow Hmax). cbn. by rewrite H0.
  - intros reqs Hreqs db'.
    destruct (unlimited_survives_all host reqs id db row Hrow Hmax Hreqs)
      as (row' & Hrow' & Hmax' & Hsd). fold db' in Hrow'.
    repeat split.
    + rewrite (GET_present _ _ _ Hrow'). unfold row_reached. rewrite Hmax'. cbn.
      eexists. split; [reflexivity|]. cbn. by rewrite Hmax', Hsd.
    + by rewrite (DELETE_present _ _ _ Hrow').
    + rewrite (DELETE_present _ _ _ Hrow'). cbn [snd].
      by rewrite GET_absent by apply lookup_delete_eq.
Qed.

Lemma unlimited_note_witness :
  let db := Sample.created JUndefined in
  fst (IncrementRoute.POST Sample.noteId db) = IncrementRoute.Ok false 1 /\
  let db' := serve_all Sample.host
               [RecordDecrypt Sample.noteId; Fetch Sample.noteId;
                RecordDecrypt Sample.noteId] db in
  (exists v, fst (NoteRoute.GET Sample.noteId db') = NoteRoute.Found v /\
             NoteRoute.maxReads v = None /\ NoteRoute.selfDestruct v = true) /\
  fst (NoteRoute.DELETE Sample.noteId db') = NoteRoute.NoteDeleted /\
  fst (NoteRoute.GET Sample.noteId (snd (NoteRoute.DELETE Sample.noteId db')))
    = NoteRoute.NotFound.
Proof.
  intros db.
  destruct (unlimited_note_is_only_deleted_by_caller Sample.host Sample.noteId db
              (NotesRoute.stored_row Sample.now (Sample.body JUndefined))
              ltac:(vm_compute; reflexivity) ltac:(reflexivity))
    as (_ & Hfirst & Hlater).
  split; [apply Hfirst; reflexivity|].
  apply (Hlater [RecordDecrypt Sample.noteId; Fetch Sample.noteId;
                 RecordDecrypt Sample.noteId]).
  vm_compute. reflexivity.
Defined.

(** ** The limit invariant *)

Lemma below_limit_empty : below_limit ∅.
Proof. intros id row m H. by rewrite lookup_empty in H. Qed.

Lemma below_limit_delete id (db : Db.Table) :
  below_limit db -> below_limit (delete id db).
Proof.
  intros Hinv j row m Hj. apply lookup_delete_Some in Hj as [_ Hj]. eauto.
Qed.

Lemma below_limit_insert id row (db : Db.Table) :
  below_limit db ->
  (forall m, Db.col_maxReads row = Some m ->
             0 <= Db.col_currentReads row /\ (inject_Z (Db.col_currentReads row) < m)%Q) ->
  below_limit (<[id := row]> db).
Proof.
  intros Hinv Hrow j row' m Hj.
  apply lookup_insert_Some in Hj as [[_ <-]|[_ Hj]]; eauto.
Qed.

Lemma row_reached_false reads row m :
  row_reached reads row = false -> Db.col_maxReads row = Some m ->
  (inject_Z reads < m)%Q.
Proof. unfold row_reached. intros H Hm. rewrite Hm in H. by apply reaches_false. Qed.

Lemma below_limit_increment id (db : Db.Table) :
  below_limit db -> below_limit (snd (IncrementRoute.POST id db)).
Proof.
  intros Hinv. destruct (db !! id) as [row|] eqn:Hrow.
  - rewrite (increment_POST_present _ _ _ Hrow).
    destruct (row_reached _ row) eqn:Hr; cbn [snd].
    + by apply below_limit_delete.
    + apply below_limit_insert; [done|]. intros m Hm. cbn in *.
      pose proof (row_reached_false _ _ _ Hr Hm).
      destruct (Hinv _ _ _ Hrow Hm) as [H0 _]. split; [lia | done].
  - by rewrite (increment_POST_absent _ _ Hrow).
Qed.

Lemma below_limit_GET id (db : Db.Table) :
  below_limit db -> below_limit (snd (NoteRoute.GET id db)).
Proof.
  intros Hinv. destruct (db !! id) as [row|] eqn:Hrow.
  - rewrite (GET_present _ _ _ Hrow).
    destruct (row_reached _ row); cbn [snd]; [by apply below_limit_delete | done].
  - by rewrite (GET_absent _ _ Hrow).
Qed.

Lemma below_limit_serve host req (db : Db.Table) :
  below_limit db -> below_limit (snd (serve host req db)).
Proof.
  intros Hinv. destruct req as [now request|id|id|id|now age]; cbn [serve].
  - destruct (create_POST_table host now request db)
      as [Heq|(id & row & _ & Heq & H0 & Hm)];
      destruct (NotesRoute.POST host now request db) as [r db']; cbn [snd] in *;
      subst db'.
    + done.
    + apply below_limit_insert; [done|]. intros m Hmax.
      destruct (Hm _ Hmax) as [H1 _]. rewrite H0. split; [done|].
      apply Qlt_le_trans with 1%Q; done.
  - pose proof (below_limit_GET id db Hinv).
    by destruct (NoteRoute.GET id db).
  - pose proof (below_limit_increment id db Hinv).
    by destruct (IncrementRoute.POST id db).
  - unfold NoteRoute.DELETE, Db.deleteNote.
    destruct (negb _); cbn [snd]; by apply below_limit_delete.
  - cbn. intros j row m Hj. apply map_lookup_filter_Some in Hj as [Hj _]. eauto.
Qed.

Lemma below_limit_serve_all host reqs (db : Db.Table) :
  below_limit db -> below_limit (serve_all host reqs db).
Proof.
  revert db. induction reqs as [|req reqs IH]; intros db Hinv; [done|].
  rewrite serve_all_cons. apply IH. by apply below_limit_serve.
Qed.

Lemma reply_below_next_serve host req (db : Db.Table) :
  below_limit db -> reply_below_next db req (fst (serve host req db)).
Proof.
  intros Hinv. destruct req as [now request|id|id|id|now age]; cbn [serve].
  - by destruct (NotesRoute.POST host now request db).
  - destruct (db !! id) as [row|] eqn:Hrow.
    + rewrite (GET_present _ _ _ Hrow).
      destruct (row_reached _ row) eqn:Hr; cbn; [done|].
      intros m Hm. by apply (row_reached_false _ _ _ Hr Hm).
    + by rewrite (GET_absent _ _ Hrow).
  - destruct (db !! id) as [row|] eqn:Hrow.
    + rewrite (increment_POST_present _ _ _ Hrow).
      destruct (row_reached _ row); cbn; intros row' m Hrow' Hm;
        rewrite Hrow in Hrow'; injection Hrow' as <-;
        destruct (Hinv _ _ _ Hrow Hm) as [_ Hlt];
        rewrite inject_Z_succ; by apply Qplus_lt_l.
    + by rewrite (increment_POST_absent _ _ Hrow).
  - by destruct (NoteRoute.DELETE id db).
  - by destruct (Db.deleteOldNotes now age db).
Qed.

(** What holds of every limit, whole or not: starting from the empty table,
    after any requests, a stored count is below the limit of its note, and
    a reported count is less than one above it. *)
Lemma reads_stay_below_the_next_count host (reqs : list request) :
  below_limit (serve_all host reqs ∅) /\
  (forall req,
      reply_below_next (serve_all host reqs ∅) req
        (fst (serve host req (serve_all host reqs ∅)))).
Proof.
  pose proof (below_limit_serve_all host reqs ∅ below_limit_empty) as Hinv.
  split; [done|]. intros req. by apply reply_below_next_serve.
Qed.

(** So a limit that is a whole number is never passed. *)
Lemma whole_limit_is_not_passed host (reqs : list request) id row m k deleted reads :
  serve_all host reqs ∅ !! id = Some row ->
  Db.col_maxReads row = Some m ->
  (m == inject_Z k)%Q ->
  Db.col_currentReads row < k /\
  (fst (serve host (RecordDecrypt id) (serve_all host reqs ∅))
   = Recorded (IncrementRoute.Ok deleted reads) ->
   reads <= k).
Proof.
  intros Hrow Hm Hk.
  destruct (reads_stay_below_the_next_count host reqs) as [Hinv Hreply].
  split.
  - destruct (Hinv _ _ _ Hrow Hm) as [_ Hlt]. rewrite Hk in Hlt.
    by rewrite <- Zlt_Qlt in Hlt.
  - intros Hanswer. specialize (Hreply (RecordDecrypt id)).
    rewrite Hanswer in Hreply. cbn in Hreply.
    specialize (Hreply _ _ Hrow Hm). rewrite Hk in Hreply.
    change 1%Q with (inject_Z 1) in Hreply.
    rewrite <- inject_Z_plus, <- Zlt_Qlt in Hreply. lia.
Qed.

(** C2.  The limit is checked to be a number from 1 to 1000, not to be
    whole.  A note created with [maxReads = 1.5], which the create handler
    accepts and stores, is still there after one recorded decrypt, with one
    read; the second recorded decrypt answers [currentReads: 2], which is
    above the limit. *)
Theorem fractional_limit_is_passed :
  let create :=
    Create Sample.now (NotesRoute.Fields (Sample.body (JNumber (3 # 2)))) in
  let db := serve_all Sample.host [create; RecordDecrypt Sample.noteId] ∅ in
  fst (serve Sample.host create ∅)
    = Created (NotesRoute.Success (JString Sample.noteId)) /\
  (exists row,
      db !! Sample.noteId = Some row /\
      Db.col_maxReads row = Some (3 # 2) /\ Db.col_currentReads row = 1) /\
  fst (serve Sample.host (RecordDecrypt Sample.noteId) db)
    = Recorded (IncrementRoute.Ok true 2) /\
  ~ reply_within_limit db (RecordDecrypt Sample.noteId)
      (Recorded (IncrementRoute.Ok true 2)).
Proof.
  cbv zeta. split; [vm_compute; reflexivity|]. split.
  { eexists. split; [vm_compute; reflexivity|]. by split. }
  split; [vm_compute; reflexivity|].
  intros Hwithin. cbn [reply_within_limit] in Hwithin.
  specialize (Hwithin (with_reads 1 (NotesRoute.stored_row Sample.now
                                       (Sample.body (JNumber (3 # 2)))))
                (3 # 2) ltac:(vm_compute; reflexivity) eq_refl).
  vm_compute in Hwithin. by apply Hwithin.
Qed.

(** ** Concurrent increments *)

Section ConcurrentIncrements.

Import Concurrent.

Variable id : string.

(** *** The calls, counted *)

Lemma count_insert (p : call -> bool) cs i c c' :
  cs !! i = Some c ->
  (length (List.filter p (<[i := c']> cs)) + Nat.b2n (p c)
   = length (List.filter p cs) + Nat.b2n (p c'))%nat.
Proof.
  revert i. induction cs as [|c0 cs IH]; intros [|i] H; try discriminate.
  - injection H as ->. cbn. destruct (p c), (p c'); cbn; lia.
  - cbn in H. specialize (IH i H).
    change (<[S i := c']> (c0 :: cs)) with (c0 :: <[i := c']> cs).
    cbn [List.filter]. destruct (p c0); cbn [length]; lia.
Qed.

Lemma forallb_lookup (p : call -> bool) cs i c :
  forallb p cs = true -> cs !! i = Some c -> p c = true.
Proof.
  intros Hall Hi. apply (proj1 (forallb_forall p cs) Hall).
  apply list_elem_of_In. by apply (list_elem_of_lookup_2 _ i).
Qed.

Lemma forallb_insert (p : call -> bool) cs i c :
  forallb p cs = true -> p c = true -> forallb p (<[i := c]> cs) = true.
Proof.
  revert i. induction cs as [|c0 cs IH]; intros i Hall Hc; [done|].
  cbn in Hall. apply andb_prop in Hall as [H0 Hall].
  destruct i as [|i]; cbn; [by rewrite Hc | by rewrite H0, IH].
Qed.

Lemma lookup_move i c db w :
  (i < length (calls w))%nat -> calls (move i c db w) !! i = Some c.
Proof. intros Hi. cbn. by apply list_lookup_insert_eq. Qed.

Lemma move_move i c1 c2 db1 db2 w : move i c2 db2 (move i c1 db1 w) = move i c2 db2 w.
Proof. unfold move. cbn. by rewrite list_insert_insert_eq. Qed.

Lemma settle_move i c r db1 db2 w : settle i r db2 (move i c db1 w) = settle i r db2 w.
Proof. unfold settle, move. cbn. by rewrite list_insert_insert_eq. Qed.

Lemma step_done i w :
  match calls w !! i with Some (Settled _) | None => True | _ => False end ->
  step id i w = w.
Proof. unfold step. by destruct (calls w !! i) as [[]|]. Qed.

Lemma step_settle i r db w :
  (i < length (calls w))%nat -> step id i (settle i r db w) = settle i r db w.
Proof.
  intros Hi. apply step_done. cbn. by rewrite list_lookup_insert_eq.
Qed.

(** *** One process: a turn of a suspended call is the whole handler *)

Lemma turn_Arrived i w :
  calls w !! i = Some Arrived -> turn id i w = move i Awaiting (table w) w.
Proof. intros Hi. unfold turn, step. by rewrite Hi. Qed.

Lemma turn_Awaiting i w :
  calls w !! i = Some Awaiting ->
  turn id i w =
    settle i (fst (IncrementRoute.POST id (table w)))
      (snd (IncrementRoute.POST id (table w))) w.
Proof.
  intros Hi. pose proof (lookup_lt_Some _ _ _ Hi) as Hlt.
  unfold turn. rewrite Hi.
  change (Nat.iter 4 (step id i) w)
    with (step id i (step id i (step id i (step id i w)))).
  unfold IncrementRoute.POST.
  destruct (Db.getNote id (table w)) as [note|] eqn:Hget.
  2: { assert (step id i w = settle i IncrementRoute.NotFound (table w) w) as ->
         by (unfold step; by rewrite Hi, Hget).
       by rewrite !step_settle. }
  assert (step id i w = move i (Found note) (table w) w) as ->
    by (unfold step; by rewrite Hi, Hget).
  destruct (Db.incrementReadCount id (table w)) as [changed db1] eqn:Hinc.
  assert (step id i (move i (Found note) (table w) w) = move i (Counted note) db1 w)
    as ->.
  { unfold step. rewrite lookup_move by done. cbn [table move]. rewrite Hinc.
    by rewrite move_move. }
  destruct (Db.getNote id db1) as [u|] eqn:Hget1.
  2: { assert (step id i (move i (Counted note) db1 w)
               = settle i (IncrementRoute.Ok false
                             (IncrementRoute.reported_reads None note)) db1 w) as ->.
       { unfold step. rewrite lookup_move by done. cbn [table move]. rewrite Hget1.
         by rewrite settle_move. }
       by rewrite step_settle. }
  destruct (reached_maxReads u) eqn:Hreached.
  - assert (step id i (move i (Counted note) db1 w) = move i (Exhausted u) db1 w) as ->.
    { unfold step. rewrite lookup_move by done. cbn [table move]. rewrite Hget1, Hreached.
      by rewrite move_move. }
    destruct (Db.deleteNote id db1) as [gone db2] eqn:Hdel.
    unfold step. rewrite lookup_move by done. cbn [table move]. rewrite Hdel.
    by rewrite settle_move.
  - assert (step id i (move i (Counted note) db1 w)
            = settle i (IncrementRoute.Ok false
                          (IncrementRoute.reported_reads (Some u) note)) db1 w) as ->.
    { unfold step. rewrite lookup_move by done. cbn [table move]. rewrite Hget1, Hreached.
      by rewrite settle_move. }
    by rewrite step_settle.
Qed.

Lemma turn_done i w :
  match calls w !! i with Some (Settled _) | None => True | _ => False end ->
  turn id i w = w.
Proof.
  intros Hi. assert (step id i w = w) as Hstep by by apply step_done.
  unfold turn. destruct (calls w !! i) as [[]|]; try done;
    cbn [Nat.iter nat_rect]; by rewrite !Hstep.
Qed.

Variables start limit : nat.

Lemma settled_count_insert cs i c c' :
  cs !! i = Some c ->
  (settled_count (<[i := c']> cs) + Nat.b2n (settled c)
   = settled_count cs + Nat.b2n (settled c'))%nat.
Proof. apply count_insert. Qed.

Lemma counted_S reads :
  (start <= reads)%nat ->
  counted start (S reads)
  = counted start reads ++ [IncrementRoute.Ok false (Z.of_nat (S reads))].
Proof.
  intros Hle. unfold counted.
  rewrite Nat.sub_succ_l, seq_S, map_app by done. cbn [map].
  do 4 f_equal. lia.
Qed.

Lemma length_counted reads : length (counted start reads) = (reads - start)%nat.
Proof. unfold counted. by rewrite length_map, length_seq. Qed.

Lemma replicate_snoc {A} n (x : A) : replicate n x ++ [x] = replicate (S n) x.
Proof. induction n as [|n IH]; cbn; [done | by rewrite IH]. Qed.

Lemma progress_turn i w :
  progress id start limit w -> progress id start limit (turn id i w).
Proof.
  intros (Hbetween & Hcount & Hcases).
  destruct (calls w !! i) as [c|] eqn:Hi; [|by rewrite turn_done; [|rewrite Hi]].
  pose proof (forallb_lookup _ _ _ _ Hbetween Hi) as Hc.
  destruct c as [| |note|note|u|r]; try discriminate;
    [| |by rewrite turn_done; [|rewrite Hi]].
  - rewrite (turn_Arrived _ _ Hi).
    split; [by apply forallb_insert|]. split; cbn [calls responses table move]; [|done].
    pose proof (settled_count_insert _ _ _ Awaiting Hi) as Hins.
    cbn [settled Nat.b2n] in Hins. lia.
  - rewrite (turn_Awaiting _ _ Hi).
    split; [by apply forallb_insert|].
    assert (Hins : forall r, settled_count (<[i := Settled r]> (calls w))
                             = S (length (responses w))).
    { intros r. pose proof (settled_count_insert _ _ _ (Settled r) Hi) as Hins.
      cbn [settled Nat.b2n] in Hins. lia. }
    destruct Hcases as [(row & reads & Hrow & Hmax & Hreads & Hlt & Hresp)
                       |(Hnone & late & Hresp)].
    + rewrite (increment_POST_present _ _ _ Hrow). unfold row_reached.
      rewrite Hmax, Hreads, reaches_whole.
      destruct (Z.leb_spec (Z.of_nat limit) (Z.of_nat reads + 1)) as [Hge|Hlt'].
      * assert (limit = S reads) as Hlim by lia.
        split; cbn [calls responses table settle fst snd].
        -- rewrite length_app, Hins. cbn [length]. lia.
        -- right. split; [apply lookup_delete_eq|]. exists 0%nat.
           rewrite Hresp, Hlim. cbn [replicate]. rewrite app_nil_r.
           replace (S reads - 1)%nat with reads by lia.
           do 3 f_equal. lia.
      * split; cbn [calls responses table settle fst snd].
        -- rewrite length_app, Hins. cbn [length]. lia.
        -- left. exists (Db.bump row), (S reads).
           rewrite lookup_insert_eq, Hresp, counted_S by lia.
           cbn [Db.bump Db.col_maxReads Db.col_currentReads].
           rewrite Hreads. repeat split; try done; try lia.
           do 3 f_equal. lia.
    + rewrite (increment_POST_absent _ _ Hnone).
      split; cbn [calls responses table settle fst snd].
      * rewrite length_app, Hins. cbn [length]. lia.
      * right. split; [done|]. exists (S late).
        rewrite Hresp, <- !app_assoc. by rewrite replicate_snoc.
Qed.

Lemma progress_run_turns schedule w :
  progress id start limit w -> progress id start limit (run_turns id schedule w).
Proof.
  revert w. induction schedule as [|i schedule IH]; intros w Hw; [done|].
  apply IH. by apply progress_turn.
Qed.

Lemma length_calls_step i w : length (calls (step id i w)) = length (calls w).
Proof.
  unfold step.
  destruct (calls w !! i) as [[| |note|note|u|r]|]; try done; cbn.
  - by rewrite length_insert.
  - destruct (Db.getNote id (table w)); cbn; by rewrite length_insert.
  - by rewrite length_insert.
  - destruct (Db.getNote id (table w)) as [u|]; [destruct (reached_maxReads u)|];
      cbn; by rewrite length_insert.
  - by rewrite length_insert.
Qed.

Lemma length_calls_turn i w : length (calls (turn id i w)) = length (calls w).
Proof.
  unfold turn. destruct (calls w !! i) as [[]|]; cbn [Nat.iter nat_rect];
    by rewrite !length_calls_step.
Qed.

Lemma length_calls_run_turns schedule w :
  length (calls (run_turns id schedule w)) = length (calls w).
Proof.
  revert w. induction schedule as [|i schedule IH]; intros w; [done|].
  cbn. unfold run_turns in IH. by rewrite IH, length_calls_turn.
Qed.

Lemma all_settled_count w :
  all_settled w = true -> settled_count (calls w) = length (calls w).
Proof.
  unfold all_settled, settled_count. induction (calls w) as [|c cs IH]; [done|].
  cbn. intros H. apply andb_prop in H as [-> H]. cbn. by rewrite IH.
Qed.

Lemma progress_launch n (db : Db.Table) row :
  db !! id = Some row ->
  Db.col_maxReads row = Some (inject_Z (Z.of_nat limit)) ->
  Db.col_currentReads row = Z.of_nat start ->
  (start < limit)%nat ->
  progress id start limit (launch n db).
Proof.
  intros Hrow Hmax Hreads Hlt. split; [|split].
  - cbn. induction n as [|n IH]; [done | by cbn].
  - unfold settled_count. cbn. induction n as [|n IH]; [done | by cbn].
  - left. exists row, start. unfold counted. rewrite Nat.sub_diag.
    cbn. repeat split; done || lia.
Qed.

(** [n] concurrent calls in one process on a note with [maxReads = limit]
    and [start] reads, whatever the order of the turns. *)
Lemma concurrent_increments n schedule (db : Db.Table) row :
  db !! id = Some row ->
  Db.col_maxReads row = Some (inject_Z (Z.of_nat limit)) ->
  Db.col_currentReads row = Z.of_nat start ->
  (start < limit)%nat ->
  let w := run_turns id schedule (launch n db) in
  (forall row',
      table w !! id = Some row' ->
      Db.col_currentReads row' = Z.of_nat (start + length (responses w)) /\
      Db.col_currentReads row' < Z.of_nat limit) /\
  (all_settled w = true -> (limit - start <= n)%nat ->
   table w !! id = None /\
   responses w =
     counted start (limit - 1) ++ [IncrementRoute.Ok true (Z.of_nat limit)]
     ++ replicate (n - (limit - start)) IncrementRoute.NotFound).
Proof.
  intros Hrow Hmax Hreads Hstart w.
  pose proof (progress_run_turns schedule _
                (progress_launch n db row Hrow Hmax Hreads Hstart))
    as (_ & Hcount & Hcases). fold w in Hcount, Hcases.
  pose proof (length_calls_run_turns schedule (launch n db)) as Hlen. fold w in Hlen.
  cbn in Hlen. rewrite length_replicate in Hlen.
  split.
  - intros row' Hrow'.
    destruct Hcases as [(r & reads & Hr & _ & Hc & Hlt & Hresp)|[Hnone _]];
      [|congruence].
    rewrite Hrow' in Hr. injection Hr as <-.
    rewrite Hresp, length_counted. split; lia.
  - intros Hall Hle. apply all_settled_count in Hall.
    destruct Hcases as [(r & reads & Hr & _ & Hc & Hlt & Hresp)|[Hnone [late Hresp]]].
    + rewrite Hresp, length_counted in Hcount. lia.
    + split; [done|]. rewrite Hresp in Hcount |- *.
      rewrite !length_app, length_counted, length_replicate in Hcount.
      cbn in Hcount. repeat f_equal. lia.
Qed.

Lemma between_turns_turn i w :
  forallb between_turns (calls w) = true ->
  forallb between_turns (calls (turn id i w)) = true.
Proof.
  intros Hbetween.
  destruct (calls w !! i) as [c|] eqn:Hi; [|by rewrite turn_done; [|rewrite Hi]].
  pose proof (forallb_lookup _ _ _ _ Hbetween Hi) as Hc.
  destruct c as [| |note|note|u|r]; try discriminate.
  - rewrite (turn_Arrived _ _ Hi). by apply forallb_insert.
  - rewrite (turn_Awaiting _ _ Hi). by apply forallb_insert.
  - by rewrite turn_done; [|rewrite Hi].
Qed.

Lemma turns_taken_turn i j w :
  forallb between_turns (calls w) = true ->
  (j < length (calls w))%nat ->
  forallb between_turns (calls (turn id i w)) = true /\
  (Nat.min 2 (turns_taken (calls w !! j) + (if Nat.eqb j i then 1 else 0))
   <= turns_taken (calls (turn id i w) !! j))%nat.
Proof.
  intros Hbetween Hj.
  destruct (calls w !! i) as [c|] eqn:Hi.
  2: { rewrite turn_done by (by rewrite Hi). split; [done|].
       destruct (Nat.eqb_spec j i) as [->|Hne]; [|lia].
       apply lookup_ge_None in Hi. lia. }
  pose proof (forallb_lookup _ _ _ _ Hbetween Hi) as Hc.
  destruct c as [| |note|note|u|r]; try discriminate.
  - rewrite (turn_Arrived _ _ Hi). split; [by apply forallb_insert|].
    cbn [calls move].
    destruct (Nat.eqb_spec j i) as [->|Hne].
    + rewrite list_lookup_insert_eq, Hi by done. cbn. lia.
    + rewrite list_lookup_insert_ne by done. lia.
  - rewrite (turn_Awaiting _ _ Hi). split; [by apply forallb_insert|].
    cbn [calls settle].
    destruct (Nat.eqb_spec j i) as [->|Hne].
    + rewrite list_lookup_insert_eq, Hi by done. cbn. lia.
    + rewrite list_lookup_insert_ne by done. lia.
  - rewrite turn_done by (by rewrite Hi). split; [done|].
    destruct (Nat.eqb_spec j i) as [->|Hne]; [|lia]. rewrite Hi. cbn. lia.
Qed.

Lemma settled_of_turns (cs : list call) :
  (forall j, (j < length cs)%nat -> (2 <= turns_taken (cs !! j))%nat) ->
  forallb settled cs = true.
Proof.
  intros H. apply forallb_forall. intros c Hc.
  apply list_elem_of_In, list_elem_of_lookup in Hc as [j Hj].
  specialize (H j (lookup_lt_Some _ _ _ Hj)). rewrite Hj in H.
  destruct c; cbn in H; try lia. reflexivity.
Qed.

(** In one process, a schedule that gives every call its two turns settles
    every call. *)
Lemma fair_schedule_settles schedule w :
  forallb between_turns (calls w) = true ->
  (forall j, (j < length (calls w))%nat ->
             (2 <= turns j schedule + turns_taken (calls w !! j))%nat) ->
  all_settled (run_turns id schedule w) = true.
Proof.
  revert w. induction schedule as [|i schedule IH]; intros w Hbetween Hfair.
  - unfold all_settled. cbn [run_turns fold_left]. apply settled_of_turns.
    intros j Hj. specialize (Hfair j Hj).
    unfold turns in Hfair. cbn [List.filter length] in Hfair. lia.
  - change (run_turns id (i :: schedule) w) with (run_turns id schedule (turn id i w)).
    apply IH; [by apply between_turns_turn|].
    intros j Hj. rewrite length_calls_turn in Hj. specialize (Hfair j Hj).
    destruct (turns_taken_turn i j w Hbetween Hj) as [_ Hstep].
    unfold turns in *. cbn [List.filter] in Hfair.
    destruct (Nat.eqb j i); cbn [length] in Hfair; lia.
Qed.

Lemma fair_launch_settles n schedule (db : Db.Table) :
  (forall j, (j < n)%nat -> (2 <= turns j schedule)%nat) ->
  all_settled (run_turns id schedule (launch n db)) = true.
Proof.
  intros Hfair. apply fair_schedule_settles.
  - cbn. induction n as [|n IH]; [done|]. cbn. apply IH. intros j Hj. apply Hfair. lia.
  - cbn [launch calls]. rewrite length_replicate. intros j Hj.
    specialize (Hfair j Hj). lia.
Qed.

End ConcurrentIncrements.

(** *** Several processes: statement by statement *)

Lemma reaches_mono a b m : reaches a m = true -> a <= b -> reaches b m = true.
Proof.
  intros Ha Hle. apply reaches_spec. apply reaches_spec in Ha.
  apply Qle_trans with (inject_Z a); [done|]. by rewrite <- Zle_Qle.
Qed.

Lemma with_reads_bump n row : Db.bump (with_reads n row) = with_reads (n + 1) row.
Proof. unfold Db.bump, with_reads. cbn. f_equal. lia. Qed.

Section StatementByStatement.

Import Concurrent.

Variable id : string.
Variable row : Db.Row.
Variable limit : Q.
Hypothesis row_limit : Db.col_maxReads row = Some limit.

(** A step that runs no UPDATE and no DELETE keeps what is known. *)
Lemma no_lost_update_keep i c c' rs w :
  calls w !! i = Some c ->
  updated c' = updated c ->
  (forall u, c' = Exhausted u ->
     reaches (Db.currentReads u) limit = true /\
     Db.currentReads u <= Db.col_currentReads row + Z.of_nat (updates (calls w))) ->
  no_lost_update id row limit w ->
  no_lost_update id row limit
    {| table := table w; calls := <[i := c']> (calls w); responses := rs |}.
Proof.
  intros Hi Hsame Hnew [Htable Hexhausted].
  pose proof (lookup_lt_Some _ _ _ Hi) as Hlt.
  assert (updates (<[i := c']> (calls w)) = updates (calls w)) as Hupdates.
  { pose proof (count_insert updated _ _ _ c' Hi) as Hcount.
    unfold updates. rewrite Hsame in Hcount. lia. }
  split; cbn [table calls]; rewrite Hupdates; [done|].
  intros j u Hj. destruct (decide (j = i)) as [->|Hne].
  - rewrite (list_lookup_insert_eq (calls w) i c' Hlt) in Hj.
    injection Hj as ->. by apply Hnew.
  - rewrite list_lookup_insert_ne in Hj by done. by apply (Hexhausted _ _ Hj).
Qed.

Lemma no_lost_update_step i w :
  no_lost_update id row limit w -> no_lost_update id row limit (step id i w).
Proof.
  intros Hinv. pose proof Hinv as [Htable Hexhausted]. unfold step.
  destruct (calls w !! i) as [[| |note|note|u|r]|] eqn:Hi; [| | | | |done|done];
    pose proof (lookup_lt_Some _ _ _ Hi) as Hlt.
  - by apply (no_lost_update_keep i Arrived).
  - destruct (Db.getNote id (table w)) as [note|].
    + by apply (no_lost_update_keep i Awaiting).
    + by apply (no_lost_update_keep i Awaiting).
  - (* line 21: the UPDATE *)
    cbn [Db.incrementReadCount move].
    assert (updates (<[i := Counted note]> (calls w)) = S (updates (calls w)))
      as Hupdates.
    { pose proof (count_insert updated _ _ _ (Counted note) Hi) as Hcount.
      unfold updates. cbn [updated Nat.b2n] in Hcount. lia. }
    unfold move. split; cbn [table calls]; rewrite Hupdates.
    + rewrite lookup_alter_eq.
      destruct Htable as [->|[-> Hreached]]; cbn.
      * left. rewrite with_reads_bump. do 2 f_equal. lia.
      * right. split; [done|]. eapply reaches_mono; [exact Hreached | lia].
    + intros j u Hj. destruct (decide (j = i)) as [->|Hne].
      * by rewrite (list_lookup_insert_eq (calls w) i _ Hlt) in Hj.
      * rewrite list_lookup_insert_ne in Hj by done.
        destruct (Hexhausted _ _ Hj). split; [done | lia].
  - (* line 24: the second read *)
    destruct (Db.getNote id (table w)) as [u|] eqn:Hget.
    + destruct (reached_maxReads u) eqn:Hreached.
      * apply (no_lost_update_keep i (Counted note)); try done.
        intros u' [= <-]. unfold Db.getNote in Hget.
        destruct Htable as [Hrow|[Hnone _]]; [|by rewrite Hnone in Hget].
        rewrite Hrow in Hget. injection Hget as <-.
        unfold reached_maxReads in Hreached. cbn in *.
        rewrite row_limit in Hreached. split; [done | lia].
      * by apply (no_lost_update_keep i (Counted note)).
    + by apply (no_lost_update_keep i (Counted note)).
  - (* line 26: the DELETE *)
    cbn [Db.deleteNote settle].
    assert (updates (<[i := Settled (IncrementRoute.Ok true (Db.currentReads u))]>
                       (calls w)) = updates (calls w)) as Hupdates.
    { pose proof (count_insert updated _ _ _
                    (Settled (IncrementRoute.Ok true (Db.currentReads u))) Hi)
        as Hcount.
      unfold updates. cbn [updated Nat.b2n] in Hcount. lia. }
    destruct (Hexhausted _ _ Hi) as [Hreached Hle].
    unfold settle. split; cbn [table calls]; rewrite Hupdates.
    + right. split; [apply lookup_delete_eq|]. by eapply reaches_mono.
    + intros j u' Hj. destruct (decide (j = i)) as [->|Hne].
      * by rewrite (list_lookup_insert_eq (calls w) i _ Hlt) in Hj.
      * rewrite list_lookup_insert_ne in Hj by done. by apply (Hexhausted _ _ Hj).
Qed.

Lemma no_lost_update_run schedule w :
  no_lost_update id row limit w -> no_lost_update id row limit (run id schedule w).
Proof.
  revert w. induction schedule as [|i schedule IH]; intros w Hw; [done|].
  apply IH. by apply no_lost_update_step.
Qed.

Lemma no_lost_update_launch n (db : Db.Table) :
  db !! id = Some row -> no_lost_update id row limit (launch n db).
Proof.
  intros Hrow.
  assert (updates (replicate n Arrived) = 0%nat) as Hnone.
  { unfold updates. induction n as [|n IH]; [done | by cbn]. }
  split; cbn [launch table calls]; rewrite Hnone.
  - left. rewrite Hrow. f_equal. destruct row. unfold with_reads. cbn. f_equal. lia.
  - intros j u Hj. apply lookup_replicate in Hj as [Hj _]. done.
Qed.

End StatementByStatement.

(** *** What the answers of one process add up to *)

Lemma highest_count_nonneg rs : 0 <= Concurrent.highest_count rs.
Proof.
  unfold Concurrent.highest_count.
  induction rs as [|[deleted reads|] rs IH]; cbn [fold_right]; lia.
Qed.

Lemma highest_count_app rs1 rs2 :
  Concurrent.highest_count (rs1 ++ rs2)
  = Z.max (Concurrent.highest_count rs1) (Concurrent.highest_count rs2).
Proof.
  pose proof (highest_count_nonneg rs2). unfold Concurrent.highest_count in *.
  induction rs1 as [|[deleted reads|] rs1 IH]; cbn [fold_right app]; lia.
Qed.

Lemma highest_count_NotFound n :
  Concurrent.highest_count (replicate n IncrementRoute.NotFound) = 0.
Proof. induction n as [|n IH]; [done | by cbn]. Qed.

Lemma highest_count_map (ks : list nat) top :
  Forall (fun k => Z.of_nat k <= top) ks -> 0 <= top ->
  Concurrent.highest_count (map (fun k => IncrementRoute.Ok false (Z.of_nat k)) ks)
  <= top.
Proof.
  intros Hks Htop. unfold Concurrent.highest_count.
  induction Hks as [|k ks Hk _ IH]; cbn [fold_right map]; lia.
Qed.

Lemma highest_count_counted start reads :
  Concurrent.highest_count (Concurrent.counted start reads) <= Z.of_nat reads.
Proof.
  unfold Concurrent.counted. apply highest_count_map; [|lia].
  apply Forall_forall. intros k Hk. apply list_elem_of_In, in_seq in Hk. lia.
Qed.

Lemma destroyed_counted start reads :
  List.filter Concurrent.destroyed (Concurrent.counted start reads) = [].
Proof. unfold Concurrent.counted. by induction (seq _ _) as [|k ks IH]. Qed.

Lemma destroyed_NotFound n :
  List.filter Concurrent.destroyed (replicate n IncrementRoute.NotFound) = [].
Proof. induction n as [|n IH]; [done | by cbn]. Qed.

(** C1, as amended.  A stored note with [maxReads = 50] and fewer than 50
    reads so far ([start]; a new note has none), and 100 calls of the
    increment handler launched at once on its id.

    In one process, where a call runs its statements in one turn, the calls
    taking their turns in any order ([schedule]): at every moment the stored
    count is [start] plus the number of calls that have answered, and is
    below 50; all 100 answer as soon as each has had its two turns; once all
    have answered, the note is gone and the answers are, in order, the
    counts [start + 1] to 49 with [deleted: false], then count 50 with
    [deleted: true], once, then not-found for all the other calls: the count
    has settled at 50 and the note was destroyed once.

    In several processes, where the statements of the calls interleave in
    any order: as long as the note is stored, its count is the count it had
    plus one for each call whose UPDATE has run, so no increment is lost;
    and the note is deleted only once its count has reached 50. *)
Theorem decrypts_stop_at_fifty_in_one_process
    (id : string) (schedule : list nat) (db : Db.Table) (row : Db.Row) (start : nat) :
  db !! id = Some row ->
  Db.col_maxReads row = Some 50%Q ->
  Db.col_currentReads row = Z.of_nat start ->
  (start < 50)%nat ->
  (let w := Concurrent.run_turns id schedule (Concurrent.launch 100 db) in
   (forall row',
       Concurrent.table w !! id = Some row' ->
       Db.col_currentReads row' = Z.of_nat (start + length (Concurrent.responses w)) /\
       Db.col_currentReads row' < 50) /\
   ((forall i, (i < 100)%nat -> (2 <= Concurrent.turns i schedule)%nat) ->
    Concurrent.all_settled w = true) /\
   (Concurrent.all_settled w = true ->
    Concurrent.responses w =
      Concurrent.counted start 49 ++ [IncrementRoute.Ok true 50]
      ++ replicate (50 + start) IncrementRoute.NotFound /\
    Concurrent.settles_at 50 id w)) /\
  (let w := Concurrent.run id schedule (Concurrent.launch 100 db) in
   (forall row',
       Concurrent.table w !! id = Some row' ->
       row' = with_reads (Z.of_nat (Concurrent.updates (Concurrent.calls w))) row) /\
   (Concurrent.table w !! id = None ->
    50 <= Z.of_nat start + Z.of_nat (Concurrent.updates (Concurrent.calls w)))).
Proof.
  intros Hrow Hmax Hreads Hstart. split; cbv zeta.
  - destruct (concurrent_increments id start 50%nat 100%nat schedule db row
                Hrow Hmax Hreads Hstart)
      as [Hnow Hend].
    split; [exact Hnow|]. split; [apply fair_launch_settles|].
    intros Hall. destruct (Hend Hall) as [Hgone Hresp]; [lia|].
    assert (Concurrent.responses
              (Concurrent.run_turns id schedule (Concurrent.launch 100 db))
            = Concurrent.counted start 49 ++ [IncrementRoute.Ok true 50]
              ++ replicate (50 + start) IncrementRoute.NotFound) as Hanswers.
    { rewrite Hresp. do 3 f_equal. lia. }
    split; [exact Hanswers|]. split; [exact Hgone|]. rewrite Hanswers. split.
    + rewrite !highest_count_app, highest_count_NotFound.
      pose proof (highest_count_counted start 49).
      pose proof (highest_count_nonneg (Concurrent.counted start 49)).
      unfold Concurrent.highest_count at 2. cbn [fold_right]. lia.
    + rewrite !List.filter_app, destroyed_counted, destroyed_NotFound. reflexivity.
  - pose proof (no_lost_update_run id row 50%Q Hmax schedule _
                  (no_lost_update_launch id row 50%Q Hmax 100%nat db Hrow))
      as [Htable _].
    split.
    + intros row' Hrow'. destruct Htable as [Hsome|[Hnone _]]; congruence.
    + intros Hnone. destruct Htable as [Hsome|[_ Hreached]]; [congruence|].
      rewrite Hreads in Hreached.
      change 50%Q with (inject_Z 50) in Hreached.
      rewrite reaches_whole in Hreached. lia.
Qed.

Lemma decrypts_stop_at_fifty_witness :
  let w := Concurrent.run_turns Sample.noteId (Sample.schedule 100)
             (Concurrent.launch 100 (Sample.created (JNumber 50))) in
  Concurrent.all_settled w = true /\
  Concurrent.responses w =
    Concurrent.counted 0 49 ++ [IncrementRoute.Ok true 50]
    ++ replicate 50 IncrementRoute.NotFound /\
  Concurrent.settles_at 50 Sample.noteId w.
Proof.
  intros w. split; [vm_compute; reflexivity|].
  destruct (decrypts_stop_at_fifty_in_one_process Sample.noteId (Sample.schedule 100)
              (Sample.created (JNumber 50))
              (NotesRoute.stored_row Sample.now (Sample.body (JNumber 50))) 0%nat
              ltac:(vm_compute; reflexivity) ltac:(reflexivity) ltac:(reflexivity)
              ltac:(lia))
    as [(_ & _ & Hend) _].
  apply Hend. vm_compute. reflexivity.
Defined.

(** C1, as the spec words it, fails when the statements of the calls
    interleave.  The 100 calls in lockstep on a new note with
    [maxReads = 50]: all read the note, all run their UPDATE, and the stored
    count is 100; then all read the note again, all find the limit reached,
    all delete, and all 100 answer [deleted: true] with the count 100. *)
Lemma interleaved_decrypts_pass_fifty :
  let db := Sample.created (JNumber 50) in
  let halfway :=
    Concurrent.run Sample.noteId (seq 0 100 ++ seq 0 100 ++ seq 0 100)
      (Concurrent.launch 100 db) in
  let w := Concurrent.run Sample.noteId (Sample.lockstep 100) (Concurrent.launch 100 db) in
  (exists row,
      Concurrent.table halfway !! Sample.noteId = Some row /\
      Db.col_maxReads row = Some 50%Q /\ Db.col_currentReads row = 100) /\
  Concurrent.all_settled w = true /\
  Concurrent.responses w = replicate 100 (IncrementRoute.Ok true 100) /\
  ~ Concurrent.settles_at 50 Sample.noteId w.
Proof.
  cbv zeta.
  assert (Concurrent.responses
            (Concurrent.run Sample.noteId (Sample.lockstep 100)
               (Concurrent.launch 100 (Sample.created (JNumber 50))))
          = replicate 100 (IncrementRoute.Ok true 100)) as Hanswers
    by (vm_compute; reflexivity).
  split; [|split; [vm_compute; reflexivity|split; [exact Hanswers|]]].
  - eexists. split; [vm_compute; reflexivity|]. by split.
  - intros (_ & Hhighest & _). rewrite Hanswers in Hhighest.
    vm_compute in Hhighest. discriminate.
Qed.

(** ** The codec *)

Section Codec.

Import Crypto.

Variable L : NaCl.

Lemma decryptMessage_body c n e s :
  decryptMessage L c n e s =
    match decrypt_body L c n e s with
    | inl cause => inl (decryption_failed cause)
    | inr text => inr text
    end.
Proof. reflexivity. Qed.

(** The [try] block either yields the reading of the opened bytes or
    throws for one of the seven reasons of [failure]. *)
Lemma decrypt_body_cases c n e s :
  match decrypt_body L c n e s with
  | inr text => opened_to L c n e s text
  | inl cause => failure L c n e s cause
  end.
Proof.
  unfold decrypt_body, and_then.
  destruct (decodeBase64 L c) as [err|cb] eqn:Hc; [by apply bad_ciphertext|].
  destruct (decodeBase64 L n) as [err|nb] eqn:Hn; [by apply bad_nonce|].
  destruct (decodeBase64 L e) as [err|eb] eqn:He; [by apply bad_ephemeralPublicKey|].
  destruct (decodeBase64 L s) as [err|sb] eqn:Hs; [by apply bad_secretKey|].
  destruct (box_open L cb nb eb sb) as [err|[opened|]] eqn:Hopen.
  - by eapply bad_length.
  - destruct (encodeUTF8 L opened) as [err|text] eqn:Htext.
    + by eapply not_utf8.
    + by exists cb, nb, eb, sb, opened.
  - by eapply not_authentic.
Qed.

(** When the box opens, the outcome is that of [encodeUTF8]. *)
Lemma decryptMessage_opened c n e s cb nb eb sb opened :
  decodeBase64 L c = inr cb -> decodeBase64 L n = inr nb ->
  decodeBase64 L e = inr eb -> decodeBase64 L s = inr sb ->
  box_open L cb nb eb sb = inr (Some opened) ->
  decryptMessage L c n e s =
    match encodeUTF8 L opened with
    | inl cause => inl (decryption_failed cause)
    | inr text => inr text
    end.
Proof.
  intros Hc Hn He Hs Hopen. rewrite decryptMessage_body.
  unfold decrypt_body, and_then. by rewrite Hc, Hn, He, Hs, Hopen.
Qed.

Lemma decryptMessage_rejected c n e s cb nb eb sb :
  decodeBase64 L c = inr cb -> decodeBase64 L n = inr nb ->
  decodeBase64 L e = inr eb -> decodeBase64 L s = inr sb ->
  box_open L cb nb eb sb = inr None ->
  decryptMessage L c n e s =
    inl (Error "Decryption failed: Error: Decryption failed - invalid key or corrupted data").
Proof.
  intros Hc Hn He Hs Hopen. rewrite decryptMessage_body.
  unfold decrypt_body, and_then. by rewrite Hc, Hn, He, Hs, Hopen.
Qed.

End Codec.

(** ** The round trip and the derivation, under the library's contract *)

Section Contract.

Import Crypto.

Variable L : NaCl.
Hypothesis laws : NaClLaws L.

Lemma encryptMessage_valid message messageBytes (K : KeyPair) (r : rng L) :
  valid_keypair L K ->
  decodeUTF8 L message = inr messageBytes ->
  exists ephemeral nonceBytes encrypted r',
    valid_keypair L ephemeral /\
    length nonceBytes = box_nonceLength L /\
    box L messageBytes nonceBytes (publicKey K) (secretKey ephemeral)
      = inr (Some encrypted) /\
    box_open L encrypted nonceBytes (publicKey ephemeral) (secretKey K)
      = inr (Some messageBytes) /\
    encryptMessage L message (encodeBase64 L (publicKey K)) r =
      (inr {| ciphertext := encodeBase64 L encrypted;
              nonce := encodeBase64 L nonceBytes;
              ephemeralPublicKey := encodeBase64 L (publicKey ephemeral) |}, r').
Proof.
  intros HK Hmsg. unfold encryptMessage.
  rewrite (base64_roundtrip L laws).
  destruct (keypair_sizes L laws K HK) as [Hpk _]. rewrite Hpk. cbn [Nat.eqb negb].
  pose proof (keyPair_valid L laws r) as Heph.
  destruct (box_keyPair L r) as [ephemeral r1]. cbn [fst] in Heph.
  pose proof (randomBytes_length L laws (box_nonceLength L) r1) as Hlen.
  destruct (randomBytes L (box_nonceLength L) r1) as [nonceBytes r2]. cbn [fst] in Hlen.
  destruct (box_open_box L laws messageBytes nonceBytes ephemeral K Heph HK Hlen)
    as (encrypted & Hbox & Hopen).
  exists ephemeral, nonceBytes, encrypted, r2.
  repeat split; try done.
  unfold and_then. by rewrite Hmsg, Hbox.
Qed.

Lemma keypair_of_signature_total signature :
  exists k, keypair_of_signature L signature = inr k.
Proof.
  unfold keypair_of_signature, and_then.
  destruct (fromSecretKey_32 L laws (take 32 (hash L signature))) as [k Hk].
  - rewrite length_take, (hash_length L laws). lia.
  - rewrite Hk. eauto.
Qed.

End Contract.

(** ** The stand-in instance keeps the contract *)

Section StandinLaws.

Import Crypto Standin.

Lemma byte_add_comm a b : byte_add a b = byte_add b a.
Proof. unfold byte_add. by rewrite Nat.add_comm. Qed.

Lemma shared_comm a b : shared a b = shared b a.
Proof.
  unfold shared. revert b. induction a as [|x a IH]; intros [|y b]; try done.
  cbn. by rewrite byte_add_comm, IH.
Qed.

Lemma bytes_eqb_refl a : bytes_eqb a a = true.
Proof.
  induction a as [|x a IH]; [done|]. cbn. by rewrite (Byte.byte_dec_lb eq_refl), IH.
Qed.

Lemma fromSecretKey_inv sk k :
  fromSecretKey sk = inr k ->
  length sk = 32%nat /\ k = {| publicKey := sk; secretKey := sk |}.
Proof.
  unfold fromSecretKey. destruct (Nat.eqb_spec (length sk) 32); [|done].
  by intros [= <-].
Qed.

Lemma standin_valid k :
  valid_keypair nacl k ->
  length (secretKey k) = 32%nat /\ publicKey k = secretKey k.
Proof.
  unfold valid_keypair. cbn. intros H.
  destruct (fromSecretKey_inv _ _ H) as [Hlen Hk]. split; [done|].
  by rewrite Hk at 1.
Qed.

Lemma box_open_head head m :
  (if bytes_eqb (take (length head) (head ++ m)) head
   then inr (Some (drop (length head) (head ++ m)))
   else inr None) = (inr (Some m) : js_error + option bytes).
Proof. by rewrite take_app_length, drop_app_length, bytes_eqb_refl. Qed.

Lemma standin_laws : NaClLaws nacl.
Proof.
  split.
  - intros b. exact (f_equal (@inr js_error _) (list_byte_of_string_of_list_byte b)).
  - intros s b. change (Standin.decodeUTF8 s = inr b -> Standin.encodeUTF8 b = inr s).
    unfold decodeUTF8, encodeUTF8.
    destruct (ascii_only (list_byte_of_string s)) eqn:Hs; [|done].
    intros [= <-]. by rewrite Hs, string_of_list_byte_of_string.
  - intros n r. cbn. by rewrite length_replicate.
  - intros r. reflexivity.
  - intros k Hk. destruct (standin_valid k Hk) as [Hlen Hpk]. by rewrite Hpk.
  - intros sk Hlen. cbn. unfold fromSecretKey. rewrite Hlen. cbn. eauto.
  - intros m n a b Ha Hb Hn. cbn in Hn.
    destruct (standin_valid a Ha) as [Hla Hpa], (standin_valid b Hb) as [Hlb Hpb].
    exists (shared (publicKey b) (secretKey a) ++ n ++ m). cbn.
    unfold box, box_open, sizes_ok.
    rewrite Hpa, Hpb, Hla, Hlb, Hn. cbn [Nat.eqb andb]. split; [done|].
    rewrite (shared_comm (secretKey a) (secretKey b)), app_assoc.
    apply box_open_head.
  - intros b. cbn. unfold hash.
    rewrite length_take, length_app, length_replicate. lia.
Qed.

End StandinLaws.

(** ** What decryptMessage returns and throws *)

(** C10. Whatever the four strings (and whatever the library does on them),
    [decryptMessage] either returns a text, and then the four fields were
    base64, the box opened and the text is the UTF-8 reading of the opened
    bytes; or it throws one [Error] whose message is "Decryption failed: "
    followed by the text of the cause, the cause being a field that is not
    base64, a wrong length, a failed authentication or bytes that are not
    UTF-8. *)
Theorem decryptMessage_returns_text_or_one_error
    (L : Crypto.NaCl) (ciphertext nonce ephemeralPublicKey recipientSecretKey : string) :
  (exists text,
      Crypto.decryptMessage L ciphertext nonce ephemeralPublicKey recipientSecretKey
        = inr text /\
      opened_to L ciphertext nonce ephemeralPublicKey recipientSecretKey text) \/
  (exists cause,
      Crypto.decryptMessage L ciphertext nonce ephemeralPublicKey recipientSecretKey
        = inl (Error ("Decryption failed: " +:+ error_to_string cause)) /\
      failure L ciphertext nonce ephemeralPublicKey recipientSecretKey cause /\
      String.prefix "Decryption failed"
        (message (Error ("Decryption failed: " +:+ error_to_string cause))) = true).
Proof.
  rewrite decryptMessage_body.
  pose proof (decrypt_body_cases L ciphertext nonce ephemeralPublicKey recipientSecretKey)
    as H.
  destruct (Crypto.decrypt_body L ciphertext nonce ephemeralPublicKey recipientSecretKey)
    as [cause|text].
  - right. exists cause. repeat split. exact H.
  - left. by exists text.
Qed.

(** C7, as amended.  When the box opens: if the opened bytes are not UTF-8,
    [decryptMessage] throws the same kind of error as for a failed
    authentication, an [Error] whose message is "Decryption failed: "
    followed by the text of what [encodeUTF8] threw; if they are, it returns
    their text. *)
Theorem invalid_utf8_is_a_decryption_failure
    (L : Crypto.NaCl) (ciphertext nonce ephemeralPublicKey secretKey : string)
    (c n e s opened : Crypto.bytes) :
  Crypto.decodeBase64 L ciphertext = inr c ->
  Crypto.decodeBase64 L nonce = inr n ->
  Crypto.decodeBase64 L ephemeralPublicKey = inr e ->
  Crypto.decodeBase64 L secretKey = inr s ->
  Crypto.box_open L c n e s = inr (Some opened) ->
  (forall cause,
      Crypto.encodeUTF8 L opened = inl cause ->
      Crypto.decryptMessage L ciphertext nonce ephemeralPublicKey secretKey
        = inl (Error ("Decryption failed: " +:+ error_to_string cause)) /\
      is_decryption_failed (Error ("Decryption failed: " +:+ error_to_string cause))
        = true) /\
  (forall text,
      Crypto.encodeUTF8 L opened = inr text ->
      Crypto.decryptMessage L ciphertext nonce ephemeralPublicKey secretKey = inr text).
Proof.
  intros Hc Hn He Hs Hopen.
  rewrite (decryptMessage_opened L _ _ _ _ _ _ _ _ _ Hc Hn He Hs Hopen).
  split.
  - intros cause ->. by split.
  - by intros text ->.
Qed.

Lemma invalid_utf8_is_a_decryption_failure_witness :
  Crypto.decryptMessage Standin.nacl (Sample.wire Sample.sealed) (Sample.wire Sample.nonce)
    (Sample.wire Sample.ephemeral) (Sample.wire Sample.secret)
  = inl (Error "Decryption failed: URIError: URI malformed").
Proof.
  destruct (invalid_utf8_is_a_decryption_failure Standin.nacl
           (Sample.wire Sample.sealed) (Sample.wire Sample.nonce)
           (Sample.wire Sample.ephemeral) (Sample.wire Sample.secret)
           Sample.sealed Sample.nonce Sample.ephemeral Sample.secret [xff]
           ltac:(vm_compute; reflexivity) ltac:(vm_compute; reflexivity)
           ltac:(vm_compute; reflexivity) ltac:(vm_compute; reflexivity)
           ltac:(vm_compute; reflexivity)) as [Hbad _].
  destruct (Hbad Standin.uri_malformed ltac:(vm_compute; reflexivity)) as [Hthrown _].
  exact Hthrown.
Defined.

(** C7, as the spec words it, fails: a box that opens to the byte 0xff, which
    is not UTF-8, makes [decryptMessage] throw an [Error] whose message
    starts with "Decryption failed", the class and message head of the
    authentication failure that the same call gives on a tampered box. *)
Lemma invalid_encoding_is_not_distinct :
  Crypto.box_open Standin.nacl Sample.sealed Sample.nonce Sample.ephemeral Sample.secret
    = inr (Some [xff]) /\
  Crypto.encodeUTF8 Standin.nacl [xff] = inl Standin.uri_malformed /\
  Crypto.decryptMessage Standin.nacl (Sample.wire Sample.sealed) (Sample.wire Sample.nonce)
    (Sample.wire Sample.ephemeral) (Sample.wire Sample.secret)
    = inl (Error "Decryption failed: URIError: URI malformed") /\
  Crypto.decryptMessage Standin.nacl (Sample.wire (x00 :: Sample.sealed))
    (Sample.wire Sample.nonce) (Sample.wire Sample.ephemeral) (Sample.wire Sample.secret)
    = inl (Error "Decryption failed: Error: Decryption failed - invalid key or corrupted data") /\
  ~ invalid_encoding_is_distinct Standin.nacl.
Proof.
  assert (Hthrown :
    Crypto.decryptMessage Standin.nacl (Sample.wire Sample.sealed) (Sample.wire Sample.nonce)
      (Sample.wire Sample.ephemeral) (Sample.wire Sample.secret)
    = inl (Error "Decryption failed: URIError: URI malformed"))
    by (vm_compute; reflexivity).
  repeat split; try (vm_compute; reflexivity).
  intros Hdistinct.
  specialize (Hdistinct (Sample.wire Sample.sealed) (Sample.wire Sample.nonce)
    (Sample.wire Sample.ephemeral) (Sample.wire Sample.secret)
    Sample.sealed Sample.nonce Sample.ephemeral Sample.secret [xff] Standin.uri_malformed
    (Error "Decryption failed: URIError: URI malformed")
    ltac:(vm_compute; reflexivity) ltac:(vm_compute; reflexivity)
    ltac:(vm_compute; reflexivity) ltac:(vm_compute; reflexivity)
    ltac:(vm_compute; reflexivity) ltac:(vm_compute; reflexivity) Hthrown).
  vm_compute in Hdistinct. discriminate.
Qed.

(** ** Another key, a flipped bit *)

Section X25519Laws.

Import Crypto Standin X25519.

Lemma length_mask pk : length (mask pk) = length pk.
Proof. unfold mask. by rewrite length_alter. Qed.




(** Flipping the lowest bit of a secret key changes nothing after clamping. *)
Lemma clamp_flip_low sk : clamp (flip_bit 0 sk) = clamp sk.
Proof.
  unfold clamp, flip_bit. change (0 `div` 8)%nat with 0%nat. f_equal.
  rewrite list_alter_alter_eq. apply list_alter_ext; [|done]. intros x _. by destruct x.
Qed.





End X25519Laws.

Section Rejection.

Variable L : Crypto.NaCl.
Hypothesis laws : Crypto.NaClLaws L.




End Rejection.





(** ** Round trip and key derivation *)

(** C4. For a library that keeps its contract, every message that has a
    UTF-8 encoding and every key pair the library accepts (32-byte halves):
    [encryptMessage] to the public key succeeds, whatever the random state,
    and [decryptMessage] of the payload with the secret key returns the
    message. *)
Theorem decrypt_of_encrypt_is_the_message
    (L : Crypto.NaCl) (laws : Crypto.NaClLaws L)
    (message : string) (K : Crypto.KeyPair) (r : Crypto.rng L) :
  Crypto.valid_keypair L K ->
  (exists messageBytes, Crypto.decodeUTF8 L message = inr messageBytes) ->
  exists payload r',
    Crypto.encryptMessage L message (Crypto.encodeBase64 L (Crypto.publicKey K)) r
      = (inr payload, r') /\
    Crypto.decryptMessage L
      (Crypto.ciphertext payload) (Crypto.nonce payload)
      (Crypto.ephemeralPublicKey payload)
      (Crypto.encodeBase64 L (Crypto.secretKey K)) = inr message.
Proof.
  intros HK [messageBytes Hmsg].
  destruct (encryptMessage_valid L laws message messageBytes K r HK Hmsg)
    as (ephemeral & nonceBytes & encrypted & r' & _ & _ & _ & Hopen & Henc).
  eexists _, r'. split; [exact Henc|]. cbn [Crypto.ciphertext Crypto.nonce
    Crypto.ephemeralPublicKey].
  rewrite (decryptMessage_opened L _ _ _ _ encrypted nonceBytes
             (Crypto.publicKey ephemeral) (Crypto.secretKey K) messageBytes);
    try apply (Crypto.base64_roundtrip L laws); [|exact Hopen].
  by rewrite (Crypto.utf8_roundtrip L laws _ _ Hmsg).
Qed.

Lemma decrypt_of_encrypt_witness :
  Crypto.valid_keypair Standin.nacl Sample.keys /\
  exists payload r',
    Crypto.encryptMessage Standin.nacl "burn after reading"
      (Crypto.encodeBase64 Standin.nacl (Crypto.publicKey Sample.keys)) 7%nat
      = (inr payload, r') /\
    Crypto.decryptMessage Standin.nacl
      (Crypto.ciphertext payload) (Crypto.nonce payload)
      (Crypto.ephemeralPublicKey payload)
      (Crypto.encodeBase64 Standin.nacl (Crypto.secretKey Sample.keys))
    = inr "burn after reading".
Proof.
  split; [reflexivity|].
  apply (decrypt_of_encrypt_is_the_message Standin.nacl standin_laws
           "burn after reading" Sample.keys 7%nat);
    [reflexivity | eexists; vm_compute; reflexivity].
Defined.

(** C6. With a signing capability that returns the same signature for the
    challenge on both invocations, whatever state the wallet is in, the two
    invocations of [deriveEncryptionKeyFromSignature] with the same address
    resolve to the same key pair, and that key pair is
    [keypair_of_signature] of the signature: hash, first 32 bytes,
    [fromSecretKey], base64. *)
Theorem derivation_depends_on_signature_only
    (L : Crypto.NaCl) (laws : Crypto.NaClLaws L) {W : Type}
    (signMessage : Crypto.bytes -> W -> (js_error + Crypto.bytes) * W)
    (walletAddress : string) (challenge signature : Crypto.bytes) (w1 w2 : W) :
  Crypto.decodeUTF8 L ("DarkNote encryption key for " +:+ walletAddress) = inr challenge ->
  fst (signMessage challenge w1) = inr signature ->
  fst (signMessage challenge w2) = inr signature ->
  exists keypair,
    Crypto.keypair_of_signature L signature = inr keypair /\
    fst (Crypto.deriveEncryptionKeyFromSignature L signMessage walletAddress w1)
      = inr keypair /\
    fst (Crypto.deriveEncryptionKeyFromSignature L signMessage walletAddress w2)
      = inr keypair.
Proof.
  intros Hchallenge H1 H2.
  destruct (keypair_of_signature_total L laws signature) as [keypair Hk].
  exists keypair. split; [exact Hk|].
  unfold Crypto.deriveEncryptionKeyFromSignature. rewrite Hchallenge.
  destruct (signMessage challenge w1) as [s1 w1'], (signMessage challenge w2) as [s2 w2'].
  cbn [fst] in *. subst s1 s2. split; exact Hk.
Qed.

Lemma derivation_witness :
  exists keypair,
    Crypto.keypair_of_signature Standin.nacl
      (list_byte_of_string "DarkNote encryption key for 7xKX"
       ++ list_byte_of_string "DarkNote encryption key for 7xKX") = inr keypair /\
    fst (Crypto.deriveEncryptionKeyFromSignature Standin.nacl Standin.signer "7xKX" 0%nat)
      = inr keypair /\
    fst (Crypto.deriveEncryptionKeyFromSignature Standin.nacl Standin.signer "7xKX" 5%nat)
      = inr keypair.
Proof.
  apply (derivation_depends_on_signature_only Standin.nacl standin_laws Standin.signer
           "7xKX" (list_byte_of_string "DarkNote encryption key for 7xKX"));
    vm_compute; reflexivity.
Defined.

(** ** The store, function by function *)

(** X1. [deleteNote] removes the row of the id and no other, and answers
    whether there was one; a second call answers [false] and changes
    nothing. *)
Theorem deleteNote_twice id (db : Db.Table) :
  let '(first, db1) := Db.deleteNote id db in
  let '(second, db2) := Db.deleteNote id db1 in
  (first = true <-> is_Some (db !! id)) /\
  db1 !! id = None /\
  (forall other, other <> id -> db1 !! other = db !! other) /\
  second = false /\
  db2 = db1.
Proof.
  unfold Db.deleteNote. repeat split.
  - intros H. by apply bool_decide_eq_true in H.
  - intros H. by apply bool_decide_eq_true.
  - apply lookup_delete_eq.
  - intros other Hne. by apply lookup_delete_ne.
  - apply bool_decide_eq_false. rewrite lookup_delete_eq. by intros [? ?].
  - apply delete_id, lookup_delete_eq.
Qed.

Lemma size_filter_split (now age : Z) (db : Db.Table) :
  size db
  = Nat.add (size (filter (fun kv => expired now age (snd kv)) db))
            (size (filter (fun kv => now - age <= Db.col_createdAt (snd kv)) db)).
Proof.
  rewrite <- map_size_disj_union.
  - f_equal. apply map_eq. intros id.
    destruct (db !! id) as [row|] eqn:Hrow.
    + destruct (decide (expired now age row)) as [Hold|Hnew].
      * symmetry. apply lookup_union_Some_l, map_lookup_filter_Some. by split.
      * symmetry. rewrite lookup_union_r.
        -- apply map_lookup_filter_Some. split; [done|]. unfold expired in Hnew. cbn. lia.
        -- apply map_lookup_filter_None. right. intros row' Hrow'.
           rewrite Hrow in Hrow'. injection Hrow' as <-. done.
    + symmetry. apply lookup_union_None. split; apply map_lookup_filter_None; left; done.
  - apply map_disjoint_spec. intros id r1 r2 H1 H2.
    apply map_lookup_filter_Some in H1 as [H1 Hold], H2 as [H2 Hnew].
    rewrite H1 in H2. injection H2 as <-. unfold expired in Hold. cbn in *. lia.
Qed.

(** X2. [deleteOldNotes] keeps exactly the rows created at or after
    [now - maxAgeMs], unchanged, and returns the number of rows it removed.
    With the default age a note created 31 days ago goes and one created 29
    days ago, or exactly 30 days ago, stays.  A second run at the same time
    removes nothing. *)
Theorem deleteOldNotes_removes_the_old (now maxAgeMs : Z) (db : Db.Table) :
  let '(removed, db') := Db.deleteOldNotes now maxAgeMs db in
  (forall id row,
      db' !! id = Some row <-> db !! id = Some row /\ ~ expired now maxAgeMs row) /\
  removed = Z.of_nat (size (filter (fun kv => expired now maxAgeMs (snd kv)) db)) /\
  Db.deleteOldNotes now maxAgeMs db' = (0, db') /\
  (forall row,
      Db.col_createdAt row = now - 31 * 24 * 60 * 60 * 1000 ->
      expired now Db.default_maxAgeMs row) /\
  (forall row,
      now - 30 * 24 * 60 * 60 * 1000 <= Db.col_createdAt row ->
      ~ expired now Db.default_maxAgeMs row).
Proof.
  unfold Db.deleteOldNotes. cbn zeta.
  split; [|split; [|split; [|split]]].
  - intros id row. rewrite map_lookup_filter_Some. unfold expired. cbn. split.
    + intros [H Hnew]. split; [done | lia].
    + intros [H Hnew]. split; [done | lia].
  - rewrite (size_filter_split now maxAgeMs db), Nat2Z.inj_add. ring.
  - rewrite (map_filter_id _ (filter _ db)); [by rewrite Z.sub_diag|].
    intros id row H. by apply map_lookup_filter_Some in H as [_ H].
  - intros row H. unfold expired, Db.default_maxAgeMs. lia.
  - intros row H. unfold expired, Db.default_maxAgeMs. lia.
Qed.

Lemma selfDestruct_back (b : bool) : ((if b then 1 else 0) =? 1) = b.
Proof. by destruct b. Qed.

(** X3. [createNote] on a free id stores the note with no reads and the
    creation time, returns it, and [getNote] reads the same note back
    ([selfDestruct] goes through the INTEGER column and comes back); no other
    row changes.  On an id that is taken it throws and the stored note stays
    as it was. *)
Theorem createNote_then_getNote (now : Z) (note : Db.NewNote) (db : Db.Table) :
  let id := Db.new_id note in
  let '(result, db') := Db.createNote now note db in
  match db !! id with
  | None =>
      let created :=
        {| Db.id := id;
           Db.ciphertext := Db.new_ciphertext note;
           Db.nonce := Db.new_nonce note;
           Db.ephemeralPublicKey := Db.new_ephemeralPublicKey note;
           Db.recipientAddress := Db.new_recipientAddress note;
           Db.createdAt := now;
           Db.selfDestruct := Db.new_selfDestruct note;
           Db.maxReads := Db.new_maxReads note;
           Db.currentReads := 0 |} in
      result = inr created /\
      Db.getNote id db' = Some created /\
      (forall other, other <> id -> Db.getNote other db' = Db.getNote other db)
  | Some _ =>
      result = inl Db.constraint_error /\ db' = db
  end.
Proof.
  cbn zeta. unfold Db.createNote.
  destruct (db !! Db.new_id note) as [row|] eqn:Hid; [done|].
  split; [done|]. split.
  - unfold Db.getNote. rewrite lookup_insert_eq. cbn. unfold Db.note_of_row. cbn.
    by rewrite selfDestruct_back.
  - intros other Hne. unfold Db.getNote. by rewrite lookup_insert_ne.
Qed.

Lemma with_reads_0 row : with_reads 0 row = row.
Proof. destruct row. unfold with_reads. cbn. f_equal. lia. Qed.

(** X4. [incrementReadCount] on a missing id answers [false] and leaves the
    table alone.  On a stored id it answers [true], and [n] calls in a row
    leave every row and every column as they were except [currentReads] of
    that row, which is [n] higher. *)
Theorem incrementReadCount_adds_up id (db : Db.Table) :
  match db !! id with
  | None => Db.incrementReadCount id db = (false, db)
  | Some row =>
      fst (Db.incrementReadCount id db) = true /\
      forall n, increment_times n id db = <[id := with_reads (Z.of_nat n) row]> db
  end.
Proof.
  destruct (db !! id) as [row|] eqn:Hrow.
  - split.
    + unfold Db.incrementReadCount. cbn. apply bool_decide_eq_true. by rewrite Hrow.
    + induction n as [|n IH].
      * cbn. by rewrite with_reads_0, insert_id.
      * unfold increment_times in *. rewrite Nat.iter_succ, IH.
        rewrite (increment_insert id _ (with_reads (Z.of_nat n) row))
          by apply lookup_insert_eq.
        rewrite insert_insert_eq, with_reads_bump. do 2 f_equal. lia.
  - unfold Db.incrementReadCount. f_equal.
    + apply bool_decide_eq_false. rewrite Hrow. by intros [? ?].
    + apply map_eq. intros j. destruct (decide (id = j)) as [->|Hne].
      * by rewrite lookup_alter_eq, Hrow.
      * by rewrite lookup_alter_ne.
Qed.

(** X5. [registerKey] is an upsert: the key registered last for a wallet is
    the one [getRegisteredKey] returns, with the time of that registration;
    an earlier registration of the same wallet leaves no trace, and the keys
    of other wallets are not touched. *)
Theorem registerKey_last_write_wins
    (wallet key1 key2 : string) (now1 now2 : Z) (keys : Db.KeyTable) :
  let new1 := {| Db.new_walletAddress := wallet; Db.new_encryptionPublicKey := key1 |} in
  let new2 := {| Db.new_walletAddress := wallet; Db.new_encryptionPublicKey := key2 |} in
  let '(registered1, keys1) := Db.registerKey now1 new1 keys in
  let '(registered2, keys2) := Db.registerKey now2 new2 keys1 in
  Db.getRegisteredKey wallet keys1 = Some registered1 /\
  Db.getRegisteredKey wallet keys2 = Some registered2 /\
  registered2 =
    {| Db.walletAddress := wallet; Db.encryptionPublicKey := key2;
       Db.registeredAt := now2 |} /\
  keys2 = snd (Db.registerKey now2 new2 keys) /\
  (forall other, other <> wallet ->
     Db.getRegisteredKey other keys2 = Db.getRegisteredKey other keys).
Proof.
  cbn. unfold Db.getRegisteredKey. rewrite !lookup_insert_eq. repeat split.
  - by rewrite insert_insert_eq.
  - intros other Hne. by rewrite !lookup_insert_ne.
Qed.

(** ** The routes, handler by handler *)

Lemma insertion_typed host now body :
  NotesRoute.typed body = true ->
  insertion host now body
  = Some (NotesRoute.text (NotesRoute.id body), NotesRoute.stored_row now body).
Proof. intros Htyped. unfold insertion. by rewrite (bound_typed _ _ Htyped). Qed.

(** The three answers of the create handler, with the table each leaves. *)
Lemma create_POST_cases host (now : Z) (body : NotesRoute.Body) (db : Db.Table) :
  (NotesRoute.acceptable host body = true /\
   exists id row,
     insertion host now body = Some (id, row) /\ db !! id = None /\
     NotesRoute.POST host now (NotesRoute.Fields body) db
     = (NotesRoute.Success (NotesRoute.id body), <[id := row]> db)) \/
  (NotesRoute.acceptable host body = false /\
   exists error,
     NotesRoute.POST host now (NotesRoute.Fields body) db
     = (NotesRoute.BadRequest error, db)) \/
  (NotesRoute.acceptable host body = true /\
   (insertion host now body = None \/
    exists id row, insertion host now body = Some (id, row) /\ is_Some (db !! id)) /\
   NotesRoute.POST host now (NotesRoute.Fields body) db
   = (NotesRoute.ServerError "Failed to create note", db)).
Proof.
  destruct (NotesRoute.acceptable host body) eqn:Hacc.
  - destruct (acceptable_checks _ _ Hacc) as (Hmiss & Hpk & Hlen & Hmax).
    unfold NotesRoute.POST, insertion.
    rewrite Hmiss, Hpk, Hlen, Hmax. cbn [negb].
    destruct (bound _ _) as [[|i [|c [|n [|e [|r [|]]]]]]|];
      try (right; right; split; [done|]; split; [by left | done]).
    unfold Db.createNote. cbn [Db.new_id].
    destruct (db !! i) as [old|] eqn:Hid.
    + right. right. split; [done|]. split; [|done]. right. by eauto.
    + left. split; [done|]. by eauto.
  - right. left. split; [done|].
    unfold NotesRoute.acceptable in Hacc. unfold NotesRoute.POST.
    destruct (_ || json_missing (NotesRoute.recipientAddress body)); [by eauto|].
    destruct (validPublicKey host _); [|by eauto].
    destruct (NotesRoute.too_long _ _); [by eauto|].
    destruct (NotesRoute.invalid_maxReads _); [by eauto|]. discriminate.
Qed.

(** X6. The create handler answers 500 to a body that is not JSON or is
    [null], and writes nothing.  Otherwise it answers 200 only for a body
    that passes its four checks, whose fields the driver binds and whose id
    is free, and then stores exactly one new row under that id; for a body
    whose five fields are strings the id and the row are those of the body.
    A body that fails a check gets a 400; a body that passes them gets a 500
    when the driver throws or the id is taken.  Whenever the answer is not
    200 the table is left as it was, so a stored note is never
    overwritten. *)
Theorem create_writes_only_on_success host (now : Z) (request : NotesRoute.Request)
    (db : Db.Table) :
  let '(response, db') := NotesRoute.POST host now request db in
  match request with
  | NotesRoute.Malformed | NotesRoute.Null =>
      response = NotesRoute.ServerError "Failed to create note" /\ db' = db
  | NotesRoute.Fields body =>
      (NotesRoute.typed body = true ->
       insertion host now body
       = Some (NotesRoute.text (NotesRoute.id body), NotesRoute.stored_row now body)) /\
      match response with
      | NotesRoute.Success noteId =>
          noteId = NotesRoute.id body /\ NotesRoute.acceptable host body = true /\
          exists id row,
            insertion host now body = Some (id, row) /\ db !! id = None /\
            db' = <[id := row]> db
      | NotesRoute.BadRequest _ =>
          NotesRoute.acceptable host body = false /\ db' = db
      | NotesRoute.ServerError error =>
          error = "Failed to create note" /\
          NotesRoute.acceptable host body = true /\
          (insertion host now body = None \/
           exists id row, insertion host now body = Some (id, row) /\ is_Some (db !! id)) /\
          db' = db
      end
  end.
Proof.
  destruct request as [| |body]; [done..|].
  destruct (create_POST_cases host now body db)
    as [(Hacc & id & row & Hins & Hfree & ->)
       |[(Hacc & error & ->)|(Hacc & Hwhy & ->)]];
    (split; [apply insertion_typed|]); [|done..].
  split; [done|]. split; [done|]. by exists id, row.
Qed.

(** The size check counts UTF-16 units, not bytes: a ciphertext of 50001
    times U+00E9, which is 100002 bytes, passes it, and one of 100001 times
    the letter a does not. *)
Lemma too_long_counts_units host :
  NotesRoute.too_long host
    (JString (string_of_list_byte (concat (replicate (Z.to_nat 50001) [xc3; xa9])))) = false /\
  NotesRoute.too_long host
    (JString (string_of_list_byte (replicate (Z.to_nat 100001) x61))) = true.
Proof. split; vm_compute; reflexivity. Qed.

Lemma acceptable_with_maxReads host v body :
  NotesRoute.acceptable host (with_maxReads JNull body) = true ->
  NotesRoute.acceptable host (with_maxReads v body)
  = negb (NotesRoute.invalid_maxReads (with_default JNull v)).
Proof.
  unfold NotesRoute.acceptable, with_maxReads. cbn.
  intros H. rewrite andb_true_r in H. by rewrite H.
Qed.

Lemma allowed_maxReads_valid v :
  allowed_maxReads v <-> NotesRoute.invalid_maxReads (with_default JNull v) = false.
Proof.
  destruct v as [| | |q| |]; cbn; try tauto; try (split; [done | discriminate]).
  rewrite orb_false_iff, !negb_false_iff, !Qle_bool_iff. tauto.
Qed.

(** X7. For a body whose five fields are strings that pass the checks and
    whose id is free: with no [maxReads], [null], or a number from 1 to
    1000, whole or not, the note is stored, with that limit (none for a
    missing or [null] field); with any other value (0, 1001, a negative
    number, a string, a boolean, an object) the handler answers 400
    "Invalid maxReads value" and stores nothing. *)
Theorem create_checks_maxReads host (now : Z) (body : NotesRoute.Body) (v : json)
    (db : Db.Table) :
  NotesRoute.acceptable host (with_maxReads JNull body) = true ->
  NotesRoute.typed body = true ->
  db !! NotesRoute.text (NotesRoute.id body) = None ->
  let id := NotesRoute.text (NotesRoute.id body) in
  (allowed_maxReads v ->
   exists row,
     NotesRoute.POST host now (NotesRoute.Fields (with_maxReads v body)) db
       = (NotesRoute.Success (JString id), <[id := row]> db) /\
     Db.col_maxReads row = match v with JNumber q => Some q | _ => None end /\
     Db.col_currentReads row = 0) /\
  (~ allowed_maxReads v ->
   NotesRoute.POST host now (NotesRoute.Fields (with_maxReads v body)) db
     = (NotesRoute.BadRequest "Invalid maxReads value", db)).
Proof.
  intros Hacc Htyped Hfree id.
  pose proof (acceptable_with_maxReads host v body Hacc) as Hv.
  split.
  - intros Hallowed. apply allowed_maxReads_valid in Hallowed.
    rewrite Hallowed in Hv. cbn in Hv.
    exists (NotesRoute.stored_row now (with_maxReads v body)).
    split; [|split].
    + by rewrite (create_POST_accepted host now (with_maxReads v body) db Hv Htyped Hfree).
    + by destruct v.
    + reflexivity.
  - intros Hbad.
    assert (NotesRoute.invalid_maxReads (with_default JNull v) = true) as Hinv.
    { destruct (NotesRoute.invalid_maxReads _) eqn:E; [done|].
      by apply allowed_maxReads_valid in E. }
    destruct (acceptable_checks _ _ Hacc) as (Hmiss & Hpk & Hlen & _).
    unfold NotesRoute.POST, with_maxReads in *. cbn in *.
    by rewrite Hmiss, Hpk, Hlen, Hinv.
Qed.

Lemma create_checks_maxReads_witness :
  NotesRoute.POST Sample.host Sample.now
    (NotesRoute.Fields (with_maxReads (JNumber 1001) (Sample.body JNull))) ∅
  = (NotesRoute.BadRequest "Invalid maxReads value", ∅) /\
  (exists row,
    NotesRoute.POST Sample.host Sample.now
      (NotesRoute.Fields (with_maxReads (JNumber 1000) (Sample.body JNull))) ∅
    = (NotesRoute.Success (JString Sample.noteId), <[Sample.noteId := row]> ∅) /\
    Db.col_maxReads row = Some 1000%Q /\ Db.col_currentReads row = 0) /\
  (exists row,
    NotesRoute.POST Sample.host Sample.now
      (NotesRoute.Fields (with_maxReads (JNumber (3 # 2)) (Sample.body JNull))) ∅
    = (NotesRoute.Success (JString Sample.noteId), <[Sample.noteId := row]> ∅) /\
    Db.col_maxReads row = Some (3 # 2) /\ Db.col_currentReads row = 0).
Proof.
  split; [|split].
  - apply (create_checks_maxReads Sample.host Sample.now (Sample.body JNull)
             (JNumber 1001) ∅); [reflexivity | reflexivity | reflexivity |].
    intros [_ H]. by vm_compute in H.
  - apply (create_checks_maxReads Sample.host Sample.now (Sample.body JNull)
             (JNumber 1000) ∅); [reflexivity | reflexivity | reflexivity |].
    split; by vm_compute.
  - apply (create_checks_maxReads Sample.host Sample.now (Sample.body JNull)
             (JNumber (3 # 2)) ∅); [reflexivity | reflexivity | reflexivity |].
    split; by vm_compute.
Defined.

Lemma stored_row_not_reached host now body :
  NotesRoute.acceptable host body = true ->
  row_reached 0 (NotesRoute.stored_row now body) = false.
Proof.
  intros Hacc. destruct (acceptable_checks _ _ Hacc) as (_ & _ & _ & Hmax).
  unfold row_reached, NotesRoute.stored_row. cbn.
  destruct (NotesRoute.maxReads_value _) as [m|] eqn:Hm; [|done].
  destruct (valid_maxReads_range _ _ Hmax Hm) as [H1 _].
  destruct (reaches 0 m) eqn:Hreach; [|done].
  apply reaches_spec in Hreach. exfalso.
  apply (Qle_not_lt _ _ (Qle_trans _ _ _ H1 Hreach)). reflexivity.
Qed.

(** X8. A note that the create handler has just stored for a body whose
    five fields are strings is fetched by the
    GET handler with the fields of the request body, no reads,
    [selfDestruct] true unless the body said otherwise, and the limit of the
    body; fetching it changes nothing. *)
Theorem create_then_fetch host (now : Z) (body : NotesRoute.Body) (db : Db.Table) :
  NotesRoute.acceptable host body = true ->
  NotesRoute.typed body = true ->
  db !! NotesRoute.text (NotesRoute.id body) = None ->
  let id := NotesRoute.text (NotesRoute.id body) in
  let db' := snd (NotesRoute.POST host now (NotesRoute.Fields body) db) in
  NoteRoute.GET id db' =
    (NoteRoute.Found
       {| NoteRoute.id := id;
          NoteRoute.ciphertext := NotesRoute.text (NotesRoute.ciphertext body);
          NoteRoute.nonce := NotesRoute.text (NotesRoute.nonce body);
          NoteRoute.ephemeralPublicKey :=
            NotesRoute.text (NotesRoute.ephemeralPublicKey body);
          NoteRoute.recipientAddress :=
            NotesRoute.text (NotesRoute.recipientAddress body);
          NoteRoute.selfDestruct :=
            truthy (with_default (JBool true) (NotesRoute.selfDestruct body));
          NoteRoute.maxReads :=
            NotesRoute.maxReads_value (with_default JNull (NotesRoute.maxReads body));
          NoteRoute.currentReads := 0 |},
     db').
Proof.
  intros Hacc Htyped Hfree id db'. subst db'.
  rewrite (create_POST_accepted _ _ _ _ Hacc Htyped Hfree). cbn [snd]. fold id.
  rewrite (GET_present id _ (NotesRoute.stored_row now body)) by apply lookup_insert_eq.
  change (Db.col_currentReads (NotesRoute.stored_row now body)) with 0.
  rewrite (stored_row_not_reached host now body Hacc).
  unfold NoteRoute.view_of, Db.note_of_row, NotesRoute.stored_row. cbn.
  by rewrite selfDestruct_back.
Qed.

Lemma create_then_fetch_witness :
  exists v,
    NoteRoute.GET Sample.noteId (Sample.created (JNumber 3))
    = (NoteRoute.Found v, Sample.created (JNumber 3)) /\
    NoteRoute.selfDestruct v = true /\ NoteRoute.maxReads v = Some 3%Q /\
    NoteRoute.currentReads v = 0.
Proof.
  eexists. split.
  - apply (create_then_fetch Sample.host Sample.now (Sample.body (JNumber 3)) ∅);
      reflexivity.
  - repeat split.
Defined.

(** X9. Fetching twice is the same as fetching once: the second GET gives
    the answer of the first and leaves the table the first one left. *)
Theorem fetch_twice id (db : Db.Table) :
  let '(first, db1) := NoteRoute.GET id db in
  NoteRoute.GET id db1 = (first, db1).
Proof.
  destruct (db !! id) as [row|] eqn:Hrow.
  - rewrite (GET_present _ _ _ Hrow).
    destruct (row_reached _ row) eqn:Hr.
    + apply GET_absent, lookup_delete_eq.
    + by rewrite (GET_present _ _ _ Hrow), Hr.
  - rewrite (GET_absent _ _ Hrow). by apply GET_absent.
Qed.

(** X10. The DELETE handler answers 200 when the note was stored and 404
    when it was not, and touches no other note.  After it, whatever it
    answered, the GET, the increment and the DELETE handler all answer 404
    for that id and write nothing. *)
Theorem after_DELETE_every_route_is_not_found id (db : Db.Table) :
  let '(response, db1) := NoteRoute.DELETE id db in
  (response = NoteRoute.NoteDeleted <-> is_Some (db !! id)) /\
  (forall other, other <> id -> db1 !! other = db !! other) /\
  NoteRoute.GET id db1 = (NoteRoute.NotFound, db1) /\
  IncrementRoute.POST id db1 = (IncrementRoute.NotFound, db1) /\
  NoteRoute.DELETE id db1 = (NoteRoute.DeleteNotFound, db1).
Proof.
  assert (Hgone : delete id db !! id = None) by apply lookup_delete_eq.
  assert (Hrest : NoteRoute.GET id (delete id db) = (NoteRoute.NotFound, delete id db) /\
                  IncrementRoute.POST id (delete id db)
                    = (IncrementRoute.NotFound, delete id db) /\
                  NoteRoute.DELETE id (delete id db)
                    = (NoteRoute.DeleteNotFound, delete id db)).
  { split; [by apply GET_absent|]. split; [by apply increment_POST_absent|].
    rewrite (DELETE_absent _ _ Hgone). by rewrite delete_id. }
  assert (Hother : forall other, other <> id -> delete id db !! other = db !! other)
    by (intros other Hne; by apply lookup_delete_ne).
  destruct (db !! id) as [row|] eqn:Hrow.
  - rewrite (DELETE_present _ _ _ Hrow). split; [|by split].
    split; [by eauto | done].
  - rewrite (DELETE_absent _ _ Hrow). split; [|by split].
    split; [discriminate | by intros [? ?]].
Qed.

(** ** The key directory *)

Section KeyRoutes.

Variable host : Platform.

Lemma registration_typed body :
  RegisterRoute.typed body = true ->
  registration host body
  = Some (json_text (RegisterRoute.walletAddress body),
          json_text (RegisterRoute.encryptionPublicKey body)).
Proof.
  unfold RegisterRoute.typed, registration, bound. cbn [forallb].
  intros H. apply andb_prop in H as [-> ->]. done.
Qed.

Lemma typed_walletAddress body :
  RegisterRoute.typed body = true ->
  RegisterRoute.walletAddress body
  = JString (json_text (RegisterRoute.walletAddress body)).
Proof.
  unfold RegisterRoute.typed. intros H. apply andb_prop in H as [H _].
  by destruct (RegisterRoute.walletAddress body).
Qed.

(** The three answers of the register handler, with the directory each
    leaves. *)
Lemma register_POST_cases now body (keys : Db.KeyTable) :
  (exists wallet key bytes,
      registration host body = Some (wallet, key) /\
      RegisterRoute.POST host now (RegisterRoute.Fields body) keys
      = (RegisterRoute.Success (RegisterRoute.walletAddress body) now,
         <[wallet := {| Db.col_encryptionPublicKey := key;
                        Db.col_registeredAt := now |}]> keys) /\
      json_missing (RegisterRoute.walletAddress body) = false /\
      json_missing (RegisterRoute.encryptionPublicKey body) = false /\
      validPublicKey host (RegisterRoute.walletAddress body) = true /\
      RegisterRoute.decoded host (RegisterRoute.encryptionPublicKey body) = Some bytes /\
      length bytes = 32%nat) \/
  (exists error,
      RegisterRoute.POST host now (RegisterRoute.Fields body) keys
      = (RegisterRoute.BadRequest error, keys)) \/
  (registration host body = None /\
   RegisterRoute.POST host now (RegisterRoute.Fields body) keys
   = (RegisterRoute.ServerError "Failed to register key", keys)).
Proof.
  unfold RegisterRoute.POST, registration.
  destruct (json_missing (RegisterRoute.walletAddress body)) eqn:Hw;
    [right; left; eauto|].
  destruct (json_missing (RegisterRoute.encryptionPublicKey body)) eqn:Hk;
    [right; left; eauto|].
  cbn [orb].
  destruct (validPublicKey host _) eqn:Hvalid; [|right; left; eauto]. cbn [negb].
  destruct (RegisterRoute.decoded host _) as [bytes|] eqn:Hbytes;
    [|right; left; eauto].
  destruct (Nat.eqb_spec (length bytes) 32) as [Hlen|Hlen];
    [|right; left; eauto].
  cbn [negb].
  destruct (bound _ _) as [[|w [|k [|]]]|]; try (right; right; done).
  left. exists w, k, bytes. done.
Qed.

(** X11. The register handler answers 500 to a body that is not JSON or is
    [null], and writes nothing.  Otherwise it answers 200 only when both
    fields are truthy, [new PublicKey] accepts the wallet and the key
    decodes to exactly 32 bytes, and the driver binds the two values; it
    then stores the key under the text bound for the wallet, replacing an
    earlier one, and answers with the wallet of the body; the lookup for any
    other address is unchanged, and the lookup for the stored wallet returns
    this key and registration time when the stored text is itself a valid
    address, and answers 400 when it is not.  When both fields are strings
    the stored texts are those of the body and the lookup returns the key.
    A body that fails a check gets a 400, a body the driver refuses a 500,
    which a body of two strings never gets; both leave the directory as it
    was. *)
Theorem register_then_lookup (now : Z) (request : RegisterRoute.Request)
    (keys : Db.KeyTable) :
  let '(response, keys') := RegisterRoute.POST host now request keys in
  match request with
  | RegisterRoute.Malformed | RegisterRoute.Null =>
      response = RegisterRoute.ServerError "Failed to register key" /\ keys' = keys
  | RegisterRoute.Fields body =>
      match response with
      | RegisterRoute.Success registered registeredAt =>
          registered = RegisterRoute.walletAddress body /\ registeredAt = now /\
          json_missing (RegisterRoute.walletAddress body) = false /\
          json_missing (RegisterRoute.encryptionPublicKey body) = false /\
          validPublicKey host (RegisterRoute.walletAddress body) = true /\
          (exists bytes,
              RegisterRoute.decoded host (RegisterRoute.encryptionPublicKey body)
              = Some bytes /\ length bytes = 32%nat) /\
          exists wallet key,
            registration host body = Some (wallet, key) /\
            keys' = <[wallet := {| Db.col_encryptionPublicKey := key;
                                   Db.col_registeredAt := now |}]> keys /\
            (forall other, other <> wallet ->
               KeyRoute.GET host other keys' = KeyRoute.GET host other keys) /\
            KeyRoute.GET host wallet keys'
            = (if validPublicKey host (JString wallet)
               then KeyRoute.Found wallet key now
               else KeyRoute.BadRequest "Invalid Solana address") /\
            (RegisterRoute.typed body = true ->
               wallet = json_text (RegisterRoute.walletAddress body) /\
               key = json_text (RegisterRoute.encryptionPublicKey body) /\
               KeyRoute.GET host wallet keys' = KeyRoute.Found wallet key now)
      | RegisterRoute.BadRequest _ => keys' = keys
      | RegisterRoute.ServerError error =>
          error = "Failed to register key" /\ keys' = keys /\
          registration host body = None /\ RegisterRoute.typed body = false
      end
  end.
Proof.
  destruct request as [| |body]; [done..|].
  destruct (register_POST_cases now body keys)
    as [(wallet & key & bytes & Hreg & -> & Hw & Hk & Hvalid & Hbytes & Hlen)
       |[[error ->]|[Hreg ->]]]; [|done|].
  - do 5 (split; [done|]). split; [by exists bytes|].
    exists wallet, key.
    assert (KeyRoute.GET host wallet
              (<[wallet := {| Db.col_encryptionPublicKey := key;
                              Db.col_registeredAt := now |}]> keys)
            = (if validPublicKey host (JString wallet)
               then KeyRoute.Found wallet key now
               else KeyRoute.BadRequest "Invalid Solana address")) as Hget.
    { unfold KeyRoute.GET, Db.getRegisteredKey. rewrite lookup_insert_eq.
      by destruct (validPublicKey host (JString wallet)). }
    do 2 (split; [done|]). split; [|split; [done|]].
    + intros other Hne. unfold KeyRoute.GET, Db.getRegisteredKey.
      by rewrite lookup_insert_ne.
    + intros Htyped. rewrite (registration_typed _ Htyped) in Hreg.
      injection Hreg as <- <-. do 2 (split; [done|]).
      rewrite Hget, <- (typed_walletAddress _ Htyped), Hvalid. done.
  - do 3 (split; [done|]).
    destruct (RegisterRoute.typed body) eqn:Htyped; [|done].
    by rewrite (registration_typed _ Htyped) in Hreg.
Qed.

Lemma well_keyed_POST now request (keys : Db.KeyTable) :
  typed_request request = true ->
  well_keyed host keys ->
  well_keyed host (snd (RegisterRoute.POST host now request keys)).
Proof.
  intros Htyped Hkeys. destruct request as [| |body]; [done..|].
  cbn [typed_request] in Htyped.
  destruct (register_POST_cases now body keys)
    as [(wallet & key & bytes & Hreg & -> & Hw & Hk & Hvalid & Hbytes & Hlen)
       |[[error ->]|[Hreg ->]]]; [|done..].
  rewrite (registration_typed _ Htyped) in Hreg. injection Hreg as <- <-.
  intros wallet row Hrow. cbn [snd] in Hrow.
  apply lookup_insert_Some in Hrow as [[<- <-]|[_ Hrow]]; [|by eapply Hkeys].
  split.
  - by rewrite <- (typed_walletAddress _ Htyped).
  - cbn. unfold RegisterRoute.typed in Htyped. apply andb_prop in Htyped as [_ Ht].
    destruct (RegisterRoute.encryptionPublicKey body); try discriminate.
    cbn in Hbytes. by injection Hbytes as <-.
Qed.

(** X12. In a directory filled, from empty, through the register handler
    alone by requests whose fields are strings: every registered wallet is a
    valid address and its key decodes to 32 bytes, so the lookup handler
    answers 200 with a key for every registered wallet, and 404, never a
    key, for a valid address that has not registered. *)
Theorem directory_holds_only_checked_keys (reqs : list (Z * RegisterRoute.Request)) :
  forallb (fun req => typed_request (snd req)) reqs = true ->
  let keys := register_all host reqs ∅ in
  (forall wallet row,
      keys !! wallet = Some row ->
      validPublicKey host (JString wallet) = true /\
      length (bufferFromBase64 host (Db.col_encryptionPublicKey row)) = 32%nat /\
      KeyRoute.GET host wallet keys
        = KeyRoute.Found wallet (Db.col_encryptionPublicKey row) (Db.col_registeredAt row)) /\
  (forall address,
      validPublicKey host (JString address) = true -> keys !! address = None ->
      KeyRoute.GET host address keys
        = KeyRoute.NotFound "No encryption key registered for this address").
Proof.
  intros Htyped. cbn zeta.
  assert (Hall : forall keys0, well_keyed host keys0 ->
            well_keyed host (register_all host reqs keys0)).
  { induction reqs as [|req reqs' IH]; intros keys0 H0; [done|].
    cbn [forallb] in Htyped. apply andb_prop in Htyped as [Hreq Hrest].
    cbn. apply (IH Hrest). by apply well_keyed_POST. }
  specialize (Hall ∅). split.
  - intros wallet row Hrow.
    destruct (Hall ltac:(intros w r H; by rewrite lookup_empty in H) wallet row Hrow)
      as [Hvalid Hlen].
    repeat split; try done.
    unfold KeyRoute.GET, Db.getRegisteredKey. by rewrite Hvalid, Hrow.
  - intros address Hvalid Hnone.
    unfold KeyRoute.GET, Db.getRegisteredKey. by rewrite Hvalid, Hnone.
Qed.

End KeyRoutes.

Lemma directory_holds_only_checked_keys_witness :
  let reqs :=
    [(Sample.now,
      RegisterRoute.Fields
        {| RegisterRoute.walletAddress :=
             JString "7xKXtg2CW87d97TXJSDpbD5jBkheTqA83TZRuJosgAsU";
           RegisterRoute.encryptionPublicKey :=
             JString "0123456789abcdef0123456789abcdef" |});
     (Sample.now, RegisterRoute.Malformed)] in
  forallb (fun req => typed_request (snd req)) reqs = true /\
  let keys := register_all Sample.host reqs ∅ in
  (forall wallet row,
      keys !! wallet = Some row ->
      validPublicKey Sample.host (JString wallet) = true /\
      length (bufferFromBase64 Sample.host (Db.col_encryptionPublicKey row)) = 32%nat /\
      KeyRoute.GET Sample.host wallet keys
        = KeyRoute.Found wallet (Db.col_encryptionPublicKey row) (Db.col_registeredAt row)) /\
  (forall address,
      validPublicKey Sample.host (JString address) = true -> keys !! address = None ->
      KeyRoute.GET Sample.host address keys
        = KeyRoute.NotFound "No encryption key registered for this address").
Proof.
  intros reqs. split; [reflexivity|].
  apply (directory_holds_only_checked_keys Sample.host reqs). reflexivity.
Defined.

(** On such a platform a request with the number 5 as wallet is answered
    200 and leaves a row whose lookup is answered 400. *)
Lemma numeric_wallet_is_stored_but_not_found :
  let body :=
    {| RegisterRoute.walletAddress := JNumber 5;
       RegisterRoute.encryptionPublicKey := JString "0123456789abcdef0123456789abcdef" |} in
  let '(response, keys') :=
    RegisterRoute.POST numeric_host Sample.now (RegisterRoute.Fields body) ∅ in
  response = RegisterRoute.Success (JNumber 5) Sample.now /\
  is_Some (keys' !! "5") /\
  KeyRoute.GET numeric_host "5" keys' = KeyRoute.BadRequest "Invalid Solana address".
Proof. vm_compute. split; [done|]. split; [by eexists | done]. Qed.

(** ** Note ids *)

Lemma chars_app s1 s2 a : In a (chars (s1 +:+ s2)) <-> In a (chars s1) \/ In a (chars s2).
Proof.
  induction s1 as [|c s1 IH]; [cbn; tauto|].
  change (In a (c :: chars (s1 +:+ s2)) <-> In a (c :: chars s1) \/ In a (chars s2)).
  cbn [In]. rewrite IH. tauto.
Qed.

Lemma chars_replace_all c by_ s a :
  In a (chars (Crypto.replace_all c by_ s)) ->
  (In a (chars s) /\ a <> c) \/ In a (chars by_).
Proof.
  induction s as [|x s IH]; cbn; [tauto|].
  destruct (Ascii.eqb_spec x c) as [->|Hne].
  - rewrite chars_app. intros [H|H]; [by right|].
    destruct (IH H) as [[? ?]|?]; [left; split; [by right | done] | by right].
  - cbn. intros [<-|H]; [left; split; [by left | done]|].
    destruct (IH H) as [[? ?]|?]; [left; split; [by right | done] | by right].
Qed.

(** X13. [generateNoteId] draws 16 random bytes once.  The id has none of
    the characters [+], [/] and [=]: every character of it is a character of
    the base64 text of those bytes other than these three, or is [-] or
    [_]. *)
Theorem generateNoteId_is_url_safe (L : Crypto.NaCl) (r : Crypto.rng L) :
  let '(bytes, r') := Crypto.randomBytes L 16 r in
  let '(id, r'') := Crypto.generateNoteId L r in
  r'' = r' /\
  forall a,
    In a (chars id) ->
    a <> "+"%char /\ a <> "/"%char /\ a <> "="%char /\
    (In a (chars (Crypto.encodeBase64 L bytes)) \/ a = "-"%char \/ a = "_"%char).
Proof.
  unfold Crypto.generateNoteId.
  destruct (Crypto.randomBytes L 16 r) as [bytes r']. split; [done|].
  intros a Ha.
  apply chars_replace_all in Ha as [[Ha Heq]|Ha]; [|by destruct Ha].
  apply chars_replace_all in Ha as [[Ha Hslash]|Ha].
  - apply chars_replace_all in Ha as [[Ha Hplus]|Ha].
    + repeat split; try done. by left.
    + cbn in Ha. destruct Ha as [<-|[]]. repeat split; try done. right. by left.
  - cbn in Ha. destruct Ha as [<-|[]]. repeat split; try done. right. by right.
Qed.

(** ** encryptMessage, and keys that are derived again *)

(** X14. [encryptMessage] checks the recipient key first: a key that is not
    base64 or not 32 bytes long makes it throw with the random generator
    untouched.  When it returns a payload, the key was 32 bytes, and the
    payload is the base64 of the box made with a key pair and a nonce that
    this very call drew from the generator, together with that nonce and the
    public half of that pair.  Any other failure comes after the two draws. *)
Theorem encryptMessage_outcomes (L : Crypto.NaCl) (message recipientPublicKey : string)
    (r : Crypto.rng L) :
  let '(result, r') := Crypto.encryptMessage L message recipientPublicKey r in
  match result with
  | inr payload => sealed_from L message recipientPublicKey r r' payload
  | inl err =>
      (key_refused L recipientPublicKey err /\ r' = r) \/
      (exists keyBytes,
          Crypto.decodeBase64 L recipientPublicKey = inr keyBytes /\
          length keyBytes = 32%nat /\
          r' = snd (Crypto.randomBytes L (Crypto.box_nonceLength L)
                      (snd (Crypto.box_keyPair L r))))
  end.
Proof.
  unfold Crypto.encryptMessage, sealed_from, key_refused.
  destruct (Crypto.decodeBase64 L recipientPublicKey) as [err|keyBytes] eqn:Hkey.
  { left. split; [by left | done]. }
  destruct (Nat.eqb_spec (length keyBytes) 32) as [Hlen|Hlen]; cbn [negb].
  2: { left. split; [|done]. right. by exists keyBytes. }
  destruct (Crypto.box_keyPair L r) as [ephemeral r1] eqn:Hpair. cbn [snd].
  destruct (Crypto.randomBytes L _ r1) as [nonceBytes r2] eqn:Hnonce. cbn [snd].
  unfold Crypto.and_then.
  destruct (Crypto.decodeUTF8 L message) as [err|messageBytes] eqn:Hmsg.
  { right. by exists keyBytes. }
  destruct (Crypto.box L messageBytes nonceBytes keyBytes _) as [err|[encrypted|]] eqn:Hbox.
  - right. by exists keyBytes.
  - by exists keyBytes, messageBytes, ephemeral, r1, nonceBytes, encrypted.
  - right. by exists keyBytes.
Qed.

(** A payload is only returned for a message that could be encoded. *)
Lemma encryptMessage_encodes (L : Crypto.NaCl) (message recipientPublicKey : string)
    (r r' : Crypto.rng L) payload :
  Crypto.encryptMessage L message recipientPublicKey r = (inr payload, r') ->
  exists messageBytes, Crypto.decodeUTF8 L message = inr messageBytes.
Proof.
  unfold Crypto.encryptMessage.
  destruct (Crypto.decodeBase64 L recipientPublicKey) as [err|keyBytes]; [done|].
  destruct (negb _); [done|].
  destruct (Crypto.box_keyPair L r) as [ephemeral r1].
  destruct (Crypto.randomBytes L _ r1) as [nonceBytes r2].
  unfold Crypto.and_then.
  destruct (Crypto.decodeUTF8 L message) as [err|messageBytes]; [done|]. eauto.
Qed.

Lemma derived_is_valid (L : Crypto.NaCl) (signature : Crypto.bytes) keys :
  keeps_secret L ->
  Crypto.keypair_of_signature L signature = inr keys ->
  exists K,
    Crypto.valid_keypair L K /\
    Crypto.encodedPublicKey keys = Crypto.encodeBase64 L (Crypto.publicKey K) /\
    Crypto.encodedSecretKey keys = Crypto.encodeBase64 L (Crypto.secretKey K).
Proof.
  intros Hkeeps. unfold Crypto.keypair_of_signature, Crypto.and_then.
  destruct (Crypto.box_keyPair_fromSecretKey L _) as [err|K] eqn:HK; [done|].
  intros [= <-]. exists K. split; [|done].
  unfold Crypto.valid_keypair. by rewrite (Hkeeps _ _ HK).
Qed.

(** With the challenge built, the outcome is that of the wallet, and a
    signature is turned into keys by [keypair_of_signature]. *)
Lemma derive_follows_wallet (L : Crypto.NaCl) {W : Type}
    (signMessage : Crypto.bytes -> W -> (js_error + Crypto.bytes) * W)
    (walletAddress : string) (challenge : Crypto.bytes) (w : W) :
  Crypto.decodeUTF8 L ("DarkNote encryption key for " +:+ walletAddress) = inr challenge ->
  Crypto.deriveEncryptionKeyFromSignature L signMessage walletAddress w
  = (Crypto.and_then (fst (signMessage challenge w)) (Crypto.keypair_of_signature L),
     snd (signMessage challenge w)).
Proof.
  intros Hchallenge. unfold Crypto.deriveEncryptionKeyFromSignature.
  rewrite Hchallenge. by destruct (signMessage challenge w) as [[err|signature] w'].
Qed.

(** The round trip for a key pair the library accepts. *)
Lemma sealed_then_opened (L : Crypto.NaCl) (laws : Crypto.NaClLaws L)
    (message : string) (K : Crypto.KeyPair) (r : Crypto.rng L) :
  Crypto.valid_keypair L K ->
  (exists messageBytes, Crypto.decodeUTF8 L message = inr messageBytes) ->
  exists payload r',
    Crypto.encryptMessage L message (Crypto.encodeBase64 L (Crypto.publicKey K)) r
      = (inr payload, r') /\
    Crypto.decryptMessage L
      (Crypto.ciphertext payload) (Crypto.nonce payload)
      (Crypto.ephemeralPublicKey payload)
      (Crypto.encodeBase64 L (Crypto.secretKey K)) = inr message.
Proof.
  intros HK [messageBytes Hmsg].
  destruct (encryptMessage_valid L laws message messageBytes K r HK Hmsg)
    as (ephemeral & nonceBytes & encrypted & r' & _ & _ & _ & Hopen & Henc).
  eexists _, r'. split; [exact Henc|].
  cbn [Crypto.ciphertext Crypto.nonce Crypto.ephemeralPublicKey].
  rewrite (decryptMessage_opened L _ _ _ _ encrypted nonceBytes
             (Crypto.publicKey ephemeral) (Crypto.secretKey K) messageBytes);
    try apply (Crypto.base64_roundtrip L laws); [|exact Hopen].
  by rewrite (Crypto.utf8_roundtrip L laws _ _ Hmsg).
Qed.

(** X15. Keys are recovered, not stored: a message encrypted to the public
    key that [deriveEncryptionKeyFromSignature] gave at one time is
    decrypted with the secret key it gives at a later time, in whatever
    state the wallet then is, as long as the wallet signs the challenge with
    the same signature. *)
Theorem derived_key_decrypts_what_was_sent
    (L : Crypto.NaCl) (laws : Crypto.NaClLaws L) (Hkeeps : keeps_secret L)
    {W : Type} (signMessage : Crypto.bytes -> W -> (js_error + Crypto.bytes) * W)
    (walletAddress message : string) (challenge signature : Crypto.bytes)
    (w1 w2 : W) (r : Crypto.rng L) :
  Crypto.decodeUTF8 L ("DarkNote encryption key for " +:+ walletAddress) = inr challenge ->
  fst (signMessage challenge w1) = inr signature ->
  fst (signMessage challenge w2) = inr signature ->
  (exists messageBytes, Crypto.decodeUTF8 L message = inr messageBytes) ->
  exists registered payload r' recovered,
    fst (Crypto.deriveEncryptionKeyFromSignature L signMessage walletAddress w1)
      = inr registered /\
    Crypto.encryptMessage L message (Crypto.encodedPublicKey registered) r
      = (inr payload, r') /\
    fst (Crypto.deriveEncryptionKeyFromSignature L signMessage walletAddress w2)
      = inr recovered /\
    Crypto.decryptMessage L (Crypto.ciphertext payload) (Crypto.nonce payload)
      (Crypto.ephemeralPublicKey payload) (Crypto.encodedSecretKey recovered)
      = inr message.
Proof.
  intros Hchallenge H1 H2 Hmsg.
  destruct (keypair_of_signature_total L laws signature) as [keys Hkeys].
  destruct (derived_is_valid L signature keys Hkeeps Hkeys) as (K & HK & Hpub & Hsec).
  destruct (sealed_then_opened L laws message K r HK Hmsg)
    as (payload & r' & Henc & Hdec).
  exists keys, payload, r', keys.
  rewrite !(derive_follows_wallet L signMessage walletAddress challenge _ Hchallenge).
  cbn [fst]. rewrite H1, H2, Hpub, Hsec. cbn [Crypto.and_then]. by repeat split.
Qed.

Lemma standin_keeps_secret : keeps_secret Standin.nacl.
Proof. intros sk k H. by destruct (fromSecretKey_inv sk k H) as [_ ->]. Qed.

Lemma derived_key_decrypts_witness :
  exists registered payload r' recovered,
    fst (Crypto.deriveEncryptionKeyFromSignature Standin.nacl Standin.signer "7xKX" 0%nat)
      = inr registered /\
    Crypto.encryptMessage Standin.nacl "burn after reading"
      (Crypto.encodedPublicKey registered) 3%nat = (inr payload, r') /\
    fst (Crypto.deriveEncryptionKeyFromSignature Standin.nacl Standin.signer "7xKX" 9%nat)
      = inr recovered /\
    Crypto.decryptMessage Standin.nacl (Crypto.ciphertext payload) (Crypto.nonce payload)
      (Crypto.ephemeralPublicKey payload) (Crypto.encodedSecretKey recovered)
      = inr "burn after reading".
Proof.
  apply (derived_key_decrypts_what_was_sent Standin.nacl standin_laws
           standin_keeps_secret Standin.signer "7xKX" "burn after reading"
           (list_byte_of_string "DarkNote encryption key for 7xKX")
           (list_byte_of_string "DarkNote encryption key for 7xKX"
            ++ list_byte_of_string "DarkNote encryption key for 7xKX"));
    try (vm_compute; reflexivity).
  eexists. vm_compute. reflexivity.
Defined.

(** ** The pages *)

Lemma append_empty (s1 s2 : string) : s1 +:+ s2 = "" -> s1 = "" /\ s2 = "".
Proof. by destruct s1. Qed.

Lemma server_eta (srv : server) : {| notes := notes srv; keys := keys srv |} = srv.
Proof. by destruct srv. Qed.

Lemma on_notes_eq {R : Type} (h : Db.Table -> R * Db.Table) (srv : server) :
  on_notes h srv
  = (fst (h (notes srv)), {| notes := snd (h (notes srv)); keys := keys srv |}).
Proof. unfold on_notes. by destruct (h (notes srv)). Qed.

Lemma on_keys_eq {R : Type} (h : Db.KeyTable -> R * Db.KeyTable) (srv : server) :
  on_keys h srv
  = (fst (h (keys srv)), {| notes := notes srv; keys := snd (h (keys srv)) |}).
Proof. unfold on_keys. by destruct (h (keys srv)). Qed.

Lemma fetch_eq {R : Type} (d : delivery) (handler : server -> R * server) (srv : server) :
  fetch d handler srv
  = (match d with Answered => Some (fst (handler srv)) | _ => None end,
     match d with Lost => srv | _ => snd (handler srv) end).
Proof. unfold fetch. by destruct d, (handler srv). Qed.

(** X16. Loading the note page changes no other note and no key.  When the
    request is answered, the page and the server agree afterwards: either
    the server still holds the note, nothing was changed and the page holds
    its fields, or the server holds no such note and the page says so.
    When no answer arrives the page reports a failure to load and keeps what
    it had. *)
Theorem fetchNote_agrees_with_the_server (d : delivery) (id : string)
    (st : NotePage.State) (srv : server) :
  let '(st', srv') := NotePage.fetchNote d id st srv in
  keys srv' = keys srv /\
  (forall other, other <> id -> notes srv' !! other = notes srv !! other) /\
  NotePage.loading st' = false /\
  NotePage.decryptedMessage st' = NotePage.decryptedMessage st /\
  match d with
  | Answered =>
      match notes srv' !! id with
      | Some row =>
          srv' = srv /\
          NotePage.note st' = Some (NoteRoute.view_of (Db.note_of_row id row)) /\
          NotePage.error st' = NotePage.error st
      | None =>
          NotePage.note st' = NotePage.note st /\
          NotePage.error st' = "Note not found. It may have already been destroyed."
      end
  | _ =>
      NotePage.note st' = NotePage.note st /\
      NotePage.error st' = "Failed to load note"
  end.
Proof.
  unfold NotePage.fetchNote. rewrite fetch_eq, on_notes_eq.
  destruct d; cbn [fst snd].
  - destruct (notes srv !! id) as [row|] eqn:Hrow.
    + rewrite (GET_present _ _ _ Hrow).
      destruct (row_reached _ row); cbn [fst snd notes keys NotePage.note
        NotePage.error NotePage.loading NotePage.decryptedMessage].
      * rewrite lookup_delete_eq. repeat split; try done.
        intros other Hne. by rewrite lookup_delete_ne.
      * rewrite Hrow, server_eta. by repeat split.
    + rewrite (GET_absent _ _ Hrow). cbn. rewrite Hrow. by repeat split.
  - by repeat split.
  - cbn. repeat split; try done. intros other Hne. by apply GET_other.
Qed.

Section NotePageFacts.

Variable L : Crypto.NaCl.
Variable W : Type.

(** The run of [handleDecrypt] once the note has been decrypted. *)
Lemma handleDecrypt_decrypted (d_increment d_delete : delivery) (id : string)
    (sign : Crypto.bytes -> W -> (js_error + Crypto.bytes) * W)
    (st : NotePage.State) (w w1 : W) (srv : server)
    (v : NoteRoute.View) (derived : Crypto.EncodedKeyPair) (text : string) :
  NotePage.note st = Some v ->
  Crypto.deriveEncryptionKeyFromSignature L sign (NoteRoute.recipientAddress v) w
    = (inr derived, w1) ->
  Crypto.decryptMessage L (NoteRoute.ciphertext v) (NoteRoute.nonce v)
    (NoteRoute.ephemeralPublicKey v) (Crypto.encodedSecretKey derived) = inr text ->
  let reported := fetch d_increment (on_notes (IncrementRoute.POST id)) srv in
  NotePage.handleDecrypt L W d_increment d_delete id
    (Some (NoteRoute.recipientAddress v)) (Some sign) st w srv
  = ({| NotePage.note :=
          Some match fst reported with
               | Some (IncrementRoute.Ok _ currentReads) =>
                   NotePage.with_currentReads currentReads v
               | _ => v
               end;
        NotePage.decryptedMessage := text;
        NotePage.loading := NotePage.loading st;
        NotePage.decrypting := false;
        NotePage.error := "" |},
     w1,
     if NotePage.burns_on_read v
     then snd (fetch d_delete (on_notes (NoteRoute.DELETE id)) (snd reported))
     else snd reported).
Proof.
  intros Hnote Hderive Hdecrypt reported. subst reported.
  unfold NotePage.handleDecrypt. rewrite Hnote, String.eqb_refl. cbn [negb].
  rewrite Hderive. cbn [Crypto.and_then]. rewrite Hdecrypt.
  by destruct (fetch d_increment _ srv) as [response srv1].
Qed.

(** Either the note was decrypted, or the page has sent nothing and shows
    no new text. *)
Lemma handleDecrypt_cases (d_increment d_delete : delivery) (id : string)
    (publicKey : option string)
    (signMessage : option (Crypto.bytes -> W -> (js_error + Crypto.bytes) * W))
    (st : NotePage.State) (w : W) (srv : server) :
  (exists v sign derived w1 text,
      NotePage.note st = Some v /\
      publicKey = Some (NoteRoute.recipientAddress v) /\
      signMessage = Some sign /\
      Crypto.deriveEncryptionKeyFromSignature L sign (NoteRoute.recipientAddress v) w
        = (inr derived, w1) /\
      Crypto.decryptMessage L (NoteRoute.ciphertext v) (NoteRoute.nonce v)
        (NoteRoute.ephemeralPublicKey v) (Crypto.encodedSecretKey derived) = inr text) \/
  (exists st' w',
      NotePage.handleDecrypt L W d_increment d_delete id publicKey signMessage st w srv
        = (st', w', srv) /\
      NotePage.decryptedMessage st' = NotePage.decryptedMessage st /\
      NotePage.note st' = NotePage.note st).
Proof.
  unfold NotePage.handleDecrypt.
  destruct (NotePage.note st) as [v|] eqn:Hnote; [|right; by eauto].
  destruct publicKey as [address|]; [|right; by eauto].
  destruct signMessage as [sign|]; [|right; by eauto].
  destruct (String.eqb_spec address (NoteRoute.recipientAddress v)) as [->|Hne];
    cbn [negb]; [|right; by eauto].
  destruct (Crypto.deriveEncryptionKeyFromSignature L sign _ w)
    as [[err|derived] w1] eqn:Hderive; cbn [Crypto.and_then]; [right; by eauto|].
  destruct (Crypto.decryptMessage L _ _ _ _) as [err|text] eqn:Hdecrypt;
    [right; by eauto|].
  left. by exists v, sign, derived, w1, text.
Qed.

(** What the two requests of a read can change: the keys never, and of the
    notes the one read. *)
Lemma read_requests_frame (d_increment d_delete : delivery) (id : string) (burn : bool)
    (srv : server) :
  let reported := fetch d_increment (on_notes (IncrementRoute.POST id)) srv in
  let srv' :=
    if burn then snd (fetch d_delete (on_notes (NoteRoute.DELETE id)) (snd reported))
    else snd reported in
  keys srv' = keys srv /\
  forall other, other <> id -> notes srv' !! other = notes srv !! other.
Proof.
  cbn zeta. rewrite !fetch_eq, !on_notes_eq. cbn [fst snd].
  assert (forall other, other <> id ->
            snd (IncrementRoute.POST id (notes srv)) !! other = notes srv !! other)
    as Hinc by (intros; by apply increment_POST_other).
  assert (forall db other, other <> id ->
            snd (NoteRoute.DELETE id db) !! other = db !! other)
    as Hdel by (intros; by apply DELETE_other).
  destruct burn, d_increment, d_delete; cbn [notes keys]; split; try done;
    intros other Hne; rewrite ?Hdel by done; rewrite ?Hinc by done; done.
Qed.

(** X17. Decrypting on the note page changes no key and no other note.  The
    page sends a request, or shows a new text, only when the connected
    wallet is the recipient of the note it holds, the wallet has signed, and
    the key derived from the signature decrypts the note; the text it then
    shows is that plaintext. *)
Theorem handleDecrypt_reports_only_a_decrypted_note
    (d_increment d_delete : delivery) (id : string) (publicKey : option string)
    (signMessage : option (Crypto.bytes -> W -> (js_error + Crypto.bytes) * W))
    (st : NotePage.State) (w : W) (srv : server) :
  let '(st', w', srv') :=
    NotePage.handleDecrypt L W d_increment d_delete id publicKey signMessage st w srv in
  keys srv' = keys srv /\
  (forall other, other <> id -> notes srv' !! other = notes srv !! other) /\
  (srv' <> srv \/ NotePage.decryptedMessage st' <> NotePage.decryptedMessage st ->
   exists v sign derived,
     NotePage.note st = Some v /\
     publicKey = Some (NoteRoute.recipientAddress v) /\
     signMessage = Some sign /\
     Crypto.deriveEncryptionKeyFromSignature L sign (NoteRoute.recipientAddress v) w
       = (inr derived, w') /\
     Crypto.decryptMessage L (NoteRoute.ciphertext v) (NoteRoute.nonce v)
       (NoteRoute.ephemeralPublicKey v) (Crypto.encodedSecretKey derived)
       = inr (NotePage.decryptedMessage st') /\
     NotePage.error st' = "").
Proof.
  destruct (handleDecrypt_cases d_increment d_delete id publicKey signMessage st w srv)
    as [(v & sign & derived & w1 & text & Hnote & -> & -> & Hderive & Hdecrypt)
       |(st' & w' & -> & Hsame & _)].
  - rewrite (handleDecrypt_decrypted _ _ _ _ _ _ _ _ _ _ _ Hnote Hderive Hdecrypt).
    destruct (read_requests_frame d_increment d_delete id (NotePage.burns_on_read v) srv)
      as [Hkeys Hnotes].
    split; [exact Hkeys|]. split; [exact Hnotes|].
    intros _. by exists v, sign, derived.
  - split; [done|]. split; [done|]. by intros [?|?].
Qed.

(** X18. When the note on the page decrypts, the page shows the plaintext
    and then reports the read.  A note the page holds as one-time
    ([selfDestruct] without a limit) is gone from the server as soon as the
    delete request arrives, whatever became of the increment.  When the
    increment arrives, a note that reaches its limit is gone; any other is
    kept with one more read, unless the page deletes it as one-time; and
    the page shows the new count when the answer comes back.  When neither
    request arrives the server is as it was. *)
Theorem a_read_is_counted_and_a_one_time_note_is_burnt
    (d_increment d_delete : delivery) (id : string)
    (sign : Crypto.bytes -> W -> (js_error + Crypto.bytes) * W)
    (st : NotePage.State) (w w1 : W) (srv : server)
    (v : NoteRoute.View) (derived : Crypto.EncodedKeyPair) (text : string) :
  NotePage.note st = Some v ->
  Crypto.deriveEncryptionKeyFromSignature L sign (NoteRoute.recipientAddress v) w
    = (inr derived, w1) ->
  Crypto.decryptMessage L (NoteRoute.ciphertext v) (NoteRoute.nonce v)
    (NoteRoute.ephemeralPublicKey v) (Crypto.encodedSecretKey derived) = inr text ->
  let '(st', _, srv') :=
    NotePage.handleDecrypt L W d_increment d_delete id
      (Some (NoteRoute.recipientAddress v)) (Some sign) st w srv in
  NotePage.decryptedMessage st' = text /\
  (NotePage.burns_on_read v = true -> d_delete <> Lost -> notes srv' !! id = None) /\
  match d_increment with
  | Lost =>
      NotePage.note st' = Some v /\
      (NotePage.burns_on_read v = false \/ d_delete = Lost -> srv' = srv)
  | _ =>
      match notes srv !! id with
      | None => notes srv' !! id = None /\ NotePage.note st' = Some v
      | Some row =>
          (d_increment = Answered ->
           NotePage.note st'
           = Some (NotePage.with_currentReads (Db.col_currentReads row + 1) v)) /\
          if row_reached (Db.col_currentReads row + 1) row
          then notes srv' !! id = None
          else NotePage.burns_on_read v = false \/ d_delete = Lost ->
               notes srv' !! id = Some (Db.bump row)
      end
  end.
Proof.
  intros Hnote Hderive Hdecrypt.
  rewrite (handleDecrypt_decrypted _ _ _ _ _ _ _ _ _ _ _ Hnote Hderive Hdecrypt).
  cbn [NotePage.decryptedMessage NotePage.note].
  rewrite !fetch_eq, !on_notes_eq. cbn [fst snd].
  assert (forall db, snd (NoteRoute.DELETE id db) !! id = None) as Hdel.
  { intros db. unfold NoteRoute.DELETE, Db.deleteNote.
    destruct (negb _); cbn [snd]; apply lookup_delete_eq. }
  split; [done|]. split.
  { intros -> Hsent. destruct d_delete; [|done|]; cbn [notes]; apply Hdel. }
  destruct d_increment.
  - destruct (notes srv !! id) as [row|] eqn:Hrow.
    + rewrite (increment_POST_present _ _ _ Hrow).
      destruct (row_reached _ row) eqn:Hreached; cbn [fst snd]; split; try done.
      * destruct (NotePage.burns_on_read v), d_delete; cbn [notes];
          rewrite ?Hdel; try done; apply lookup_delete_eq.
      * intros [->| ->]; [|destruct (NotePage.burns_on_read v)]; cbn [notes];
          apply lookup_insert_eq.
    + rewrite (increment_POST_absent _ _ Hrow). cbn [fst snd]. split; [|done].
      destruct (NotePage.burns_on_read v), d_delete; cbn [notes];
        rewrite ?Hdel, ?server_eta; done.
  - split; [done|]. by intros [->| ->]; [|destruct (NotePage.burns_on_read v)].
  - destruct (notes srv !! id) as [row|] eqn:Hrow.
    + rewrite (increment_POST_present _ _ _ Hrow).
      destruct (row_reached _ row) eqn:Hreached; cbn [fst snd]; split; try done.
      * destruct (NotePage.burns_on_read v), d_delete; cbn [notes];
          rewrite ?Hdel; try done; apply lookup_delete_eq.
      * intros [->| ->]; [|destruct (NotePage.burns_on_read v)]; cbn [notes];
          apply lookup_insert_eq.
    + rewrite (increment_POST_absent _ _ Hrow). cbn [fst snd]. split; [|done].
      destruct (NotePage.burns_on_read v), d_delete; cbn [notes];
        rewrite ?Hdel, ?server_eta; done.
Qed.

End NotePageFacts.

Lemma a_read_is_counted_witness :
  let '(st', _, srv') :=
    NotePage.handleDecrypt Standin.nacl nat Answered Unanswered Exchange.noteId
      (Some (NoteRoute.recipientAddress (Exchange.view true None)))
      (Some Standin.signer) (fst (Exchange.loading true None)) 7%nat
      (snd (Exchange.sending true None)) in
  NotePage.decryptedMessage st' = "burn after reading" /\
  (NotePage.burns_on_read (Exchange.view true None) = true -> Unanswered <> Lost ->
   notes srv' !! Exchange.noteId = None) /\
  match notes (snd (Exchange.sending true None)) !! Exchange.noteId with
  | None =>
      notes srv' !! Exchange.noteId = None /\
      NotePage.note st' = Some (Exchange.view true None)
  | Some row =>
      (Answered = Answered ->
       NotePage.note st'
       = Some (NotePage.with_currentReads (Db.col_currentReads row + 1)
                 (Exchange.view true None))) /\
      if row_reached (Db.col_currentReads row + 1) row
      then notes srv' !! Exchange.noteId = None
      else NotePage.burns_on_read (Exchange.view true None) = false \/
           Unanswered = Lost ->
           notes srv' !! Exchange.noteId = Some (Db.bump row)
  end.
Proof.
  apply (a_read_is_counted_and_a_one_time_note_is_burnt Standin.nacl nat
           Answered Unanswered Exchange.noteId Standin.signer
           (fst (Exchange.loading true None)) 7%nat 8%nat
           (snd (Exchange.sending true None)) (Exchange.view true None)
           Exchange.derived "burn after reading");
    vm_compute; reflexivity.
Defined.

(** The three answers of the create handler to a body whose five fields
    are strings, with the table each leaves. *)
Lemma create_POST_typed_cases host (now : Z) (body : NotesRoute.Body) (db : Db.Table) :
  NotesRoute.typed body = true ->
  let id := NotesRoute.text (NotesRoute.id body) in
  (NotesRoute.POST host now (NotesRoute.Fields body) db
   = (NotesRoute.Success (JString id), <[id := NotesRoute.stored_row now body]> db)
   /\ NotesRoute.acceptable host body = true /\ db !! id = None) \/
  (exists error,
      NotesRoute.POST host now (NotesRoute.Fields body) db
      = (NotesRoute.BadRequest error, db)) \/
  (exists error,
      NotesRoute.POST host now (NotesRoute.Fields body) db
      = (NotesRoute.ServerError error, db)).
Proof.
  intros Htyped. cbn zeta.
  destruct (create_POST_cases host now body db)
    as [(Hacc & id & row & Hins & Hfree & ->)
       |[(Hacc & error & ->)|(Hacc & Hwhy & ->)]]; [|by eauto..].
  rewrite (insertion_typed _ _ _ Htyped) in Hins. injection Hins as <- <-.
  left. by rewrite <- (typed_id _ Htyped).
Qed.

Section SendPageFacts.

Variable L : Crypto.NaCl.
Variable host : Platform.
Variable blank : string -> bool.
Variable origin : string.
Variable networkError : string.

(** Either the note was stored and its link is shown, or no link is shown
    and the form is kept. *)
Lemma handleCreateNote_cases (d_key d_create : delivery) (now : Z)
    (st : SendPage.State) (r : Crypto.rng L) (srv : server) :
  let run :=
    SendPage.handleCreateNote L host blank origin networkError
      d_key d_create now st r srv in
  (exists wallet key registeredAt payload r1 noteId r2,
      KeyRoute.GET host (SendPage.recipientAddress st) (keys srv)
        = KeyRoute.Found wallet key registeredAt /\
      Crypto.encryptMessage L (SendPage.message st) key r = (inr payload, r1) /\
      Crypto.generateNoteId L r1 = (noteId, r2) /\
      notes srv !! noteId = None /\
      NotesRoute.acceptable host (SendPage.request_body noteId payload st)
        = true /\
      run = (SendPage.sent (origin +:+ "/note/" +:+ noteId) st, r2,
             {| notes := <[noteId := NotesRoute.stored_row now
                                      (SendPage.request_body noteId payload st)]>
                           (notes srv);
                keys := keys srv |})) \/
  (exists e st',
      fst (fst run) = st' /\
      (st' = SendPage.failed e st \/ st' = SendPage.refused e st) /\
      keys (snd run) = keys srv /\
      (d_create <> Unanswered -> snd run = srv)).
Proof.
  cbn zeta. unfold SendPage.handleCreateNote.
  destruct (blank (SendPage.message st)); [right; by eauto 10|].
  destruct (blank (SendPage.recipientAddress st)); [right; by eauto 10|].
  destruct (validPublicKey host (JString (SendPage.recipientAddress st))); cbn [negb];
    [|right; by eauto 10].
  rewrite fetch_eq. cbn [fst snd].
  assert (match d_key with Lost => srv | _ => srv end = srv) as -> by by destruct d_key.
  destruct d_key; [|right; by eauto 10..].
  destruct (KeyRoute.GET host _ (keys srv)) as [wallet key registeredAt|e|e]
    eqn:Hkey; [|right; by eauto 10..].
  destruct (Crypto.encryptMessage L _ key r) as [[err|payload] r1] eqn:Hencrypt;
    [right; by eauto 10|].
  destruct (Crypto.generateNoteId L r1) as [noteId r2] eqn:Hid.
  rewrite fetch_eq, on_notes_eq.
  destruct d_create; cbn [fst snd].
  - destruct (create_POST_typed_cases host now
                (SendPage.request_body noteId payload st) (notes srv) eq_refl)
      as [(-> & Hacc & Hfree)|[[error ->]|[error ->]]]; cbn [fst snd].
    + left. by exists wallet, key, registeredAt, payload, r1, noteId, r2.
    + right. rewrite server_eta. by eauto 10.
    + right. rewrite server_eta. by eauto 10.
  - right. by eauto 10.
  - right. exists networkError. eexists. split; [done|]. split; [by left|]. done.
Qed.

(** X19. Sending a note never changes the key directory.  When the page
    shows a link, the link ends in the id of a note that was not there
    before and is now stored with the recipient typed, no reads and the
    chosen options; what it stores is the encryption of the typed message
    under the key the directory holds for the recipient; the form is
    emptied and no other note is changed.  When no link is shown, the form
    is kept, and the server is as it was unless the note was stored and the
    answer lost. *)
Theorem handleCreateNote_links_to_a_stored_note (d_key d_create : delivery) (now : Z)
    (st : SendPage.State) (r : Crypto.rng L) (srv : server) :
  let '(st', r', srv') :=
    SendPage.handleCreateNote L host blank origin networkError
      d_key d_create now st r srv in
  keys srv' = keys srv /\
  if String.eqb (SendPage.noteUrl st') ""
  then SendPage.message st' = SendPage.message st /\
       SendPage.recipientAddress st' = SendPage.recipientAddress st /\
       (d_create <> Unanswered -> srv' = srv)
  else exists noteId keyRow payload r1,
       SendPage.noteUrl st' = origin +:+ "/note/" +:+ noteId /\
       keys srv !! SendPage.recipientAddress st = Some keyRow /\
       Crypto.encryptMessage L (SendPage.message st)
         (Db.col_encryptionPublicKey keyRow) r = (inr payload, r1) /\
       Crypto.generateNoteId L r1 = (noteId, r') /\
       notes srv !! noteId = None /\
       notes srv'
       = <[noteId :=
             {| Db.col_ciphertext := Crypto.ciphertext payload;
                Db.col_nonce := Crypto.nonce payload;
                Db.col_ephemeralPublicKey := Crypto.ephemeralPublicKey payload;
                Db.col_recipientAddress := SendPage.recipientAddress st;
                Db.col_createdAt := now;
                Db.col_selfDestruct := if SendPage.selfDestruct st then 1 else 0;
                Db.col_maxReads := SendPage.maxReads st;
                Db.col_currentReads := 0 |}]> (notes srv) /\
       SendPage.message st' = "" /\ SendPage.recipientAddress st' = "" /\
       SendPage.error st' = "".
Proof.
  destruct (handleCreateNote_cases d_key d_create now st r srv)
    as [(wallet & key & registeredAt & payload & r1 & noteId & r2
         & Hkey & Hencrypt & Hid & Hfree & Hacc & ->)
       |(e & st' & Hst & Hshape & Hkeys & Hsame)].
  - cbn [keys notes SendPage.sent SendPage.noteUrl SendPage.message
         SendPage.recipientAddress SendPage.error].
    split; [done|].
    destruct (String.eqb_spec (origin +:+ "/note/" +:+ noteId) "") as [Hempty|_].
    { apply append_empty in Hempty as [_ Hempty]. discriminate. }
    unfold KeyRoute.GET, Db.getRegisteredKey in Hkey.
    destruct (validPublicKey host _); cbn [negb] in Hkey; [|done].
    destruct (keys srv !! SendPage.recipientAddress st) as [keyRow|] eqn:Hrow;
      cbn in Hkey; [|done].
    injection Hkey as _ <- _.
    exists noteId, keyRow, payload, r1. repeat split; try done.
    f_equal. unfold NotesRoute.stored_row, SendPage.request_body. cbn.
    by destruct (SendPage.selfDestruct st), (SendPage.maxReads st).
  - destruct (SendPage.handleCreateNote _ _ _ _ _ _ _ _ _ _ _) as [[st'' r'] srv'].
    cbn [fst snd] in *. subst st''. split; [done|].
    by destruct Hshape as [->| ->].
Qed.

End SendPageFacts.

Section KeysPageFacts.

Variable L : Crypto.NaCl.
Variable host : Platform.
Variable W : Type.

(** Either the derived key was stored for the wallet, or the server is as
    it was and the page does not newly say that the key is registered. *)
Lemma deriveKey_cases (d : delivery) (now : Z) (publicKey : option string)
    (signMessage : option (Crypto.bytes -> W -> (js_error + Crypto.bytes) * W))
    (st : KeysPage.State) (w : W) (srv : server) :
  let run :=
    KeysPage.deriveKey L host W d now publicKey signMessage
      st w srv in
  (exists address sign derived,
      publicKey = Some address /\ signMessage = Some sign /\
      Crypto.deriveEncryptionKeyFromSignature L sign address w
        = (inr derived, snd (fst run)) /\
      validPublicKey host (JString address) = true /\
      length (bufferFromBase64 host (Crypto.encodedPublicKey derived)) = 32%nat /\
      KeysPage.encryptionPublicKey (fst (fst run)) = Crypto.encodedPublicKey derived /\
      snd run
      = {| notes := notes srv;
           keys := <[address := {| Db.col_encryptionPublicKey :=
                                     Crypto.encodedPublicKey derived;
                                   Db.col_registeredAt := now |}]> (keys srv) |} /\
      d <> Lost /\
      KeysPage.registered (fst (fst run))
      = match d with Answered => true | _ => KeysPage.registered st end) \/
  (snd run = srv /\
   KeysPage.registered (fst (fst run)) = KeysPage.registered st).
Proof.
  cbn zeta. unfold KeysPage.deriveKey.
  destruct publicKey as [address|]; [|by right].
  destruct signMessage as [sign|]; [|by right].
  destruct (Crypto.deriveEncryptionKeyFromSignature L sign address w)
    as [[err|derived] w1] eqn:Hderive; [by right|].
  rewrite fetch_eq, on_keys_eq.
  destruct (register_POST_cases host now
              {| RegisterRoute.walletAddress := JString address;
                 RegisterRoute.encryptionPublicKey :=
                   JString (Crypto.encodedPublicKey derived) |} (keys srv))
    as [(wallet & key & bytes & Hreg & -> & _ & _ & Hvalid & Hbytes & Hlen)
       |[[error ->]|[_ ->]]]; cbn [fst snd] in *.
  - cbn in Hreg, Hvalid, Hbytes. injection Hreg as <- <-. injection Hbytes as <-.
    destruct d; cbn [fst snd KeysPage.registered KeysPage.encryptionPublicKey].
    + left. by exists address, sign, derived.
    + by right.
    + left. by exists address, sign, derived.
  - right. rewrite server_eta. by destruct d.
  - right. rewrite server_eta. by destruct d.
Qed.

(** X20. Deriving a key on the keys page changes no note, and in the
    directory at most the entry of the connected wallet.  When the page
    newly says that the key is registered, the wallet has signed, the key
    shown is the public key derived from that signature, and the lookup
    handler answers for the wallet with exactly this key.  The server is
    changed only after the wallet has signed and a key has been derived. *)
Theorem deriveKey_registers_the_key_it_shows (d : delivery) (now : Z)
    (publicKey : option string)
    (signMessage : option (Crypto.bytes -> W -> (js_error + Crypto.bytes) * W))
    (st : KeysPage.State) (w : W) (srv : server) :
  let '(st', w', srv') :=
    KeysPage.deriveKey L host W d now publicKey signMessage
      st w srv in
  notes srv' = notes srv /\
  (forall other, publicKey <> Some other -> keys srv' !! other = keys srv !! other) /\
  (KeysPage.registered st = false -> KeysPage.registered st' = true ->
   exists address sign derived,
     publicKey = Some address /\ signMessage = Some sign /\
     Crypto.deriveEncryptionKeyFromSignature L sign address w = (inr derived, w') /\
     KeysPage.encryptionPublicKey st' = Crypto.encodedPublicKey derived /\
     KeyRoute.GET host address (keys srv')
     = KeyRoute.Found address (KeysPage.encryptionPublicKey st') now) /\
  (srv' <> srv ->
   exists address sign derived,
     publicKey = Some address /\ signMessage = Some sign /\
     Crypto.deriveEncryptionKeyFromSignature L sign address w = (inr derived, w')).
Proof.
  pose proof (deriveKey_cases d now publicKey signMessage st w srv) as Hcases.
  cbn zeta in Hcases.
  destruct (KeysPage.deriveKey _ _ _ _ _ _ _ _ _ _) as [[st' w'] srv'].
  cbn [fst snd] in Hcases.
  destruct Hcases
    as [(address & sign & derived & -> & -> & Hderive & Hvalid & Hlen & Hshown
         & -> & Hsent & Hregistered)
       |[-> Hregistered]].
  - cbn [notes keys]. split; [done|]. split.
    { intros other Hne. rewrite lookup_insert_ne; [done | congruence]. }
    split; [|intros _; by exists address, sign, derived].
    intros Hbefore Hafter. exists address, sign, derived.
    repeat split; try done.
    unfold KeyRoute.GET, Db.getRegisteredKey.
    rewrite Hvalid, lookup_insert_eq, Hshown. done.
  - split; [done|]. split; [done|]. split; [|done].
    intros Hbefore Hafter. congruence.
Qed.

End KeysPageFacts.

(** When the requests of a read arrive, a one-time note and a note at its
    limit are gone. *)
Lemma read_requests_burn (d_increment d_delete : delivery) (id : string) (burn : bool)
    (srv : server) :
  let reported := fetch d_increment (on_notes (IncrementRoute.POST id)) srv in
  let srv' :=
    if burn then snd (fetch d_delete (on_notes (NoteRoute.DELETE id)) (snd reported))
    else snd reported in
  (burn = true -> d_delete <> Lost -> notes srv' !! id = None) /\
  (d_increment <> Lost -> forall row,
     notes srv !! id = Some row ->
     row_reached (Db.col_currentReads row + 1) row = true ->
     notes srv' !! id = None).
Proof.
  cbn zeta. rewrite !fetch_eq, !on_notes_eq. cbn [fst snd].
  assert (forall db, snd (NoteRoute.DELETE id db) !! id = None) as Hdel.
  { intros db. unfold NoteRoute.DELETE, Db.deleteNote.
    destruct (negb _); cbn [snd]; apply lookup_delete_eq. }
  split.
  - intros -> Hsent. destruct d_delete; [|done|]; cbn [notes]; apply Hdel.
  - intros Hsent row Hrow Hreached.
    assert (snd (IncrementRoute.POST id (notes srv)) !! id = None) as Hinc.
    { rewrite (increment_POST_present _ _ _ Hrow), Hreached. apply lookup_delete_eq. }
    destruct burn, d_increment, d_delete; cbn [notes]; try done; apply Hdel.
Qed.

Section EndToEnd.

Variable L : Crypto.NaCl.
Hypothesis laws : Crypto.NaClLaws L.
Hypothesis secret_kept : keeps_secret L.
Variable host : Platform.
Variable blank : string -> bool.
Variable origin : string.
Variable networkError : string.
Variable W : Type.

(** X21. From registration to reading.  A recipient derives a key on the
    keys page and the page says it is registered; a sender writes a message
    to the recipient's address and is shown a link; neither the directory
    entry nor the new note is touched in between.  Then the note page of
    that link loads the note, and when the recipient's wallet signs the
    challenge as it did at registration, the page shows exactly the message
    the sender typed.  If the sender left the note one-time, it is gone
    from the server once the delete request arrives; if the sender set a
    limit of one read, it is gone once the increment arrives. *)
Theorem a_sent_note_is_read_by_its_recipient
    (address : string) (sign : Crypto.bytes -> W -> (js_error + Crypto.bytes) * W)
    (challenge signature : Crypto.bytes)
    (d_register d_key d_create d_increment d_delete : delivery) (now1 now2 : Z)
    (keysPage keysPage' : KeysPage.State) (form form' : SendPage.State)
    (w1 w1' w2 : W) (r r' : Crypto.rng L) (srv srv1 srv1' srv2 srv2' : server) :
  Crypto.decodeUTF8 L ("DarkNote encryption key for " +:+ address) = inr challenge ->
  fst (sign challenge w1) = inr signature ->
  fst (sign challenge w2) = inr signature ->
  KeysPage.deriveKey L host W d_register now1
    (Some address) (Some sign) keysPage w1 srv = (keysPage', w1', srv1) ->
  KeysPage.registered keysPage = false ->
  KeysPage.registered keysPage' = true ->
  keys srv1' !! address = keys srv1 !! address ->
  SendPage.recipientAddress form = address ->
  SendPage.handleCreateNote L host blank origin networkError
    d_key d_create now2 form r srv1' = (form', r', srv2) ->
  SendPage.noteUrl form' <> "" ->
  (forall id, notes srv1' !! id = None -> notes srv2' !! id = notes srv2 !! id) ->
  exists noteId page page' w2' srv4,
    SendPage.noteUrl form' = origin +:+ "/note/" +:+ noteId /\
    NotePage.fetchNote Answered noteId NotePage.initial srv2' = (page, srv2') /\
    NotePage.handleDecrypt L W d_increment d_delete noteId (Some address) (Some sign)
      page w2 srv2' = (page', w2', srv4) /\
    NotePage.decryptedMessage page' = SendPage.message form /\
    NotePage.error page' = "" /\
    (SendPage.selfDestruct form = true -> SendPage.maxReads form = None ->
     d_delete <> Lost -> notes srv4 !! noteId = None) /\
    (SendPage.maxReads form = Some 1%Q -> d_increment <> Lost ->
     notes srv4 !! noteId = None).
Proof.
  intros Hchallenge Hsign1 Hsign2 Hregister Hbefore Hafter Hentry Hto Hsend Hlink Hnote.
  (* registration *)
  pose proof (deriveKey_cases L host W d_register now1
                (Some address) (Some sign) keysPage w1 srv) as Hcases.
  cbn zeta in Hcases. rewrite Hregister in Hcases. cbn [fst snd] in Hcases.
  destruct Hcases
    as [(address0 & sign0 & derived & [= <-] & [= <-] & Hderive & Hvalid & Hlen
         & Hshown & -> & Hsent & _)
       |[_ Hsame]]; [|congruence].
  rewrite (derive_follows_wallet L sign address challenge _ Hchallenge), Hsign1
    in Hderive.
  cbn [Crypto.and_then] in Hderive. injection Hderive as Hkeys _.
  destruct (derived_is_valid L signature derived secret_kept Hkeys)
    as (K & HK & Hpub & Hsec).
  cbn [keys] in Hentry. rewrite lookup_insert_eq in Hentry.
  (* sending *)
  pose proof (handleCreateNote_cases L host blank origin networkError
                d_key d_create now2 form r srv1') as Hcases.
  cbn zeta in Hcases. rewrite Hsend in Hcases. cbn [fst snd] in Hcases.
  destruct Hcases
    as [(wallet & key & registeredAt & payload & r1 & noteId & r2
         & Hkey & Hencrypt & Hid & Hfree & Hacc & [= -> -> ->])
       |(e & st' & <- & [->| ->] & _)]; [|done..].
  unfold KeyRoute.GET, Db.getRegisteredKey in Hkey.
  rewrite Hto, Hentry in Hkey. destruct (validPublicKey host (JString address)); [|done].
  cbn in Hkey. injection Hkey as _ <- _.
  (* the round trip *)
  destruct (encryptMessage_encodes L _ _ _ _ _ Hencrypt) as [messageBytes Hmessage].
  destruct (sealed_then_opened L laws (SendPage.message form) K r HK
              (ex_intro _ messageBytes Hmessage))
    as (payload' & r1' & Hencrypt' & Hdecrypt).
  rewrite <- Hpub, Hencrypt in Hencrypt'. injection Hencrypt' as <- <-.
  rewrite <- Hsec in Hdecrypt.
  (* the note page *)
  set (body := SendPage.request_body noteId payload form) in *.
  assert (notes srv2' !! noteId = Some (NotesRoute.stored_row now2 body)) as Hrow.
  { rewrite (Hnote noteId Hfree). cbn [notes]. apply lookup_insert_eq. }
  set (view := NoteRoute.view_of (Db.note_of_row noteId (NotesRoute.stored_row now2 body))).
  assert (NotePage.fetchNote Answered noteId NotePage.initial srv2'
          = ({| NotePage.note := Some view; NotePage.decryptedMessage := "";
                NotePage.loading := false; NotePage.decrypting := false;
                NotePage.error := "" |}, srv2')) as Hfetch.
  { unfold NotePage.fetchNote. rewrite fetch_eq, on_notes_eq.
    rewrite (GET_present _ _ _ Hrow).
    change (Db.col_currentReads (NotesRoute.stored_row now2 body)) with 0.
    rewrite (stored_row_not_reached host now2 body Hacc).
    cbn [fst snd]. by rewrite server_eta. }
  assert (NoteRoute.recipientAddress view = address) as Hrecipient by exact Hto.
  assert (Crypto.deriveEncryptionKeyFromSignature L sign
            (NoteRoute.recipientAddress view) w2
          = (inr derived, snd (sign challenge w2))) as Hderive2.
  { rewrite Hrecipient.
    rewrite (derive_follows_wallet L sign address challenge _ Hchallenge), Hsign2.
    cbn [Crypto.and_then]. by rewrite Hkeys. }
  pose proof (handleDecrypt_decrypted L W d_increment d_delete noteId sign
                {| NotePage.note := Some view; NotePage.decryptedMessage := "";
                   NotePage.loading := false; NotePage.decrypting := false;
                   NotePage.error := "" |}
                w2 _ srv2' view derived (SendPage.message form)
                eq_refl Hderive2 Hdecrypt) as Hread.
  cbn zeta in Hread. rewrite Hrecipient in Hread.
  destruct (read_requests_burn d_increment d_delete noteId
              (NotePage.burns_on_read view) srv2') as [Hburn Hlimit].
  eexists noteId, _, _, _, _.
  split; [reflexivity|]. split; [exact Hfetch|]. split; [exact Hread|].
  split; [reflexivity|]. split; [reflexivity|]. split.
  - intros Hself Hmax Hdelete. apply Hburn; [|done].
    unfold NotePage.burns_on_read, view, NoteRoute.view_of, Db.note_of_row, body. cbn.
    by rewrite Hself, Hmax.
  - intros Hmax Hincrement.
    assert (row_reached (Db.col_currentReads (NotesRoute.stored_row now2 body) + 1)
              (NotesRoute.stored_row now2 body) = true) as Hreached.
    { unfold row_reached, body. cbn. by rewrite Hmax. }
    pose proof (Hlimit Hincrement _ Hrow Hreached) as Hgone.
    by destruct (NotePage.burns_on_read view).
Qed.

End EndToEnd.

Lemma a_sent_note_witness :
  exists noteId page page' w2' srv4,
    SendPage.noteUrl (fst (fst (Exchange.sending true None)))
      = Exchange.origin +:+ "/note/" +:+ noteId /\
    NotePage.fetchNote Answered noteId NotePage.initial (snd (Exchange.sending true None))
      = (page, snd (Exchange.sending true None)) /\
    NotePage.handleDecrypt Standin.nacl nat Answered Answered noteId
      (Some Exchange.address) (Some Standin.signer) page 7%nat
      (snd (Exchange.sending true None)) = (page', w2', srv4) /\
    NotePage.decryptedMessage page' = "burn after reading" /\
    NotePage.error page' = "" /\
    (true = true -> @None Q = None -> Answered <> Lost -> notes srv4 !! noteId = None) /\
    (@None Q = Some 1%Q -> Answered <> Lost -> notes srv4 !! noteId = None).
Proof.
  apply (a_sent_note_is_read_by_its_recipient Standin.nacl standin_laws
           standin_keeps_secret Sample.host
           Exchange.blank Exchange.origin Exchange.networkError nat
           Exchange.address Standin.signer Exchange.challenge Exchange.signature
           Answered Answered Answered Answered Answered Sample.now (Sample.now + 1000)
           KeysPage.initial (fst (fst Exchange.registration))
           (Exchange.form true None) (fst (fst (Exchange.sending true None)))
           0%nat (snd (fst Exchange.registration)) 7%nat
           3%nat (snd (fst (Exchange.sending true None)))
           Exchange.empty (snd Exchange.registration) (snd Exchange.registration)
           (snd (Exchange.sending true None)) (snd (Exchange.sending true None)));
    try (vm_compute; reflexivity).
  vm_compute. discriminate.
Defined.
